(** * channel-cpp: a shallow embedding of the channel classes and of [select]

    The development follows the headers of the library:
    - [error.hpp]            : the outcome codes [channel_errc];
    - [detail/task.hpp]      : the waiter record [task] (abort predicate and
                               completion callback);
    - [bounded_channel.hpp]  : [bounded_channel<T, Cap>], with
                               [unbounded_capacity] and [make_chan];
    - [unbounded_channel.hpp]: the stand-alone [unbounded_channel<T>];
    - [select.hpp]           : the operation wrappers [recv]/[send] and
                               [select].

    Modelling conventions.
    - Every member function runs under the channel mutex, so it is one atomic
      step: a function from the channel and the world to the new channel and
      world.  The world holds what the callbacks of the waiters can touch:
      the frames of suspended blocking calls, stop sources, the commit
      contexts of [select] and the state of the user's callbacks.
    - [std::queue] is a list: [front] is the head, [pop] drops the head,
      [emplace] appends.
    - [std::size_t] is a [Z] in [0, 2^64); [std::intmax_t] is a [Z] in
      [-2^63, 2^63); the wrap-around of [size()] is written out.
    - [assert] is kept: with [ndebug = false] a failing assertion ends the
      call with [AssertFailed]; with [ndebug = true] it is compiled out.
    - The only loop of the library that does not shorten a queue at every
      turn takes fuel and ends with [OutOfFuel] when it is exhausted.
    - A call of [select] is one step as well.  Of the mutex of its context
      the model keeps what it decides: a call that asks for this mutex while
      its own thread holds it does not return, and [select] is [Stuck]. *)

From Stdlib Require Import ZArith List Bool Lia.
From Stdlib Require String.
Import ListNotations.
Local Open Scope Z_scope.

(** ** error.hpp *)

Inductive channel_errc : Type :=
| ok
| exhausted
| closed
| canceled.

Definition channel_errc_eqb (a b : channel_errc) : bool :=
  match a, b with
  | ok, ok | exhausted, exhausted | closed, closed | canceled, canceled => true
  | _, _ => false
  end.

(** ** Results of a call *)

Inductive outcome (A : Type) : Type :=
| Ret (a : A)
| AssertFailed
| OutOfFuel.

Arguments Ret {A} a.
Arguments AssertFailed {A}.
Arguments OutOfFuel {A}.

Definition bind {A B : Type} (m : outcome A) (k : A -> outcome B) : outcome B :=
  match m with
  | Ret a => k a
  | AssertFailed => AssertFailed
  | OutOfFuel => OutOfFuel
  end.

Declare Scope outcome_scope.
Delimit Scope outcome_scope with outcome.
Notation "x <- m ;; k" := (bind m (fun x => k))
  (at level 100, m at next level, right associativity) : outcome_scope.
Notation "' p <- m ;; k" := (bind m (fun x => match x with p => k end))
  (at level 100, p pattern, m at next level, right associativity) : outcome_scope.
Local Open Scope outcome_scope.

(** ** Machine integers *)

Definition size_t_modulus : Z := 2 ^ 64.

(** [inline constexpr std::size_t unbounded_capacity = -1;] *)
Definition unbounded_capacity : Z := size_t_modulus - 1.

Definition wrap_size_t (z : Z) : Z := z mod size_t_modulus.

(** Conversion of a [std::size_t] to [std::intmax_t]. *)
Definition to_intmax (z : Z) : Z :=
  if z <? 2 ^ 63 then z else z - size_t_modulus.

Definition len {A : Type} (l : list A) : Z := Z.of_nat (length l).

(** ** Value categories: [T const&] is copied from, [T&&] is moved from *)

Inductive value_category : Type := lvalue | rvalue.

(** [std::forward<U>(value)]: the value read and what is left in the
    argument ([None] is a moved-from object). *)
Definition forward {T : Type} (cat : value_category) (v : T) : T * option T :=
  match cat with
  | lvalue => (v, Some v)
  | rvalue => (v, None)
  end.

(** ** Updating a list by index, nothing out of range *)

Fixpoint list_set {A : Type} (i : nat) (x : A) (l : list A) : list A :=
  match l, i with
  | [], _ => []
  | _ :: l', O => x :: l'
  | y :: l', S i' => y :: list_set i' x l'
  end.

Section World.

Context {T U : Type}.

(** The locals of a suspended blocking call, which its waiter record and
    its cancellation callback capture by reference: [value], [ec], the
    mutex [done] (true: locked) and [task_stop_source]. *)
Record frame : Type := mk_frame {
  fr_value : option T;
  fr_ec : option channel_errc;
  fr_done : bool;
  fr_stop : bool
}.

(** [detail::sched_context] of [select], with the mutex [done] of the call
    that owns it. *)
Record sched_context : Type := mk_sched_context {
  is_done : bool;
  sel_done : bool
}.

(** The two [std::stop_callback]s of the library. *)
Inductive stop_callback : Type :=
| on_cancel_blocked (fid : nat)
| on_cancel_select (cid : nat).

Record stop_state : Type := mk_stop_state {
  requested : bool;
  callbacks : list stop_callback
}.

Record world : Type := mk_world {
  frames : list frame;
  stops : list stop_state;
  ctxs : list sched_context;
  user : U
}.

(** [std::stop_token]: [None] is [std::stop_token{}], without stop state. *)
Definition stop_token : Type := option nat.

Definition stop_requested (w : world) (token : stop_token) : bool :=
  match token with
  | None => false
  | Some i =>
      match nth_error (stops w) i with
      | Some s => requested s
      | None => false
      end
  end.

Definition set_frames (fs : list frame) (w : world) : world :=
  mk_world fs (stops w) (ctxs w) (user w).

Definition set_stops (ss : list stop_state) (w : world) : world :=
  mk_world (frames w) ss (ctxs w) (user w).

Definition set_ctxs (cs : list sched_context) (w : world) : world :=
  mk_world (frames w) (stops w) cs (user w).

Definition set_user (u : U) (w : world) : world :=
  mk_world (frames w) (stops w) (ctxs w) u.

Definition update_frame (fid : nat) (f : frame -> frame) (w : world) : world :=
  match nth_error (frames w) fid with
  | Some fr => set_frames (list_set fid (f fr) (frames w)) w
  | None => w
  end.

Definition new_frame (fr : frame) (w : world) : nat * world :=
  (length (frames w), set_frames (frames w ++ [fr]) w).

Definition frame_stop_requested (fid : nat) (w : world) : bool :=
  match nth_error (frames w) fid with
  | Some fr => fr_stop fr
  | None => true
  end.

(** Registration of a [std::stop_callback] on a token that is not yet
    stop-requested. *)
Definition add_stop_callback (token : stop_token) (cb : stop_callback) (w : world) : world :=
  match token with
  | None => w
  | Some i =>
      match nth_error (stops w) i with
      | Some s =>
          set_stops (list_set i (mk_stop_state (requested s) (callbacks s ++ [cb])) (stops w)) w
      | None => w
      end
  end.

(** The body of [on_cancel] of a blocking [recv]/[send]. *)
Definition cancel_blocked (fid : nat) (w : world) : world :=
  if frame_stop_requested fid w then w
  else update_frame fid (fun fr => mk_frame (fr_value fr) (Some canceled) false true) w.

(** The body of [on_cancel] of [select]: [cancel()] unless already done. *)
Definition cancel_select (cid : nat) (w : world) : world :=
  match nth_error (ctxs w) cid with
  | Some c =>
      if is_done c then w
      else set_ctxs (list_set cid (mk_sched_context true false) (ctxs w)) w
  | None => w
  end.

Definition run_stop_callback (cb : stop_callback) (w : world) : world :=
  match cb with
  | on_cancel_blocked fid => cancel_blocked fid w
  | on_cancel_select cid => cancel_select cid w
  end.

(** [std::stop_source::request_stop]: the first request runs the callbacks. *)
Definition request_stop (i : nat) (w : world) : world :=
  match nth_error (stops w) i with
  | Some s =>
      if requested s then w
      else
        fold_left (fun w' cb => run_stop_callback cb w') (callbacks s)
          (set_stops (list_set i (mk_stop_state true (callbacks s)) (stops w)) w)
  | None => w
  end.

(** What a suspended blocking call returns once [done] is unlocked. *)
Definition await (fid : nat) (w : world) : option (channel_errc * option T) :=
  match nth_error (frames w) fid with
  | Some fr =>
      if fr_done fr then None
      else match fr_ec fr with
           | Some ec => Some (ec, fr_value fr)
           | None => None
           end
  | None => None
  end.

(** ** detail/task.hpp *)

(** [task<std::function<void(bool, T&&)>>] *)
Record recv_task : Type := mk_recv_task {
  recv_need_abort : world -> bool * world;
  recv_execute : bool -> T -> world -> world
}.

(** [task<std::function<void(bool, T&)>>]: the callback gets the content of
    [dst] and returns the new one. *)
Record send_task : Type := mk_send_task {
  send_need_abort : world -> bool * world;
  send_execute : bool -> T -> world -> T * world
}.

End World.

Arguments frame : clear implicits.
Arguments world : clear implicits.
Arguments recv_task : clear implicits.
Arguments send_task : clear implicits.

(** ** bounded_channel.hpp *)

Module bounded_channel.

Section Channel.

Context {T U : Type}.

(** The value of a default-constructed [T] (the [T v;] of the source). *)
Variable dflt : T.

(** [true] when the library is compiled with [NDEBUG]. *)
Variable ndebug : bool.

(** The template parameter [Cap]. *)
Variable Cap : Z.

Local Abbreviation world := (world T U).
Local Abbreviation recv_task := (recv_task T U).
Local Abbreviation send_task := (send_task T U).

Record chan : Type := mk_chan {
  is_closed_ : bool;
  buffer_ : list T;
  hanged_recv_tasks : list recv_task;
  hanged_send_tasks : list send_task
}.

Definition make_chan : chan := mk_chan false [] [] [].

Definition assert {A : Type} (b : bool) (k : outcome A) : outcome A :=
  if ndebug || b then k else AssertFailed.

(** The first loop of [size()]: aborted records at the front are popped. *)
Fixpoint prune_recv_tasks (q : list recv_task) (w : world) : list recv_task * world :=
  match q with
  | [] => ([], w)
  | task :: q' =>
      let '(aborted, w1) := recv_need_abort task w in
      if negb aborted then (task :: q', w1)
      else prune_recv_tasks q' w1
  end.

Fixpoint prune_send_tasks (q : list send_task) (w : world) : list send_task * world :=
  match q with
  | [] => ([], w)
  | task :: q' =>
      let '(aborted, w1) := send_need_abort task w in
      if negb aborted then (task :: q', w1)
      else prune_send_tasks q' w1
  end.

Definition size (c : chan) (w : world) : Z * chan * world :=
  let '(rq, w1) := prune_recv_tasks (hanged_recv_tasks c) w in
  let '(sq, w2) :=
    if negb (Cap =? unbounded_capacity)
    then prune_send_tasks (hanged_send_tasks c) w1
    else (hanged_send_tasks c, w1) in
  (to_intmax (wrap_size_t (wrap_size_t (len (buffer_ c) + len sq) - len rq)),
   mk_chan (is_closed_ c) (buffer_ c) rq sq,
   w2).

Definition capacity : Z := Cap.

(** The loops of [close()]: every record is popped, the live ones after
    their callback ran with [ok = false]. *)
Fixpoint close_recv_tasks (v : T) (q : list recv_task) (w : world) : world :=
  match q with
  | [] => w
  | task :: q' =>
      let '(aborted, w1) := recv_need_abort task w in
      let w2 := if negb aborted then recv_execute task false v w1 else w1 in
      close_recv_tasks v q' w2
  end.

Fixpoint close_send_tasks (v : T) (q : list send_task) (w : world) : world :=
  match q with
  | [] => w
  | task :: q' =>
      let '(aborted, w1) := send_need_abort task w in
      let '(v2, w2) := if negb aborted then send_execute task false v w1 else (v, w1) in
      close_send_tasks v2 q' w2
  end.

Definition close (c : chan) (w : world) : chan * world :=
  let w1 := close_recv_tasks dflt (hanged_recv_tasks c) w in
  if negb (Cap =? unbounded_capacity)
  then (mk_chan true (buffer_ c) [] [],
        close_send_tasks dflt (hanged_send_tasks c) w1)
  else (mk_chan true (buffer_ c) [] (hanged_send_tasks c), w1).

(** The loop of [try_recv_] after a value was popped from the buffer.  The
    record whose callback ran stays at the front of the queue. *)
Fixpoint refill_buffer (fuel : nat) (buf : list T) (q : list send_task) (w : world)
  : outcome (list T * list send_task * world) :=
  match q with
  | [] => Ret (buf, [], w)
  | task :: q' =>
      match fuel with
      | O => OutOfFuel
      | S fuel' =>
          assert (len buf <? Cap)
            (let '(aborted, w1) := send_need_abort task w in
             if aborted then refill_buffer fuel' buf q' w1
             else
               let '(v, w2) := send_execute task true dflt w1 in
               refill_buffer fuel' (buf ++ [v]) (task :: q') w2)
      end
  end.

(** The loop of [try_recv_] that takes the value of a suspended sender. *)
Fixpoint take_from_sender (value : T) (buf : list T) (q : list send_task) (w : world)
  : outcome (bool * T * list send_task * world) :=
  match q with
  | [] => Ret (false, value, [], w)
  | task :: q' =>
      assert (len buf >=? Cap)
        (let '(aborted, w1) := send_need_abort task w in
         if aborted then take_from_sender value buf q' w1
         else
           let '(v, w2) := send_execute task true value w1 in
           Ret (true, v, q', w2))
  end.

(** [bool try_recv_(T& value)]: the result, the content of [value], the
    channel and the world. *)
Definition try_recv_ (fuel : nat) (value : T) (c : chan) (w : world)
  : outcome (bool * T * chan * world) :=
  assert (negb (is_closed_ c))
    (match (if negb (Cap =? 0) then buffer_ c else []) with
     | front :: buf =>
         assert (Cap >? 0)
           (if negb (Cap =? unbounded_capacity) then
              '(buf', sq, w') <- refill_buffer fuel buf (hanged_send_tasks c) w ;;
              Ret (true, front, mk_chan (is_closed_ c) buf' (hanged_recv_tasks c) sq, w')
            else
              Ret (true, front,
                   mk_chan (is_closed_ c) buf (hanged_recv_tasks c) (hanged_send_tasks c), w))
     | [] =>
         if negb (Cap =? unbounded_capacity) then
           match hanged_send_tasks c with
           | _ :: _ =>
               assert (Cap =? 0)
                 ('(r, v, sq, w') <-
                    take_from_sender value (buffer_ c) (hanged_send_tasks c) w ;;
                  Ret (r, v, mk_chan (is_closed_ c) (buffer_ c) (hanged_recv_tasks c) sq, w'))
           | [] => Ret (false, value, c, w)
           end
         else Ret (false, value, c, w)
     end).

(** The loop of [try_send_]: hand the value to the first live receiver. *)
Fixpoint give_to_receiver (cat : value_category) (value : T) (buf : list T)
    (q : list recv_task) (w : world)
  : outcome (bool * option T * list recv_task * world) :=
  match q with
  | [] => Ret (false, Some value, [], w)
  | task :: q' =>
      assert (match buf with [] => true | _ :: _ => false end)
        (let '(aborted, w1) := recv_need_abort task w in
         if aborted then give_to_receiver cat value buf q' w1
         else
           let '(v, arg) := forward cat value in
           Ret (true, arg, q', recv_execute task true v w1))
  end.

(** [bool try_send_(U&& value)]: the result, what is left in [value], the
    channel and the world. *)
Definition try_send_ (cat : value_category) (value : T) (c : chan) (w : world)
  : outcome (bool * option T * chan * world) :=
  assert (negb (is_closed_ c))
    ('(sent, arg, rq, w') <-
       give_to_receiver cat value (buffer_ c) (hanged_recv_tasks c) w ;;
     let c' := mk_chan (is_closed_ c) (buffer_ c) rq (hanged_send_tasks c) in
     if sent then Ret (true, arg, c', w')
     else if Cap =? 0 then Ret (false, arg, c', w')
     else if negb (Cap =? unbounded_capacity) && (len (buffer_ c) >=? Cap)
     then Ret (false, arg, c', w')
     else
       let '(v, arg') := forward cat value in
       Ret (true, arg',
            mk_chan (is_closed_ c) (buffer_ c ++ [v]) rq (hanged_send_tasks c), w')).

(** [void try_recv(T& value, std::error_code& ec)] *)
Definition try_recv (fuel : nat) (value : T) (c : chan) (w : world)
  : outcome (channel_errc * T * chan * world) :=
  if is_closed_ c then Ret (closed, value, c, w)
  else
    '(r, v, c', w') <- try_recv_ fuel value c w ;;
    Ret (if r : bool then ok else exhausted, v, c', w').

(** [void try_send_(U&& value, std::error_code& ec)], to which both
    overloads of [try_send] forward. *)
Definition try_send (cat : value_category) (value : T) (c : chan) (w : world)
  : outcome (channel_errc * option T * chan * world) :=
  if is_closed_ c then Ret (closed, Some value, c, w)
  else if Cap =? unbounded_capacity then
    '(_, arg, c', w') <- try_send_ cat value c w ;;
    Ret (ok, arg, c', w')
  else
    '(r, arg, c', w') <- try_send_ cat value c w ;;
    Ret (if r : bool then ok else exhausted, arg, c', w').

(** How a blocking call ends: it returns a code, or it has registered a
    waiter and waits on the mutex [done] of its frame. *)
Inductive completion : Type :=
| Done (ec : channel_errc)
| Suspended (fid : nat).

(** The waiter record of a blocking [recv]. *)
Definition blocked_recv_task (fid : nat) : recv_task :=
  mk_recv_task
    (fun w => (frame_stop_requested fid w, w))
    (fun success src w =>
       update_frame fid
         (fun fr =>
            if success : bool
            then mk_frame (Some src) (Some ok) false true
            else mk_frame (fr_value fr) (Some closed) false true)
         w).

(** [void recv(std::stop_token token, T& value, std::error_code& ec)] *)
Definition recv (fuel : nat) (token : stop_token) (value : T) (c : chan) (w : world)
  : outcome (completion * T * chan * world) :=
  if stop_requested w token then Ret (Done canceled, value, c, w)
  else if is_closed_ c then Ret (Done closed, value, c, w)
  else
    '(r, v, c', w') <- try_recv_ fuel value c w ;;
    if r : bool then Ret (Done ok, v, c', w')
    else
      let '(fid, w1) := new_frame (mk_frame (Some v) None true false) w' in
      let w2 := add_stop_callback token (on_cancel_blocked fid) w1 in
      Ret (Suspended fid, v,
           mk_chan (is_closed_ c') (buffer_ c')
             (hanged_recv_tasks c' ++ [blocked_recv_task fid])
             (hanged_send_tasks c'),
           w2).

(** [void recv_sched(std::function<bool()> need_abort,
                     std::function<void(bool, T&&)> on_settled)]:
    [true] when a waiter was registered. *)
Definition recv_sched (fuel : nat)
    (need_abort : world -> bool * world) (on_settled : bool -> T -> world -> world)
    (c : chan) (w : world)
  : outcome (bool * chan * world) :=
  if is_closed_ c then Ret (false, c, on_settled false dflt w)
  else
    '(r, v, c', w') <- try_recv_ fuel dflt c w ;;
    if r : bool then Ret (false, c', on_settled true v w')
    else
      Ret (true,
           mk_chan (is_closed_ c') (buffer_ c')
             (hanged_recv_tasks c' ++ [mk_recv_task need_abort on_settled])
             (hanged_send_tasks c'),
           w').

Definition read_value (fr : frame T) : T :=
  match fr_value fr with
  | Some v => v
  | None => dflt
  end.

(** The waiter record of a blocking [send]: [dst = std::move(value)]. *)
Definition blocked_send_task (cat : value_category) (fid : nat) : send_task :=
  mk_send_task
    (fun w => (frame_stop_requested fid w, w))
    (fun success dst w =>
       match nth_error (frames w) fid with
       | Some fr =>
           if success : bool then
             let '(v, arg) := forward cat (read_value fr) in
             (v, update_frame fid (fun _ => mk_frame arg (Some ok) false true) w)
           else
             (dst,
              update_frame fid (fun fr => mk_frame (fr_value fr) (Some closed) false true) w)
       | None => (dst, w)
       end).

(** [void send_(std::stop_token token, U&& value, std::error_code& ec)], to
    which both overloads of [send] forward. *)
Definition send (cat : value_category) (token : stop_token) (value : T)
    (c : chan) (w : world)
  : outcome (completion * option T * chan * world) :=
  if stop_requested w token then Ret (Done canceled, Some value, c, w)
  else if is_closed_ c then Ret (Done closed, Some value, c, w)
  else if Cap =? unbounded_capacity then
    '(_, arg, c', w') <- try_send_ cat value c w ;;
    Ret (Done ok, arg, c', w')
  else
    '(r, arg, c', w') <- try_send_ cat value c w ;;
    if r : bool then Ret (Done ok, arg, c', w')
    else
      let '(fid, w1) := new_frame (mk_frame arg None true false) w' in
      let w2 := add_stop_callback token (on_cancel_blocked fid) w1 in
      Ret (Suspended fid, arg,
           mk_chan (is_closed_ c') (buffer_ c') (hanged_recv_tasks c')
             (hanged_send_tasks c' ++ [blocked_send_task cat fid]),
           w2).

(** The waiter record of [send_sched_]; [value] is captured by reference,
    it lives in the frame [fid] of the caller. *)
Definition sched_send_task (cat : value_category) (fid : nat)
    (need_abort : world -> bool * world) (on_settled : bool -> world -> world)
  : send_task :=
  mk_send_task need_abort
    (fun success dst w =>
       if success : bool then
         match nth_error (frames w) fid with
         | Some fr =>
             let '(v, arg) := forward cat (read_value fr) in
             (v, on_settled true
                   (update_frame fid
                      (fun fr => mk_frame arg (fr_ec fr) (fr_done fr) (fr_stop fr)) w))
         | None => (dflt, on_settled true w)
         end
       else (dst, on_settled false w)).

(** The registration at the end of [send_sched_]. *)
Definition register_send_sched (cat : value_category) (arg : option T)
    (need_abort : world -> bool * world) (on_settled : bool -> world -> world)
    (c : chan) (w : world)
  : option nat * option T * chan * world :=
  let '(fid, w1) := new_frame (mk_frame arg None false false) w in
  (Some fid, arg,
   mk_chan (is_closed_ c) (buffer_ c) (hanged_recv_tasks c)
     (hanged_send_tasks c ++ [sched_send_task cat fid need_abort on_settled]),
   w1).

(** [void send_sched_(U&& value, std::function<bool()> need_abort,
                      std::function<void(bool)> on_settled)], to which both
    overloads of [send_sched] forward: [None] when [on_settled] was called
    before returning, [Some fid] when a waiter was registered. *)
Definition send_sched (cat : value_category) (value : T)
    (need_abort : world -> bool * world) (on_settled : bool -> world -> world)
    (c : chan) (w : world)
  : outcome (option nat * option T * chan * world) :=
  if is_closed_ c then Ret (None, Some value, c, on_settled false w)
  else if Cap =? unbounded_capacity then
    '(_, arg, c', w') <- try_send_ cat value c w ;;
    Ret (None, arg, c', on_settled true w')
  else if Cap =? 0 then
    '(r, arg, c', w') <- try_send_ cat value c w ;;
    if r : bool then Ret (None, arg, c', on_settled true w')
    else Ret (register_send_sched cat arg need_abort on_settled c' w')
  else Ret (register_send_sched cat (Some value) need_abort on_settled c w).

(** The states of a channel object: it is constructed by [make_chan] and
    changed by its member functions only, whatever the world is at each
    call. *)
Inductive reachable : chan -> Prop :=
| reach_make_chan : reachable make_chan
| reach_size c w n c' w' :
    reachable c -> size c w = (n, c', w') -> reachable c'
| reach_close c w c' w' :
    reachable c -> close c w = (c', w') -> reachable c'
| reach_try_recv c w fuel value ec v c' w' :
    reachable c -> try_recv fuel value c w = Ret (ec, v, c', w') -> reachable c'
| reach_recv c w fuel token value r v c' w' :
    reachable c -> recv fuel token value c w = Ret (r, v, c', w') -> reachable c'
| reach_recv_sched c w fuel need_abort on_settled r c' w' :
    reachable c ->
    recv_sched fuel need_abort on_settled c w = Ret (r, c', w') -> reachable c'
| reach_try_send c w cat value ec arg c' w' :
    reachable c -> try_send cat value c w = Ret (ec, arg, c', w') -> reachable c'
| reach_send c w cat token value r arg c' w' :
    reachable c -> send cat token value c w = Ret (r, arg, c', w') -> reachable c'
| reach_send_sched c w cat value need_abort on_settled r arg c' w' :
    reachable c ->
    send_sched cat value need_abort on_settled c w = Ret (r, arg, c', w') ->
    reachable c'.

(** What the assertions of [try_send_] and the [if constexpr] branches rely
    on: receivers wait only at an empty buffer, a channel of capacity 0
    buffers nothing, an unbounded channel has no suspended sender. *)
Definition chan_inv (c : chan) : Prop :=
  (buffer_ c = [] \/ hanged_recv_tasks c = []) /\
  (Cap = 0 -> buffer_ c = []) /\
  (Cap = unbounded_capacity -> hanged_send_tasks c = []).

End Channel.

End bounded_channel.

(** ** unbounded_channel.hpp *)

Module unbounded_channel.

Section Channel.

Context {T U : Type}.

Variable dflt : T.
Variable ndebug : bool.

Local Abbreviation world := (world T U).
Local Abbreviation recv_task := (recv_task T U).

Record chan : Type := mk_chan {
  is_closed_ : bool;
  buffer_ : list T;
  hanged_recv_tasks : list recv_task
}.

Definition make_chan : chan := mk_chan false [] [].

(** The loops over [hanged_recv_tasks] are those of [bounded_channel],
    statement for statement. *)
Definition size (c : chan) (w : world) : Z * chan * world :=
  let '(rq, w1) := bounded_channel.prune_recv_tasks (hanged_recv_tasks c) w in
  (to_intmax (wrap_size_t (len (buffer_ c) - len rq)),
   mk_chan (is_closed_ c) (buffer_ c) rq,
   w1).

(** [std::numeric_limits<std::size_t>::max()] *)
Definition capacity : Z := size_t_modulus - 1.

Definition close (c : chan) (w : world) : chan * world :=
  (mk_chan true (buffer_ c) [],
   bounded_channel.close_recv_tasks dflt (hanged_recv_tasks c) w).

Definition try_recv_ (value : T) (c : chan) : bool * T * chan :=
  match buffer_ c with
  | [] => (false, value, c)
  | front :: buf => (true, front, mk_chan (is_closed_ c) buf (hanged_recv_tasks c))
  end.

Definition try_send_ (cat : value_category) (value : T) (c : chan) (w : world)
  : outcome (bool * option T * chan * world) :=
  bounded_channel.assert ndebug (negb (is_closed_ c))
    ('(sent, arg, rq, w') <-
       bounded_channel.give_to_receiver ndebug cat value (buffer_ c)
         (hanged_recv_tasks c) w ;;
     if sent : bool then Ret (true, arg, mk_chan (is_closed_ c) (buffer_ c) rq, w')
     else
       let '(v, arg') := forward cat value in
       Ret (true, arg', mk_chan (is_closed_ c) (buffer_ c ++ [v]) rq, w')).

Definition try_recv (value : T) (c : chan) (w : world)
  : channel_errc * T * chan * world :=
  if is_closed_ c then (closed, value, c, w)
  else
    let '(r, v, c') := try_recv_ value c in
    (if r : bool then ok else exhausted, v, c', w).

Definition recv (token : stop_token) (value : T) (c : chan) (w : world)
  : bounded_channel.completion * T * chan * world :=
  if stop_requested w token then (bounded_channel.Done canceled, value, c, w)
  else if is_closed_ c then (bounded_channel.Done closed, value, c, w)
  else
    let '(r, v, c') := try_recv_ value c in
    if r : bool then (bounded_channel.Done ok, v, c', w)
    else
      let '(fid, w1) := new_frame (mk_frame (Some v) None true false) w in
      let w2 := add_stop_callback token (on_cancel_blocked fid) w1 in
      (bounded_channel.Suspended fid, v,
       mk_chan (is_closed_ c') (buffer_ c')
         (hanged_recv_tasks c' ++ [bounded_channel.blocked_recv_task fid]),
       w2).

Definition recv_sched
    (need_abort : world -> bool * world) (on_settled : bool -> T -> world -> world)
    (c : chan) (w : world)
  : bool * chan * world :=
  if is_closed_ c then (false, c, on_settled false dflt w)
  else
    let '(r, v, c') := try_recv_ dflt c in
    if r : bool then (false, c', on_settled true v w)
    else
      (true,
       mk_chan (is_closed_ c') (buffer_ c')
         (hanged_recv_tasks c' ++ [mk_recv_task need_abort on_settled]),
       w).

(** [void try_send_(U&& value, std::error_code& ec)] *)
Definition try_send (cat : value_category) (value : T) (c : chan) (w : world)
  : outcome (channel_errc * option T * chan * world) :=
  if is_closed_ c then Ret (closed, Some value, c, w)
  else
    '(_, arg, c', w') <- try_send_ cat value c w ;;
    Ret (ok, arg, c', w').

(** [void send_(std::stop_token token, U&& value, std::error_code& ec)] *)
Definition send (cat : value_category) (token : stop_token) (value : T)
    (c : chan) (w : world)
  : outcome (channel_errc * option T * chan * world) :=
  if stop_requested w token then Ret (canceled, Some value, c, w)
  else if is_closed_ c then Ret (closed, Some value, c, w)
  else
    '(_, arg, c', w') <- try_send_ cat value c w ;;
    Ret (ok, arg, c', w').

(** [void send_sched_(U&& value, ...)]: never registers a waiter. *)
Definition send_sched (cat : value_category) (value : T)
    (need_abort : world -> bool * world) (on_settled : bool -> world -> world)
    (c : chan) (w : world)
  : outcome (option T * chan * world) :=
  if is_closed_ c then Ret (Some value, c, on_settled false w)
  else
    '(r, arg, c', w') <- try_send_ cat value c w ;;
    Ret (arg, c', on_settled r w').

(** The states of a channel object of this class. *)
Inductive reachable : chan -> Prop :=
| reach_make_chan : reachable make_chan
| reach_size c w n c' w' :
    reachable c -> size c w = (n, c', w') -> reachable c'
| reach_close c w c' w' :
    reachable c -> close c w = (c', w') -> reachable c'
| reach_try_recv c w value ec v c' w' :
    reachable c -> try_recv value c w = (ec, v, c', w') -> reachable c'
| reach_recv c w token value r v c' w' :
    reachable c -> recv token value c w = (r, v, c', w') -> reachable c'
| reach_recv_sched c w need_abort on_settled r c' w' :
    reachable c -> recv_sched need_abort on_settled c w = (r, c', w') -> reachable c'
| reach_try_send c w cat value ec arg c' w' :
    reachable c -> try_send cat value c w = Ret (ec, arg, c', w') -> reachable c'
| reach_send c w cat token value ec arg c' w' :
    reachable c -> send cat token value c w = Ret (ec, arg, c', w') -> reachable c'
| reach_send_sched c w cat value need_abort on_settled arg c' w' :
    reachable c ->
    send_sched cat value need_abort on_settled c w = Ret (arg, c', w') ->
    reachable c'.

(** Receivers wait only at an empty buffer. *)
Definition chan_inv (c : chan) : Prop :=
  buffer_ c = [] \/ hanged_recv_tasks c = [].

End Channel.

End unbounded_channel.

(** ** select.hpp *)

Module select_hpp.

Section Select.

Context {T U : Type}.

Variable dflt : T.
Variable ndebug : bool.

Local Abbreviation world := (world T U).

(** An object behind a [receiver<T>&] or [sender<T>&]: one of the two
    channel classes. *)
Inductive chan_object : Type :=
| bounded (Cap : Z) (c : @bounded_channel.chan T U)
| unbounded (c : @unbounded_channel.chan T U).

(** The channels that the operations refer to, and the world. *)
Record system : Type := mk_system {
  chans : list chan_object;
  wld : world
}.

Definition set_chan (i : nat) (o : chan_object) (s : system) (w : world) : system :=
  mk_system (list_set i o (chans s)) w.

(** The virtual calls [chan_.try_recv], [chan_.try_send], [chan_.recv_sched]
    and [chan_.send_sched] on the channel at index [i].  An index out of
    range stands for a dangling reference, which no well-formed program
    has; such a call changes nothing. *)
Definition call_try_recv (fuel : nat) (i : nat) (value : T) (s : system)
  : outcome (channel_errc * T * system) :=
  match nth_error (chans s) i with
  | Some (bounded Cap c) =>
      '(ec, v, c', w') <- bounded_channel.try_recv dflt ndebug Cap fuel value c (wld s) ;;
      Ret (ec, v, set_chan i (bounded Cap c') s w')
  | Some (unbounded c) =>
      let '(ec, v, c', w') := unbounded_channel.try_recv value c (wld s) in
      Ret (ec, v, set_chan i (unbounded c') s w')
  | None => Ret (closed, value, s)
  end.

Definition call_try_send (i : nat) (cat : value_category) (value : T) (s : system)
  : outcome (channel_errc * option T * system) :=
  match nth_error (chans s) i with
  | Some (bounded Cap c) =>
      '(ec, arg, c', w') <- bounded_channel.try_send ndebug Cap cat value c (wld s) ;;
      Ret (ec, arg, set_chan i (bounded Cap c') s w')
  | Some (unbounded c) =>
      '(ec, arg, c', w') <- unbounded_channel.try_send ndebug cat value c (wld s) ;;
      Ret (ec, arg, set_chan i (unbounded c') s w')
  | None => Ret (closed, Some value, s)
  end.

Definition call_recv_sched (fuel : nat) (i : nat)
    (need_abort : world -> bool * world) (on_settled : bool -> T -> world -> world)
    (s : system)
  : outcome system :=
  match nth_error (chans s) i with
  | Some (bounded Cap c) =>
      '(_, c', w') <-
         bounded_channel.recv_sched dflt ndebug Cap fuel need_abort on_settled c (wld s) ;;
      Ret (set_chan i (bounded Cap c') s w')
  | Some (unbounded c) =>
      let '(_, c', w') := unbounded_channel.recv_sched dflt need_abort on_settled c (wld s) in
      Ret (set_chan i (unbounded c') s w')
  | None => Ret s
  end.

Definition call_send_sched (i : nat) (cat : value_category) (value : T)
    (need_abort : world -> bool * world) (on_settled : bool -> world -> world)
    (s : system)
  : outcome (option T * system) :=
  match nth_error (chans s) i with
  | Some (bounded Cap c) =>
      '(_, arg, c', w') <-
         bounded_channel.send_sched dflt ndebug Cap cat value need_abort on_settled c (wld s) ;;
      Ret (arg, set_chan i (bounded Cap c') s w')
  | Some (unbounded c) =>
      '(arg, c', w') <-
         unbounded_channel.send_sched ndebug cat value need_abort on_settled c (wld s) ;;
      Ret (arg, set_chan i (unbounded c') s w')
  | None => Ret (Some value, s)
  end.

(** The virtual calls [size] and [close] of [detail::chan_base]. *)
Definition call_size (i : nat) (s : system) : Z * system :=
  match nth_error (chans s) i with
  | Some (bounded Cap c) =>
      let '(n, c', w') := bounded_channel.size Cap c (wld s) in
      (n, set_chan i (bounded Cap c') s w')
  | Some (unbounded c) =>
      let '(n, c', w') := unbounded_channel.size c (wld s) in
      (n, set_chan i (unbounded c') s w')
  | None => (0, s)
  end.

Definition call_close (i : nat) (s : system) : system :=
  match nth_error (chans s) i with
  | Some (bounded Cap c) =>
      let '(c', w') := bounded_channel.close dflt Cap c (wld s) in
      set_chan i (bounded Cap c') s w'
  | Some (unbounded c) =>
      let '(c', w') := unbounded_channel.close dflt c (wld s) in
      set_chan i (unbounded c') s w'
  | None => s
  end.

(** The two classes derived from [detail::op], with their members. *)
Inductive op : Type :=
| recv (chan_ : nat) (on_settle_ : bool -> T -> world -> world)
| send (chan_ : nat) (cat : value_category) (value_ : option T)
       (on_settle_ : bool -> world -> world).

Definition read_member (value_ : option T) : T :=
  match value_ with
  | Some v => v
  | None => dflt
  end.

(** [bool try_execute()]: the result, the operation and the system. *)
Definition try_execute (fuel : nat) (o : op) (s : system)
  : outcome (bool * op * system) :=
  match o with
  | recv chan_ on_settle_ =>
      '(ec, value, s') <- call_try_recv fuel chan_ dflt s ;;
      if channel_errc_eqb ec exhausted then Ret (false, o, s')
      else
        Ret (true, o,
             mk_system (chans s') (on_settle_ (channel_errc_eqb ec ok) value (wld s')))
  | send chan_ cat value_ on_settle_ =>
      '(ec, arg, s') <- call_try_send chan_ cat (read_member value_) s ;;
      if channel_errc_eqb ec exhausted then Ret (false, send chan_ cat arg on_settle_, s')
      else
        Ret (true, send chan_ cat arg on_settle_,
             mk_system (chans s') (on_settle_ (channel_errc_eqb ec ok) (wld s')))
  end.

(** [void schedule(std::function<bool()> need_abort)] *)
Definition schedule (fuel : nat) (o : op) (need_abort : world -> bool * world)
    (s : system)
  : outcome (op * system) :=
  match o with
  | recv chan_ on_settle_ =>
      s' <- call_recv_sched fuel chan_ need_abort on_settle_ s ;;
      Ret (o, s')
  | send chan_ cat value_ on_settle_ =>
      '(arg, s') <-
         call_send_sched chan_ cat (read_member value_) need_abort on_settle_ s ;;
      Ret (send chan_ cat arg on_settle_, s')
  end.

(** What [select] called, in order; the number is the position of the
    operation among [ops]. *)
Inductive call : Type :=
| called_try_execute (i : nat)
| called_schedule (i : nat)
| called_fallback.

(** The first fold of [select] over [ops], with its flag [is_executed];
    [i] is the position of the head of [ops]. *)
Fixpoint greedy_pass (fuel : nat) (is_executed : bool) (i : nat) (ops : list op)
    (s : system)
  : outcome (bool * list op * system * list call) :=
  match ops with
  | [] => Ret (is_executed, [], s, [])
  | o :: ops' =>
      if is_executed then
        '(r, ops'', s', log) <- greedy_pass fuel is_executed (S i) ops' s ;;
        Ret (r, o :: ops'', s', log)
      else
        '(r, o', s1) <- try_execute fuel o s ;;
        '(r', ops'', s2, log) <- greedy_pass fuel r (S i) ops' s1 ;;
        Ret (r', o' :: ops'', s2, called_try_execute i :: log)
  end.

(** The closure [need_abort] of [select] over the context [cid]. *)
Definition select_need_abort (cid : nat) (w : world) : bool * world :=
  match nth_error (ctxs w) cid with
  | Some c =>
      if is_done c then (true, w)
      else (false, set_ctxs (list_set cid (mk_sched_context true false) (ctxs w)) w)
  | None => (true, w)
  end.

(** Whether [is_done] of the context [cid] is set. *)
Definition context_is_done (cid : nat) (w : world) : bool :=
  match nth_error (ctxs w) cid with
  | Some c => is_done c
  | None => false
  end.

(** The second fold of [select] over [ops], with [need_abort] the closure
    over the context [cid].  The calling thread holds [ctx->mutex] from
    before the first call of [schedule] until after the last one.
    [is_done] is written by [cancel] only, and [cancel] is called by
    [need_abort] and by [on_cancel] only, both after they locked
    [ctx->mutex].  So when [is_done] is set at the end of a call of
    [schedule], this call has asked for the mutex that its own thread holds:
    it does not return.  The fold ends there with [false], the log up to this
    call, and the operations and the system as they were when this call
    began. *)
Fixpoint schedule_all (fuel : nat) (cid : nat) (i : nat) (ops : list op) (s : system)
  : outcome (bool * list op * system * list call) :=
  match ops with
  | [] => Ret (true, [], s, [])
  | o :: ops' =>
      '(o', s1) <- schedule fuel o (select_need_abort cid) s ;;
      if context_is_done cid (wld s1) then Ret (false, ops, s, [called_schedule i])
      else
        '(through, ops'', s2, log) <- schedule_all fuel cid (S i) ops' s1 ;;
        Ret (through, o' :: ops'', s2, called_schedule i :: log)
  end.

(** How a call of [select] ends: it returns; it waits on [done] for the
    context [cid]; or it is stuck on the mutex of the context, which its own
    thread holds.  The last happens in the constructor of [on_cancel], which
    runs the cancellation callback at once for a token that is already
    stop-requested, and in a call of [schedule] that asks the abort predicate
    of the context.  In the second case the thread also keeps the mutex of
    the channel on which it was scheduling: a run is followed up to [Stuck],
    not beyond. *)
Inductive select_result : Type :=
| Returned
| Waiting (cid : nat)
| Stuck.

(** [void select(std::stop_token token, Ops... ops,
                 std::function<void()> const& fallback)] *)
Definition select (fuel : nat) (token : stop_token) (ops : list op)
    (fallback : option (world -> world)) (s : system)
  : outcome (select_result * list op * system * list call) :=
  '(is_executed, ops1, s1, log1) <- greedy_pass fuel false O ops s ;;
  if is_executed : bool then Ret (Returned, ops1, s1, log1)
  else
    match fallback with
    | Some f =>
        Ret (Returned, ops1, mk_system (chans s1) (f (wld s1)), log1 ++ [called_fallback])
    | None =>
        let cid := length (ctxs (wld s1)) in
        let w2 := set_ctxs (ctxs (wld s1) ++ [mk_sched_context false true]) (wld s1) in
        if stop_requested w2 token then
          Ret (Stuck, ops1, mk_system (chans s1) w2, log1)
        else
          let w3 := add_stop_callback token (on_cancel_select cid) w2 in
          '(through, ops2, s2, log2) <-
             schedule_all fuel cid O ops1 (mk_system (chans s1) w3) ;;
          Ret (if through : bool then
                 match nth_error (ctxs (wld s2)) cid with
                 | Some c => if sel_done c then Waiting cid else Returned
                 | None => Returned
                 end
               else Stuck,
               ops2, s2, log1 ++ log2)
    end.

End Select.

End select_hpp.

(** * Vocabulary of the properties *)

Section Vocabulary.

Context {T U : Type}.

(** Whether a waiter record is aborted in the world [w]. *)
Definition aborted_recv (w : world T U) (task : recv_task T U) : bool :=
  fst (recv_need_abort task w).

Definition aborted_send (w : world T U) (task : send_task T U) : bool :=
  fst (send_need_abort task w).

(** An abort predicate that only reads the world, as the ones of the
    blocking calls and of [recv_sched(std::stop_token, ...)] do. *)
Definition read_only_recv (task : recv_task T U) : Prop :=
  forall w, snd (recv_need_abort task w) = w.

Definition read_only_send (task : send_task T U) : Prop :=
  forall w, snd (send_need_abort task w) = w.

(** The number of live records of a queue, wherever they stand. *)
Definition live_recv (w : world T U) (q : list (recv_task T U)) : Z :=
  len (filter (fun task => negb (aborted_recv w task)) q).

Definition live_send (w : world T U) (q : list (send_task T U)) : Z :=
  len (filter (fun task => negb (aborted_send w task)) q).

(** An abort predicate that changes nothing when it answers that its record
    is aborted.  Such are the token tests of the blocking calls and of
    [recv_sched(std::stop_token, ...)], which change nothing at all, and the
    abort predicate of [select], which sets [is_done] only when it answers
    that the record is live. *)
Definition quiet_recv (task : recv_task T U) : Prop :=
  forall w, aborted_recv w task = true -> snd (recv_need_abort task w) = w.

Definition quiet_send (task : send_task T U) : Prop :=
  forall w, aborted_send w task = true -> snd (send_need_abort task w) = w.

(** The world after the record at the front of a queue, if there is one,
    was asked whether it is aborted. *)
Definition asked_recv (q : list (recv_task T U)) (w : world T U) : world T U :=
  match q with
  | [] => w
  | task :: _ => snd (recv_need_abort task w)
  end.

Definition asked_send (q : list (send_task T U)) (w : world T U) : world T U :=
  match q with
  | [] => w
  | task :: _ => snd (send_need_abort task w)
  end.

(** The number of aborted records of a queue, wherever they stand. *)
Definition stale_recv (w : world T U) (q : list (recv_task T U)) : Z :=
  len (filter (aborted_recv w) q).

Definition stale_send (w : world T U) (q : list (send_task T U)) : Z :=
  len (filter (aborted_send w) q).

(** What one can see of a channel: the closed flag, the buffer and the
    lengths of the queues of receivers and of senders. *)
Definition observe (c : @bounded_channel.chan T U) : bool * list T * nat * nat :=
  (bounded_channel.is_closed_ c, bounded_channel.buffer_ c,
   length (bounded_channel.hanged_recv_tasks c),
   length (bounded_channel.hanged_send_tasks c)).

(** The buffer holds no more values than the capacity. *)
Definition buffer_bounded (Cap : Z) (c : @bounded_channel.chan T U) : Prop :=
  len (bounded_channel.buffer_ c) <= Cap.

(** No waiter was registered between two states of a channel object: each
    queue is what is left of the former one after records were popped. *)
Definition suffix_of {A : Type} (q' q : list A) : Prop :=
  exists popped, q = popped ++ q'.

Definition no_new_waiter (o o' : @select_hpp.chan_object T U) : Prop :=
  match o, o' with
  | select_hpp.bounded Cap c, select_hpp.bounded Cap' c' =>
      Cap' = Cap /\
      suffix_of (bounded_channel.hanged_recv_tasks c')
        (bounded_channel.hanged_recv_tasks c) /\
      suffix_of (bounded_channel.hanged_send_tasks c')
        (bounded_channel.hanged_send_tasks c)
  | select_hpp.unbounded c, select_hpp.unbounded c' =>
      suffix_of (unbounded_channel.hanged_recv_tasks c')
        (unbounded_channel.hanged_recv_tasks c)
  | _, _ => False
  end.

(** The operations [ops], tried one after the other from the system [s],
    all report that they are not settled; [ops'] and [s'] are the
    operations and the system after these attempts. *)
Inductive all_exhausted (dflt : T) (ndebug : bool) (fuel : nat)
  : list (@select_hpp.op T U) -> @select_hpp.system T U ->
    list (@select_hpp.op T U) -> @select_hpp.system T U -> Prop :=
| all_exhausted_nil s : all_exhausted dflt ndebug fuel [] s [] s
| all_exhausted_cons o o' ops ops' s s1 s2 :
    select_hpp.try_execute dflt ndebug fuel o s = Ret (false, o', s1) ->
    all_exhausted dflt ndebug fuel ops s1 ops' s2 ->
    all_exhausted dflt ndebug fuel (o :: ops) s (o' :: ops') s2.

End Vocabulary.

Fixpoint drop_while {A : Type} (p : A -> bool) (l : list A) : list A :=
  match l with
  | [] => []
  | x :: l' => if p x then drop_while p l' else l
  end.

(** * Concrete runs

    Channels of [int] (here [Z]); the callbacks of the user append what they
    were called with to a log: [(ok, Some v)] for a receive, [(ok, None)] for
    a send. *)

Module scenario.

Definition log : Type := list (bool * option Z).

Definition w0 : world Z log := mk_world [] [] [] [].

(** A world with one stop source, not stop-requested. *)
Definition w_one_source : world Z log := mk_world [] [mk_stop_state false []] [] [].

(** A world whose stop source is stop-requested. *)
Definition w_stopped : world Z log := mk_world [] [mk_stop_state true []] [] [].

(** [[] { return false; }] *)
Definition never_abort (w : world Z log) : bool * world Z log := (false, w).

Definition log_sent (success : bool) (w : world Z log) : world Z log :=
  set_user (user w ++ [(success, None)]) w.

Definition log_received (success : bool) (v : Z) (w : world Z log) : world Z log :=
  set_user (user w ++ [(success, Some v)]) w.

Definition ignore_received (success : bool) (v : Z) (w : world Z log) : world Z log := w.

Definition result_of {A : Type} (d : A) (m : outcome A) : A :=
  match m with
  | Ret a => a
  | _ => d
  end.

Definition fresh : @bounded_channel.chan Z log * world Z log :=
  (bounded_channel.make_chan, w0).

(** [make_chan<int, 2>()], then [send_sched(7, [] { return false; }, cb)]. *)
Definition send_sched_on_empty (ndebug : bool)
  : outcome (option nat * option Z * @bounded_channel.chan Z log * world Z log) :=
  bounded_channel.send_sched 0 ndebug 2 rvalue 7 never_abort log_sent
    bounded_channel.make_chan w0.

(** [make_chan<int, 1>()], then [send(1)], [send(2)] and [send(3)] from
    three threads: the first value is buffered, the two other calls are
    suspended. *)
Definition full_with_two_senders (ndebug : bool)
  : outcome (@bounded_channel.chan Z log * world Z log) :=
  '(_, _, c1, w1) <-
     bounded_channel.send 0 ndebug 1 rvalue None 1 bounded_channel.make_chan w0 ;;
  '(_, _, c2, w2) <- bounded_channel.send 0 ndebug 1 rvalue None 2 c1 w1 ;;
  '(_, _, c3, w3) <- bounded_channel.send 0 ndebug 1 rvalue None 3 c2 w2 ;;
  Ret (c3, w3).

(** The same with one suspended sender. *)
Definition full_with_one_sender (ndebug : bool)
  : outcome (@bounded_channel.chan Z log * world Z log) :=
  '(_, _, c1, w1) <-
     bounded_channel.send 0 ndebug 1 rvalue None 1 bounded_channel.make_chan w0 ;;
  '(_, _, c2, w2) <- bounded_channel.send 0 ndebug 1 rvalue None 2 c1 w1 ;;
  Ret (c2, w2).

(** [make_chan<int, 1>()], [send(1)], then
    [send_sched(2, [] { return false; }, cb)]. *)
Definition full_with_scheduled_sender
  : outcome (@bounded_channel.chan Z log * world Z log) :=
  '(_, _, c1, w1) <-
     bounded_channel.send 0 true 1 rvalue None 1 bounded_channel.make_chan w0 ;;
  '(_, _, c2, w2) <-
     bounded_channel.send_sched 0 true 1 rvalue 2 never_abort log_sent c1 w1 ;;
  Ret (c2, w2).

(** [make_chan<int, 2>()], then [send(1)], [send(2)] and [close()]. *)
Definition closed_with_two_values (ndebug : bool)
  : outcome (@bounded_channel.chan Z log * world Z log) :=
  '(_, _, c1, w1) <-
     bounded_channel.send 0 ndebug 2 rvalue None 1 bounded_channel.make_chan w0 ;;
  '(_, _, c2, w2) <- bounded_channel.send 0 ndebug 2 rvalue None 2 c1 w1 ;;
  Ret (bounded_channel.close 0 2 c2 w2).

(** [make_chan<int, 0>()], then two blocking [recv] from two threads. *)
Definition two_receivers_hang (ndebug : bool)
  : outcome (@bounded_channel.chan Z log * world Z log) :=
  '(_, _, c1, w1) <-
     bounded_channel.recv 0 ndebug 0 1 None 0 bounded_channel.make_chan w_one_source ;;
  '(_, _, c2, w2) <- bounded_channel.recv 0 ndebug 0 1 (Some 0%nat) 0 c1 w1 ;;
  Ret (c2, w2).

(** The two calls one by one: the result, the out-parameter, the channel
    and the world after each. *)
Definition first_receiver_hangs
  : bounded_channel.completion * Z * @bounded_channel.chan Z log * world Z log :=
  result_of (bounded_channel.Done ok, 0, bounded_channel.make_chan, w_one_source)
    (bounded_channel.recv 0 false 0 1 None 0 bounded_channel.make_chan w_one_source).

Definition second_receiver_hangs
  : bounded_channel.completion * Z * @bounded_channel.chan Z log * world Z log :=
  result_of first_receiver_hangs
    (bounded_channel.recv 0 false 0 1 (Some 0%nat) 0
       (snd (fst first_receiver_hangs)) (snd first_receiver_hangs)).

(** The same, after the token of the second call was tripped: the second
    call returned [canceled], its record is still in the queue. *)
Definition second_receiver_canceled : @bounded_channel.chan Z log * world Z log :=
  let '(c, w) := result_of fresh (two_receivers_hang false) in
  (c, request_stop 0 w).

(** [make_chan<int, 0>()], then two blocking [send] from two threads. *)
Definition two_senders_hang (ndebug : bool)
  : outcome (@bounded_channel.chan Z log * world Z log) :=
  '(_, _, c1, w1) <-
     bounded_channel.send 0 ndebug 0 rvalue None 42 bounded_channel.make_chan w0 ;;
  '(_, _, c2, w2) <- bounded_channel.send 0 ndebug 0 rvalue None 42 c1 w1 ;;
  Ret (c2, w2).

(** Two channels for [select]: [c1] of capacity 0 and empty, [c2] unbounded
    and holding the value 7. *)
Definition two_channels : @select_hpp.system Z log :=
  select_hpp.mk_system
    [select_hpp.bounded 0 bounded_channel.make_chan;
     select_hpp.unbounded (unbounded_channel.mk_chan false [7] [])]
    w0.

Definition recv_c1 : @select_hpp.op Z log := select_hpp.recv 0 ignore_received.
Definition recv_c2 : @select_hpp.op Z log := select_hpp.recv 1 log_received.
Definition send_c1 : @select_hpp.op Z log := select_hpp.send 0 rvalue (Some 5) log_sent.

(** The channels and the operations of the tests of [select]: the values
    1 and 2 stand for "foo" and "bar". *)
Definition two_rendezvous : @select_hpp.system Z log :=
  select_hpp.mk_system
    [select_hpp.bounded 0 bounded_channel.make_chan;
     select_hpp.bounded 0 bounded_channel.make_chan]
    w0.

Definition two_unbounded : @select_hpp.system Z log :=
  select_hpp.mk_system
    [select_hpp.unbounded unbounded_channel.make_chan;
     select_hpp.unbounded unbounded_channel.make_chan]
    w0.

Definition recv_or_send_twice : list (@select_hpp.op Z log) :=
  [select_hpp.recv 0 ignore_received;
   select_hpp.send 1 rvalue (Some 1) log_sent;
   select_hpp.send 1 rvalue (Some 2) log_sent].

End scenario.

(** * More of the library *)

(** ** chan.hpp: the overloads of [receiver<T>] and [sender<T>]

    They are written once, over the virtual functions of the channel
    class [C] they are called on. *)

Module chan_hpp.

Section Overloads.

Context {T U C : Type}.

Variable try_recv :
  T -> C -> world T U -> outcome (channel_errc * T * C * world T U).
Variable try_send :
  value_category -> T -> C -> world T U ->
  outcome (channel_errc * option T * C * world T U).
Variable recv_sched :
  (world T U -> bool * world T U) -> (bool -> T -> world T U -> world T U) ->
  C -> world T U -> outcome (bool * C * world T U).
Variable send_sched :
  value_category -> T -> (world T U -> bool * world T U) ->
  (bool -> world T U -> world T U) ->
  C -> world T U -> outcome (option nat * option T * C * world T U).

(** [bool try_recv(T& value)] *)
Definition try_recv_bool (value : T) (c : C) (w : world T U)
  : outcome (bool * T * C * world T U) :=
  '(ec, v, c', w') <- try_recv value c w ;;
  Ret (channel_errc_eqb ec ok, v, c', w').

(** [bool try_send(T const& value)] and [bool try_send(T&& value)] *)
Definition try_send_bool (cat : value_category) (value : T) (c : C) (w : world T U)
  : outcome (bool * option T * C * world T U) :=
  '(ec, arg, c', w') <- try_send cat value c w ;;
  Ret (channel_errc_eqb ec ok, arg, c', w').

(** [[token] { return token.stop_requested(); }] *)
Definition token_need_abort (token : stop_token) (w : world T U) : bool * world T U :=
  (stop_requested w token, w).

(** [[] { return false; }] *)
Definition never_need_abort (w : world T U) : bool * world T U := (false, w).

(** [void recv_sched(std::stop_token token, std::function<void(bool, T&&)> on_settled)] *)
Definition recv_sched_token (token : stop_token)
    (on_settled : bool -> T -> world T U -> world T U) (c : C) (w : world T U)
  : outcome (bool * C * world T U) :=
  if stop_requested w token then Ret (false, c, w)
  else recv_sched (token_need_abort token) on_settled c w.

(** [void recv_sched(std::function<void(bool, T&&)> on_settled)] *)
Definition recv_sched_plain
    (on_settled : bool -> T -> world T U -> world T U) (c : C) (w : world T U)
  : outcome (bool * C * world T U) :=
  recv_sched never_need_abort on_settled c w.

(** [void send_sched(std::stop_token token, T&& value, std::function<void(bool)> on_settled)] *)
Definition send_sched_token (cat : value_category) (token : stop_token) (value : T)
    (on_settled : bool -> world T U -> world T U) (c : C) (w : world T U)
  : outcome (option nat * option T * C * world T U) :=
  if stop_requested w token then Ret (None, Some value, c, w)
  else send_sched cat value (token_need_abort token) on_settled c w.

(** [void send_sched(T const& value, std::function<void(bool)> on_settled)] and
    [void send_sched(T&& value, std::function<void(bool)> on_settled)] *)
Definition send_sched_plain (cat : value_category) (value : T)
    (on_settled : bool -> world T U -> world T U) (c : C) (w : world T U)
  : outcome (option nat * option T * C * world T U) :=
  send_sched cat value never_need_abort on_settled c w.

End Overloads.

End chan_hpp.

(** ** error.hpp *)

Module error_hpp.

Import String.
Local Open Scope string_scope.

(** The enumerators of [channel_errc]. *)
Definition value (e : channel_errc) : Z :=
  match e with
  | ok => 0
  | exhausted => 1
  | closed => 2
  | canceled => 3
  end.

(** [channel_category::name()] *)
Definition name : string := "channel_error".

(** [channel_category::message(int c)] *)
Definition message (c : Z) : string :=
  match c with
  | 0 => "channel operation successful"
  | 1 => "channel resource exhausted"
  | 2 => "closed channel"
  | 3 => "channel operation canceled"
  | _ => "unknown"
  end%Z.

(** [make_error_code(channel_errc e)]: the value and the name of the
    category. *)
Definition make_error_code (e : channel_errc) : Z * string := (value e, name).

End error_hpp.

(** ** Sequences of calls *)

Section Sequences.

Context {T U : Type}.
Variable dflt : T.
Variable ndebug : bool.
Variable Cap : Z.

(** [try_send] of the values [vs], one after the other: the codes
    returned. *)
Fixpoint try_send_all (cat : value_category) (vs : list T)
    (c : @bounded_channel.chan T U) (w : world T U)
  : outcome (list channel_errc * @bounded_channel.chan T U * world T U) :=
  match vs with
  | [] => Ret ([], c, w)
  | v :: vs' =>
      '(ec, _, c1, w1) <- bounded_channel.try_send ndebug Cap cat v c w ;;
      '(ecs, c2, w2) <- try_send_all cat vs' c1 w1 ;;
      Ret (ec :: ecs, c2, w2)
  end.

(** [n] calls of [try_recv], each into a fresh [T value;]: the codes
    returned and the contents of [value]. *)
Fixpoint try_recv_times (fuel : nat) (n : nat)
    (c : @bounded_channel.chan T U) (w : world T U)
  : outcome (list (channel_errc * T) * @bounded_channel.chan T U * world T U) :=
  match n with
  | O => Ret ([], c, w)
  | S n' =>
      '(ec, v, c1, w1) <- bounded_channel.try_recv dflt ndebug Cap fuel dflt c w ;;
      '(rs, c2, w2) <- try_recv_times fuel n' c1 w1 ;;
      Ret ((ec, v) :: rs, c2, w2)
  end.

(** One call of a member function of [bounded_channel], from the channel
    [c] to the channel [c']. *)
Inductive member_call : @bounded_channel.chan T U -> @bounded_channel.chan T U -> Prop :=
| call_size c w n c' w' :
    bounded_channel.size Cap c w = (n, c', w') -> member_call c c'
| call_close c w c' w' :
    bounded_channel.close dflt Cap c w = (c', w') -> member_call c c'
| call_try_recv c w fuel value ec v c' w' :
    bounded_channel.try_recv dflt ndebug Cap fuel value c w = Ret (ec, v, c', w') ->
    member_call c c'
| call_recv c w fuel token value r v c' w' :
    bounded_channel.recv dflt ndebug Cap fuel token value c w = Ret (r, v, c', w') ->
    member_call c c'
| call_recv_sched c w fuel need_abort on_settled r c' w' :
    bounded_channel.recv_sched dflt ndebug Cap fuel need_abort on_settled c w
    = Ret (r, c', w') ->
    member_call c c'
| call_try_send c w cat value ec arg c' w' :
    bounded_channel.try_send ndebug Cap cat value c w = Ret (ec, arg, c', w') ->
    member_call c c'
| call_send c w cat token value r arg c' w' :
    bounded_channel.send dflt ndebug Cap cat token value c w = Ret (r, arg, c', w') ->
    member_call c c'
| call_send_sched c w cat value need_abort on_settled r arg c' w' :
    bounded_channel.send_sched dflt ndebug Cap cat value need_abort on_settled c w
    = Ret (r, arg, c', w') ->
    member_call c c'.

End Sequences.

(** The frame of a suspended call. *)
Definition frame_at {T U : Type} (fid : nat) (w : world T U) : option (frame T) :=
  nth_error (frames w) fid.

(** What [on_cancel] makes of the frame of a suspended call. *)
Definition canceled_frame {T : Type} (fr : frame T) : frame T :=
  mk_frame (fr_value fr) (Some canceled) false true.

(** The state of a [bounded_channel<T, unbounded_capacity>] that
    corresponds to a state of an [unbounded_channel<T>]. *)
Definition as_bounded {T U : Type} (uc : @unbounded_channel.chan T U)
  : @bounded_channel.chan T U :=
  bounded_channel.mk_chan (unbounded_channel.is_closed_ uc)
    (unbounded_channel.buffer_ uc) (unbounded_channel.hanged_recv_tasks uc) [].

(** What [close] makes of the frame of a suspended call. *)
Definition closed_frame {T : Type} (fr : frame T) : frame T :=
  mk_frame (fr_value fr) (Some closed) false true.

(** A frame whose call is still suspended: [done] is locked and
    [task_stop_source] is not stop-requested. *)
Definition armed {T : Type} (fr : frame T) : Prop :=
  fr_done fr = true /\ fr_stop fr = false.

(** ** Receives that [select] schedules *)

(** A channel on which a receive finds nothing to take: it is open, its
    buffer is empty and no sender waits. *)
Definition idle_for_recv {T U : Type} (o : @select_hpp.chan_object T U) : Prop :=
  match o with
  | select_hpp.bounded _ c =>
      bounded_channel.is_closed_ c = false /\
      bounded_channel.buffer_ c = [] /\
      bounded_channel.hanged_send_tasks c = []
  | select_hpp.unbounded c =>
      unbounded_channel.is_closed_ c = false /\
      unbounded_channel.buffer_ c = []
  end.

(** The channel at the position [i] is there and is idle. *)
Definition idle_at {T U : Type} (chans : list (@select_hpp.chan_object T U))
    (i : nat) : Prop :=
  exists o, nth_error chans i = Some o /\ idle_for_recv o.

(** The channel with one more record at the back of its queue of
    receivers. *)
Definition hang_recv {T U : Type} (task : recv_task T U)
    (o : @select_hpp.chan_object T U)
  : @select_hpp.chan_object T U :=
  match o with
  | select_hpp.bounded Cap c =>
      select_hpp.bounded Cap
        (bounded_channel.mk_chan (bounded_channel.is_closed_ c)
           (bounded_channel.buffer_ c)
           (bounded_channel.hanged_recv_tasks c ++ [task])
           (bounded_channel.hanged_send_tasks c))
  | select_hpp.unbounded c =>
      select_hpp.unbounded
        (unbounded_channel.mk_chan (unbounded_channel.is_closed_ c)
           (unbounded_channel.buffer_ c)
           (unbounded_channel.hanged_recv_tasks c ++ [task]))
  end.

(** The operations [recv(chan, on_settle)] for a list of channels (their
    positions) and callbacks. *)
Definition recv_ops {T U : Type}
    (rs : list (nat * (bool -> T -> world T U -> world T U)))
  : list (@select_hpp.op T U) :=
  map (fun r => select_hpp.recv (fst r) (snd r)) rs.

(** The channels after one record for each receive of [rs] was put, in the
    order of [rs], at the back of the queue of receivers of its channel,
    with the abort predicate [need_abort] and the callback of the receive. *)
Fixpoint with_receivers {T U : Type} (need_abort : world T U -> bool * world T U)
    (rs : list (nat * (bool -> T -> world T U -> world T U)))
    (chans : list (@select_hpp.chan_object T U))
  : list (@select_hpp.chan_object T U) :=
  match rs with
  | [] => chans
  | r :: rs' =>
      with_receivers need_abort rs'
        (match nth_error chans (fst r) with
         | Some o => list_set (fst r) (hang_recv (mk_recv_task need_abort (snd r)) o) chans
         | None => chans
         end)
  end.

(** The world in which a [select] without fallback starts to schedule: the
    world [w] with a fresh context, whose position is [length (ctxs w)], and
    the cancellation callback of this context registered on [token]. *)
Definition with_fresh_context {T U : Type} (token : stop_token) (w : world T U)
  : world T U :=
  add_stop_callback token (on_cancel_select (length (ctxs w)))
    (set_ctxs (ctxs w ++ [mk_sched_context false true]) w).

(** ** More concrete runs *)

Module runs.

Import scenario.

(** Waiter records of scheduled calls: aborted ones, and live ones that
    log what their callback is called with. *)
Definition aborted_receiver : recv_task Z log :=
  mk_recv_task (fun w => (true, w)) log_received.

Definition live_receiver : recv_task Z log :=
  mk_recv_task never_abort log_received.

Definition aborted_sender : send_task Z log :=
  mk_send_task (fun w => (true, w)) (fun success dst w => (dst, log_sent success w)).

Definition live_sender (v : Z) : send_task Z log :=
  mk_send_task never_abort
    (fun success dst w => (if success then v else dst, log_sent success w)).

(** A world with the armed frames of two suspended calls. *)
Definition w_two_armed : world Z log :=
  mk_world [mk_frame (Some 5) None true false; mk_frame (Some 6) None true false]
    [] [] [].

(** A world with the context of one [select] that waits. *)
Definition w_selecting : world Z log :=
  mk_world [] [] [mk_sched_context false true] [].

(** The record of a receive that this [select] has registered. *)
Definition gated_receiver : recv_task Z log :=
  mk_recv_task (select_hpp.select_need_abort 0) log_received.

(** The receives of [select(recv(c1), recv(c2, cb), recv(c2, cb))]. *)
Definition recv_thrice : list (nat * (bool -> Z -> world Z log -> world Z log)) :=
  [(0%nat, ignore_received); (1%nat, log_received); (1%nat, log_received)].

End runs.

(** * Properties *)

(** ** The outcome codes *)

Lemma channel_errc_eqb_spec (a b : channel_errc) :
  reflect (a = b) (channel_errc_eqb a b).
Proof. destruct a, b; simpl; constructor; congruence. Qed.

(** ** The outcome monad and the assertions *)

Lemma bind_Ret_inv {A B : Type} (m : outcome A) (k : A -> outcome B) (b : B) :
  bind m k = Ret b -> exists a, m = Ret a /\ k a = Ret b.
Proof. destruct m; simpl; intros H; try discriminate. eauto. Qed.

Lemma assert_Ret_inv {A : Type} (ndebug b : bool) (k : outcome A) (a : A) :
  bounded_channel.assert ndebug b k = Ret a -> k = Ret a.
Proof.
  unfold bounded_channel.assert. destruct (ndebug || b); [auto | discriminate].
Qed.

Lemma assert_pass {A : Type} (ndebug b : bool) (k : outcome A) :
  ndebug || b = true -> bounded_channel.assert ndebug b k = k.
Proof. unfold bounded_channel.assert. intros ->. reflexivity. Qed.

Lemma len_app {A : Type} (l1 l2 : list A) : len (l1 ++ l2) = len l1 + len l2.
Proof. unfold len. rewrite length_app. lia. Qed.

Lemma len_nonneg {A : Type} (l : list A) : 0 <= len l.
Proof. unfold len. lia. Qed.

Lemma len_cons {A : Type} (x : A) (l : list A) : len (x :: l) = len l + 1.
Proof. unfold len. simpl length. lia. Qed.

(** ** Waiter queues only lose records at the front *)

Lemma suffix_of_refl {A : Type} (q : list A) : suffix_of q q.
Proof. exists []. reflexivity. Qed.

Lemma suffix_of_cons {A : Type} (x : A) (q' q : list A) :
  suffix_of q' q -> suffix_of q' (x :: q).
Proof. intros [p ->]. exists (x :: p). reflexivity. Qed.

Lemma suffix_of_nil {A : Type} (q' : list A) : suffix_of q' [] -> q' = [].
Proof.
  intros [p H]. symmetry in H. apply app_eq_nil in H. tauto.
Qed.

Lemma suffix_of_length {A : Type} (q' q : list A) :
  suffix_of q' q -> (length q' <= length q)%nat.
Proof. intros [p ->]. rewrite length_app. lia. Qed.

Create HintDb chan.
#[local] Hint Resolve suffix_of_refl suffix_of_cons : chan.

Section BoundedChannelFacts.

Context {T U : Type}.
Variable dflt : T.
Variable ndebug : bool.
Variable Cap : Z.

Import bounded_channel.

Local Abbreviation chan := (@chan T U).

Lemma prune_recv_tasks_suffix (q : list (recv_task T U)) (w : world T U) :
  suffix_of (fst (prune_recv_tasks q w)) q.
Proof.
  revert w. induction q as [|task q IH]; intros w; simpl.
  - auto with chan.
  - destruct (recv_need_abort task w) as [aborted w1].
    destruct aborted; simpl; auto with chan.
Qed.

Lemma prune_send_tasks_suffix (q : list (send_task T U)) (w : world T U) :
  suffix_of (fst (prune_send_tasks q w)) q.
Proof.
  revert w. induction q as [|task q IH]; intros w; simpl.
  - auto with chan.
  - destruct (send_need_abort task w) as [aborted w1].
    destruct aborted; simpl; auto with chan.
Qed.

(** The refill loop returns only once the queue of senders is empty. *)
Lemma refill_buffer_Ret fuel buf q w buf' sq (w' : world T U) :
  refill_buffer dflt ndebug Cap fuel buf q w = Ret (buf', sq, w') -> sq = [].
Proof.
  revert buf q w. induction fuel as [|fuel IH]; intros buf q w H.
  - destruct q; simpl in H; [congruence | discriminate].
  - destruct q as [|task q]; simpl in H; [congruence|].
    apply assert_Ret_inv in H.
    destruct (send_need_abort task w) as [aborted w1].
    destruct aborted.
    + eapply IH; eauto.
    + destruct (send_execute task true dflt w1) as [v w2]. eapply IH; eauto.
Qed.

Lemma take_from_sender_suffix value buf q w r v sq (w' : world T U) :
  take_from_sender ndebug Cap value buf q w = Ret (r, v, sq, w') -> suffix_of sq q.
Proof.
  revert w. induction q as [|task q IH]; intros w H; simpl in H.
  - inversion H; subst. auto with chan.
  - apply assert_Ret_inv in H.
    destruct (send_need_abort task w) as [aborted w1].
    destruct aborted.
    + eauto with chan.
    + destruct (send_execute task true value w1) as [v2 w2].
      inversion H; subst. auto with chan.
Qed.

Lemma take_from_sender_false value buf q w v sq (w' : world T U) :
  take_from_sender ndebug Cap value buf q w = Ret (false, v, sq, w') ->
  v = value /\ sq = [].
Proof.
  revert w. induction q as [|task q IH]; intros w H; simpl in H.
  - inversion H; subst. auto.
  - apply assert_Ret_inv in H.
    destruct (send_need_abort task w) as [aborted w1].
    destruct aborted.
    + eauto.
    + destruct (send_execute task true value w1) as [v2 w2]. discriminate.
Qed.

Lemma give_to_receiver_suffix cat value buf q w sent arg rq (w' : world T U) :
  give_to_receiver ndebug cat value buf q w = Ret (sent, arg, rq, w') ->
  suffix_of rq q.
Proof.
  revert w. induction q as [|task q IH]; intros w H; simpl in H.
  - inversion H; subst. auto with chan.
  - apply assert_Ret_inv in H.
    destruct (recv_need_abort task w) as [aborted w1].
    destruct aborted.
    + eauto with chan.
    + destruct (forward cat value) as [v a]. inversion H; subst. auto with chan.
Qed.

(** A value that was not handed over is still in the argument, and no
    receiver is left in the queue. *)
Lemma give_to_receiver_false cat value buf q w arg rq (w' : world T U) :
  give_to_receiver ndebug cat value buf q w = Ret (false, arg, rq, w') ->
  arg = Some value /\ rq = [].
Proof.
  revert w. induction q as [|task q IH]; intros w H; simpl in H.
  - inversion H; subst. auto.
  - apply assert_Ret_inv in H.
    destruct (recv_need_abort task w) as [aborted w1].
    destruct aborted.
    + eauto.
    + destruct (forward cat value) as [v a]. discriminate.
Qed.

(** With the assertion satisfied, the loop of [try_send_] always returns. *)
Lemma give_to_receiver_total cat value buf q (w : world T U) :
  ndebug = true \/ buf = [] \/ q = [] ->
  exists sent arg rq w',
    give_to_receiver ndebug cat value buf q w = Ret (sent, arg, rq, w').
Proof.
  intros Hok. revert w. induction q as [|task q IH]; intros w; simpl.
  - eauto.
  - rewrite assert_pass.
    + destruct (recv_need_abort task w) as [aborted w1].
      destruct aborted.
      * apply IH. destruct Hok as [?|[?|?]]; auto; discriminate.
      * destruct (forward cat value) as [v a]. eauto.
    + destruct Hok as [->|[->|?]]; auto using orb_true_r; discriminate.
Qed.

End BoundedChannelFacts.

(** ** The invariant of the reachable states *)

Lemma unbounded_capacity_pos : 0 < unbounded_capacity.
Proof. reflexivity. Qed.

Ltac cap_facts :=
  repeat match goal with
    | H : (_ =? _) = true |- _ => apply Z.eqb_eq in H
    | H : (_ =? _) = false |- _ => apply Z.eqb_neq in H
    end.

(** Closes a goal whose premises about [Cap] contradict each other. *)
Ltac cap_contra :=
  intros; pose proof unbounded_capacity_pos; cap_facts;
  solve [congruence | lia].

Section BoundedChannelInvariant.

Context {T U : Type}.
Variable dflt : T.
Variable ndebug : bool.
Variable Cap : Z.

Import bounded_channel.

Local Abbreviation chan := (@chan T U).
Local Abbreviation chan_inv := (@chan_inv T U Cap).

Lemma make_chan_inv : chan_inv make_chan.
Proof. repeat split; auto. Qed.

Lemma size_inv (c : chan) w n c' w' :
  chan_inv c -> size Cap c w = (n, c', w') -> chan_inv c'.
Proof.
  intros (H1 & H2 & H3) H. unfold size in H.
  pose proof (prune_recv_tasks_suffix (hanged_recv_tasks c) w) as Hr.
  destruct (prune_recv_tasks (hanged_recv_tasks c) w) as [rq w1].
  assert (Hrq : buffer_ c = [] \/ rq = []).
  { destruct H1 as [?|H1]; auto. right. simpl in Hr. rewrite H1 in Hr.
    apply suffix_of_nil in Hr. exact Hr. }
  destruct (Cap =? unbounded_capacity) eqn:E; simpl in H.
  - inversion H; subst; clear H. repeat split; simpl; auto.
  - destruct (prune_send_tasks (hanged_send_tasks c) w1) as [sq w2].
    inversion H; subst; clear H. repeat split; simpl; auto; cap_contra.
Qed.

Lemma close_inv (c : chan) w c' w' :
  chan_inv c -> close dflt Cap c w = (c', w') -> chan_inv c'.
Proof.
  intros (H1 & H2 & H3) H. unfold close in H.
  destruct (Cap =? unbounded_capacity) eqn:E; simpl in H;
    inversion H; subst; clear H; repeat split; simpl; auto.
Qed.

Lemma try_recv__inv fuel value (c : chan) w r v c' w' :
  chan_inv c ->
  try_recv_ dflt ndebug Cap fuel value c w = Ret (r, v, c', w') ->
  chan_inv c' /\ (r = false -> buffer_ c' = []).
Proof.
  intros (H1 & H2 & H3) H. unfold try_recv_ in H.
  apply assert_Ret_inv in H.
  destruct (Cap =? 0) eqn:E0; simpl in H.
  - apply Z.eqb_eq in E0.
    destruct (Cap =? unbounded_capacity) eqn:Eu; simpl in H.
    + cap_contra.
    + destruct (hanged_send_tasks c) as [|t q] eqn:Eq.
      * inversion H; subst. repeat split; auto.
      * apply assert_Ret_inv in H. apply bind_Ret_inv in H.
        destruct H as ([[[r1 v1] sq] w1] & Ht & H). inversion H; subst; clear H.
        repeat split; simpl; auto; cap_contra.
  - destruct (buffer_ c) as [|front buf] eqn:Eb.
    + destruct (Cap =? unbounded_capacity) eqn:Eu; simpl in H.
      * inversion H; subst. repeat split; auto.
      * destruct (hanged_send_tasks c) as [|t q] eqn:Eq.
        -- inversion H; subst. repeat split; auto.
        -- apply assert_Ret_inv in H. apply bind_Ret_inv in H.
           destruct H as ([[[r1 v1] sq] w1] & Ht & H). inversion H; subst; clear H.
           repeat split; simpl; auto; cap_contra.
    + destruct H1 as [H1|H1]; [discriminate|].
      apply assert_Ret_inv in H.
      destruct (Cap =? unbounded_capacity) eqn:Eu; simpl in H.
      * inversion H; subst; clear H. split; [|discriminate].
        repeat split; simpl; auto; cap_contra.
      * apply bind_Ret_inv in H.
        destruct H as ([[buf' sq] w1] & Hr & H). inversion H; subst; clear H.
        split; [|discriminate].
        repeat split; simpl; auto; cap_contra.
Qed.

Lemma try_send__inv cat value (c : chan) w r arg c' w' :
  chan_inv c ->
  try_send_ ndebug Cap cat value c w = Ret (r, arg, c', w') ->
  chan_inv c'.
Proof.
  intros (H1 & H2 & H3) H. unfold try_send_ in H.
  apply assert_Ret_inv in H. apply bind_Ret_inv in H.
  destruct H as ([[[sent a] rq] w1] & Hg & H).
  pose proof (give_to_receiver_suffix _ _ _ _ _ _ _ _ _ _ Hg) as Hs.
  assert (Hrq : buffer_ c = [] \/ rq = []).
  { destruct H1 as [?|H1]; auto. right. rewrite H1 in Hs.
    apply suffix_of_nil in Hs. exact Hs. }
  destruct sent.
  - inversion H; subst; clear H. repeat split; simpl; auto.
  - apply give_to_receiver_false in Hg. destruct Hg as [-> ->].
    destruct (Cap =? 0) eqn:E0.
    + inversion H; subst; clear H. repeat split; simpl; auto.
    + destruct (negb (Cap =? unbounded_capacity) && (len (buffer_ c) >=? Cap)).
      * inversion H; subst; clear H. repeat split; simpl; auto.
      * destruct (forward cat value) as [v a'].
        inversion H; subst; clear H. repeat split; simpl; auto; cap_contra.
Qed.

Lemma try_recv_inv fuel value (c : chan) w ec v c' w' :
  chan_inv c ->
  try_recv dflt ndebug Cap fuel value c w = Ret (ec, v, c', w') -> chan_inv c'.
Proof.
  intros Hi H. unfold try_recv in H. destruct (is_closed_ c).
  - inversion H; subst. exact Hi.
  - apply bind_Ret_inv in H. destruct H as ([[[r v1] c1] w1] & Ht & H).
    inversion H; subst. eapply try_recv__inv; eauto.
Qed.

Lemma recv_inv fuel token value (c : chan) w r v c' w' :
  chan_inv c ->
  recv dflt ndebug Cap fuel token value c w = Ret (r, v, c', w') -> chan_inv c'.
Proof.
  intros Hi H. unfold recv in H.
  destruct (stop_requested w token); [inversion H; subst; exact Hi|].
  destruct (is_closed_ c); [inversion H; subst; exact Hi|].
  apply bind_Ret_inv in H. destruct H as ([[[r1 v1] c1] w1] & Ht & H).
  destruct (try_recv__inv _ _ _ _ _ _ _ _ Hi Ht) as [(I1 & I2 & I3) Hf].
  destruct r1.
  - inversion H; subst. repeat split; auto.
  - unfold new_frame in H. inversion H; subst; clear H.
    repeat split; simpl; auto.
Qed.

Lemma recv_sched_inv fuel need_abort on_settled (c : chan) w r c' w' :
  chan_inv c ->
  recv_sched dflt ndebug Cap fuel need_abort on_settled c w = Ret (r, c', w') ->
  chan_inv c'.
Proof.
  intros Hi H. unfold recv_sched in H.
  destruct (is_closed_ c); [inversion H; subst; exact Hi|].
  apply bind_Ret_inv in H. destruct H as ([[[r1 v1] c1] w1] & Ht & H).
  destruct (try_recv__inv _ _ _ _ _ _ _ _ Hi Ht) as [(I1 & I2 & I3) Hf].
  destruct r1; inversion H; subst; clear H; repeat split; simpl; auto.
Qed.

Lemma try_send_inv cat value (c : chan) w ec arg c' w' :
  chan_inv c ->
  try_send ndebug Cap cat value c w = Ret (ec, arg, c', w') -> chan_inv c'.
Proof.
  intros Hi H. unfold try_send in H.
  destruct (is_closed_ c); [inversion H; subst; exact Hi|].
  destruct (Cap =? unbounded_capacity);
    apply bind_Ret_inv in H; destruct H as ([[[r1 a1] c1] w1] & Ht & H);
    inversion H; subst; eapply try_send__inv; eauto.
Qed.

Lemma send_inv cat token value (c : chan) w r arg c' w' :
  chan_inv c ->
  send dflt ndebug Cap cat token value c w = Ret (r, arg, c', w') -> chan_inv c'.
Proof.
  intros Hi H. unfold send in H.
  destruct (stop_requested w token); [inversion H; subst; exact Hi|].
  destruct (is_closed_ c); [inversion H; subst; exact Hi|].
  destruct (Cap =? unbounded_capacity) eqn:Eu;
    apply bind_Ret_inv in H; destruct H as ([[[r1 a1] c1] w1] & Ht & H);
    pose proof (try_send__inv _ _ _ _ _ _ _ _ Hi Ht) as (I1 & I2 & I3).
  - inversion H; subst. repeat split; auto.
  - destruct r1.
    + inversion H; subst. repeat split; auto.
    + unfold new_frame in H. inversion H; subst; clear H.
      repeat split; simpl; auto; cap_contra.
Qed.

Lemma send_sched_inv cat value need_abort on_settled (c : chan) w r arg c' w' :
  chan_inv c ->
  send_sched dflt ndebug Cap cat value need_abort on_settled c w = Ret (r, arg, c', w') ->
  chan_inv c'.
Proof.
  intros Hi H. unfold send_sched in H.
  destruct (is_closed_ c); [inversion H; subst; exact Hi|].
  destruct (Cap =? unbounded_capacity) eqn:Eu.
  - apply bind_Ret_inv in H; destruct H as ([[[r1 a1] c1] w1] & Ht & H).
    inversion H; subst. eapply try_send__inv; eauto.
  - destruct (Cap =? 0) eqn:E0.
    + apply bind_Ret_inv in H; destruct H as ([[[r1 a1] c1] w1] & Ht & H).
      pose proof (try_send__inv _ _ _ _ _ _ _ _ Hi Ht) as (I1 & I2 & I3).
      destruct r1.
      * inversion H; subst. repeat split; auto.
      * unfold register_send_sched, new_frame in H. inversion H; subst; clear H.
        repeat split; simpl; auto; cap_contra.
    + destruct Hi as (I1 & I2 & I3).
      unfold register_send_sched, new_frame in H. inversion H; subst; clear H.
      repeat split; simpl; auto; cap_contra.
Qed.

(** Every reachable state satisfies the invariant. *)
Lemma reachable_inv (c : chan) :
  reachable dflt ndebug Cap c -> chan_inv c.
Proof.
  induction 1;
    eauto using make_chan_inv, size_inv, close_inv, try_recv_inv, recv_inv,
      recv_sched_inv, try_send_inv, send_inv, send_sched_inv.
Qed.

End BoundedChannelInvariant.

Section UnboundedChannelInvariant.

Context {T U : Type}.
Variable dflt : T.
Variable ndebug : bool.

Import unbounded_channel.

Local Abbreviation chan := (@chan T U).

Lemma unbounded_try_recv__inv value (c : chan) r v c' :
  chan_inv c -> try_recv_ value c = (r, v, c') ->
  chan_inv c' /\ (r = false -> buffer_ c' = []).
Proof.
  intros Hi H. unfold try_recv_ in H.
  destruct (buffer_ c) as [|front buf] eqn:Eb; inversion H; subst; clear H.
  - auto.
  - split; [|discriminate]. destruct Hi as [Hi|Hi]; [congruence|].
    right. exact Hi.
Qed.

Lemma unbounded_try_send__inv cat value (c : chan) w r arg c' w' :
  chan_inv c -> try_send_ ndebug cat value c w = Ret (r, arg, c', w') ->
  chan_inv c'.
Proof.
  intros Hi H. unfold try_send_ in H.
  apply assert_Ret_inv in H. apply bind_Ret_inv in H.
  destruct H as ([[[sent a] rq] w1] & Hg & H).
  pose proof (give_to_receiver_suffix _ _ _ _ _ _ _ _ _ _ Hg) as Hs.
  destruct sent.
  - inversion H; subst; clear H. destruct Hi as [Hi|Hi]; [left; exact Hi|].
    right. simpl. rewrite Hi in Hs. apply suffix_of_nil in Hs. exact Hs.
  - apply give_to_receiver_false in Hg. destruct Hg as [-> ->].
    destruct (forward cat value) as [v a']. inversion H; subst. right. reflexivity.
Qed.

Lemma unbounded_reachable_inv (c : chan) :
  reachable dflt ndebug c -> chan_inv c.
Proof.
  induction 1 as
    [ | c w n c' w' _ IH H | c w c' w' _ IH H | c w value ec v c' w' _ IH H
    | c w token value r v c' w' _ IH H | c w na os r c' w' _ IH H
    | c w cat value ec arg c' w' _ IH H | c w cat token value ec arg c' w' _ IH H
    | c w cat value na os arg c' w' _ IH H ].
  - left. reflexivity.
  - unfold size in H.
    pose proof (prune_recv_tasks_suffix (hanged_recv_tasks c) w) as Hs.
    destruct (bounded_channel.prune_recv_tasks (hanged_recv_tasks c) w) as [rq w1].
    inversion H; subst; clear H. destruct IH as [IH|IH]; [left; exact IH|].
    right. simpl in *. rewrite IH in Hs. apply suffix_of_nil in Hs. exact Hs.
  - unfold close in H. inversion H; subst. right. reflexivity.
  - unfold try_recv in H. destruct (is_closed_ c); [inversion H; subst; exact IH|].
    destruct (try_recv_ value c) as [[r1 v1] c1] eqn:Et.
    inversion H; subst. eapply unbounded_try_recv__inv; eauto.
  - unfold recv in H.
    destruct (stop_requested w token); [inversion H; subst; exact IH|].
    destruct (is_closed_ c); [inversion H; subst; exact IH|].
    destruct (try_recv_ value c) as [[r1 v1] c1] eqn:Et.
    destruct (unbounded_try_recv__inv _ _ _ _ _ IH Et) as [Hi Hf].
    destruct r1.
    + inversion H; subst. exact Hi.
    + unfold new_frame in H. inversion H; subst. left. simpl. auto.
  - unfold recv_sched in H. destruct (is_closed_ c); [inversion H; subst; exact IH|].
    destruct (try_recv_ dflt c) as [[r1 v1] c1] eqn:Et.
    destruct (unbounded_try_recv__inv _ _ _ _ _ IH Et) as [Hi Hf].
    destruct r1; inversion H; subst; [exact Hi|]. left. simpl. auto.
  - unfold try_send in H. destruct (is_closed_ c); [inversion H; subst; exact IH|].
    apply bind_Ret_inv in H. destruct H as ([[[r1 a1] c1] w1] & Ht & H).
    inversion H; subst. eapply unbounded_try_send__inv; eauto.
  - unfold send in H.
    destruct (stop_requested w token); [inversion H; subst; exact IH|].
    destruct (is_closed_ c); [inversion H; subst; exact IH|].
    apply bind_Ret_inv in H. destruct H as ([[[r1 a1] c1] w1] & Ht & H).
    inversion H; subst. eapply unbounded_try_send__inv; eauto.
  - unfold send_sched in H. destruct (is_closed_ c); [inversion H; subst; exact IH|].
    apply bind_Ret_inv in H. destruct H as ([[[r1 a1] c1] w1] & Ht & H).
    inversion H; subst. eapply unbounded_try_send__inv; eauto.
Qed.

End UnboundedChannelInvariant.

(** ** Closed channels, cancellation and refused sends *)

Section ReturnCodes.

Context {T U : Type}.
Variable dflt : T.
Variable ndebug : bool.

(** C7: a blocking [recv] or [send] whose token is already stop-requested
    returns [canceled] and transfers nothing: the out-parameter keeps its
    content, the value to send is still in the argument, and the channel
    (buffer and both waiter queues) and the world are as before.  This holds
    for both channel classes. *)
Theorem canceled_before_start_transfers_nothing
    (Cap : Z) (fuel : nat) (cat : value_category) (token : stop_token) (value : T)
    (c : @bounded_channel.chan T U) (uc : @unbounded_channel.chan T U)
    (w : world T U) :
  stop_requested w token = true ->
  bounded_channel.recv dflt ndebug Cap fuel token value c w
    = Ret (bounded_channel.Done canceled, value, c, w) /\
  bounded_channel.send dflt ndebug Cap cat token value c w
    = Ret (bounded_channel.Done canceled, Some value, c, w) /\
  unbounded_channel.recv token value uc w
    = (bounded_channel.Done canceled, value, uc, w) /\
  unbounded_channel.send ndebug cat token value uc w
    = Ret (canceled, Some value, uc, w).
Proof.
  intros Hstop.
  unfold bounded_channel.recv, bounded_channel.send,
    unbounded_channel.recv, unbounded_channel.send.
  rewrite Hstop. auto.
Qed.

(** C9: on a channel that is closed, a blocking [recv] or [send] whose token
    is already stop-requested returns [canceled], not [closed]: the token is
    tested before the closed flag (with a token that is not stop-requested the
    same calls return [closed]). *)
Theorem canceled_takes_precedence_over_closed
    (Cap : Z) (fuel : nat) (cat : value_category) (token : stop_token) (value : T)
    (c : @bounded_channel.chan T U) (w : world T U) :
  bounded_channel.is_closed_ c = true ->
  stop_requested w token = true ->
  bounded_channel.recv dflt ndebug Cap fuel token value c w
    = Ret (bounded_channel.Done canceled, value, c, w) /\
  bounded_channel.send dflt ndebug Cap cat token value c w
    = Ret (bounded_channel.Done canceled, Some value, c, w) /\
  bounded_channel.recv dflt ndebug Cap fuel None value c w
    = Ret (bounded_channel.Done closed, value, c, w) /\
  bounded_channel.send dflt ndebug Cap cat None value c w
    = Ret (bounded_channel.Done closed, Some value, c, w).
Proof.
  intros Hclosed Hstop.
  unfold bounded_channel.recv, bounded_channel.send.
  rewrite Hstop, Hclosed. simpl. auto.
Qed.

(** C10: when [try_send] returns a code other than [ok], the buffer of the
    channel is as before and the value is still in the argument. *)
Theorem refused_try_send_keeps_buffer_and_value
    (Cap : Z) (cat : value_category) (value : T)
    (c c' : @bounded_channel.chan T U) (w w' : world T U)
    (ec : channel_errc) (arg : option T) :
  bounded_channel.try_send ndebug Cap cat value c w = Ret (ec, arg, c', w') ->
  ec <> ok ->
  (ec = closed \/ ec = exhausted) /\
  bounded_channel.buffer_ c' = bounded_channel.buffer_ c /\
  arg = Some value.
Proof.
  intros H Hec. unfold bounded_channel.try_send in H.
  destruct (bounded_channel.is_closed_ c).
  { inversion H; subst. auto. }
  destruct (Cap =? unbounded_capacity).
  { apply bind_Ret_inv in H. destruct H as ([[[r a] c1] w1] & _ & H).
    inversion H; subst. congruence. }
  apply bind_Ret_inv in H. destruct H as ([[[r a] c1] w1] & Ht & H).
  destruct r; inversion H; subst; clear H; [congruence|].
  split; [auto|].
  unfold bounded_channel.try_send_ in Ht.
  apply assert_Ret_inv in Ht. apply bind_Ret_inv in Ht.
  destruct Ht as ([[[sent a] rq] w1] & Hg & Ht).
  destruct sent; [inversion Ht|].
  apply give_to_receiver_false in Hg. destruct Hg as [-> ->].
  destruct (Cap =? 0); [inversion Ht; subst; auto|].
  destruct (negb (Cap =? unbounded_capacity)
            && (len (bounded_channel.buffer_ c) >=? Cap));
    [inversion Ht; subst; auto|].
  destruct (forward cat value). inversion Ht.
Qed.

(** C6: on an unbounded channel, in every state the object can reach,
    [try_send] returns [ok] when the channel is open, never [exhausted], and
    [closed] when it is closed; this holds for [bounded_channel] with
    [Cap = unbounded_capacity] and for the class [unbounded_channel]. *)
Theorem unbounded_try_send_ok_unless_closed
    (cat : value_category) (value : T)
    (c : @bounded_channel.chan T U) (uc : @unbounded_channel.chan T U)
    (w : world T U) :
  bounded_channel.reachable dflt ndebug unbounded_capacity c ->
  unbounded_channel.reachable dflt ndebug uc ->
  (exists arg c' w',
     bounded_channel.try_send ndebug unbounded_capacity cat value c w
       = Ret (if bounded_channel.is_closed_ c then closed else ok, arg, c', w')) /\
  (exists arg uc' w',
     unbounded_channel.try_send ndebug cat value uc w
       = Ret (if unbounded_channel.is_closed_ uc then closed else ok, arg, uc', w')).
Proof.
  intros Hc Huc.
  apply reachable_inv in Hc. destruct Hc as (H1 & _ & _).
  apply unbounded_reachable_inv in Huc. unfold unbounded_channel.chan_inv in Huc.
  split.
  - unfold bounded_channel.try_send.
    destruct (bounded_channel.is_closed_ c) eqn:Ecl; [eauto|].
    change (unbounded_capacity =? unbounded_capacity) with true. cbv iota.
    unfold bounded_channel.try_send_. rewrite Ecl.
    rewrite assert_pass by apply orb_true_r.
    destruct (give_to_receiver_total ndebug cat value (bounded_channel.buffer_ c)
                (bounded_channel.hanged_recv_tasks c) w)
      as (sent & arg & rq & w1 & Hg); [tauto|].
    rewrite Hg. simpl. destruct sent; simpl; [eauto|].
    change (unbounded_capacity =? 0) with false. cbv iota.
    change (negb (unbounded_capacity =? unbounded_capacity)) with false.
    simpl. destruct (forward cat value). simpl. eauto.
  - unfold unbounded_channel.try_send.
    destruct (unbounded_channel.is_closed_ uc) eqn:Ecl; [eauto|].
    unfold unbounded_channel.try_send_. rewrite Ecl.
    rewrite assert_pass by apply orb_true_r.
    destruct (give_to_receiver_total ndebug cat value (unbounded_channel.buffer_ uc)
                (unbounded_channel.hanged_recv_tasks uc) w)
      as (sent & arg & rq & w1 & Hg); [tauto|].
    rewrite Hg. simpl. destruct sent; simpl; [eauto|].
    destruct (forward cat value). simpl. eauto.
Qed.

(** C8: in every reachable state, [close] sets the closed flag and leaves
    both waiter queues empty, so that a second [close] finds no waiter, calls
    no callback and changes neither the channel nor the world. *)
Theorem close_twice_is_close_once
    (Cap : Z) (c c1 : @bounded_channel.chan T U) (w w1 : world T U) :
  bounded_channel.reachable dflt ndebug Cap c ->
  bounded_channel.close dflt Cap c w = (c1, w1) ->
  bounded_channel.is_closed_ c1 = true /\
  bounded_channel.hanged_recv_tasks c1 = [] /\
  bounded_channel.hanged_send_tasks c1 = [] /\
  bounded_channel.close dflt Cap c1 w1 = (c1, w1).
Proof.
  intros Hc H. apply reachable_inv in Hc. destruct Hc as (_ & _ & H3).
  unfold bounded_channel.close in H.
  destruct (Cap =? unbounded_capacity) eqn:Eu; simpl in H;
    inversion H; subst; clear H; unfold bounded_channel.close; rewrite Eu; simpl.
  - apply Z.eqb_eq in Eu. rewrite (H3 Eu). auto.
  - auto.
Qed.

End ReturnCodes.

(** ** Receives and sends after [close] *)

Section ClosedChannel.

Context {T U : Type}.
Variable dflt : T.
Variable ndebug : bool.

(** C3 (amended): [close] keeps the buffered values in the buffer, and from
    then on every receive ([try_recv], and [recv] with a token that is not
    stop-requested) returns [closed] at once, whatever the buffer holds: the
    out-parameter is not written and the buffer is not drained.  Every send
    returns [closed] and keeps its value.  This holds for both channel
    classes. *)
Theorem closed_channel_refuses_receives_and_sends
    (Cap : Z) (fuel : nat) (cat : value_category) (token : stop_token) (value : T)
    (c c1 : @bounded_channel.chan T U) (uc uc1 : @unbounded_channel.chan T U)
    (w w1 w2 w' : world T U) :
  bounded_channel.close dflt Cap c w = (c1, w1) ->
  unbounded_channel.close dflt uc w = (uc1, w2) ->
  stop_requested w' token = false ->
  (bounded_channel.buffer_ c1 = bounded_channel.buffer_ c /\
   bounded_channel.try_recv dflt ndebug Cap fuel value c1 w'
     = Ret (closed, value, c1, w') /\
   bounded_channel.recv dflt ndebug Cap fuel token value c1 w'
     = Ret (bounded_channel.Done closed, value, c1, w') /\
   bounded_channel.try_send ndebug Cap cat value c1 w'
     = Ret (closed, Some value, c1, w') /\
   bounded_channel.send dflt ndebug Cap cat token value c1 w'
     = Ret (bounded_channel.Done closed, Some value, c1, w')) /\
  (unbounded_channel.buffer_ uc1 = unbounded_channel.buffer_ uc /\
   unbounded_channel.try_recv value uc1 w' = (closed, value, uc1, w') /\
   unbounded_channel.recv token value uc1 w'
     = (bounded_channel.Done closed, value, uc1, w') /\
   unbounded_channel.try_send ndebug cat value uc1 w'
     = Ret (closed, Some value, uc1, w') /\
   unbounded_channel.send ndebug cat token value uc1 w'
     = Ret (closed, Some value, uc1, w')).
Proof.
  intros Hc Huc Hstop. split.
  - assert (Hcl : bounded_channel.is_closed_ c1 = true
                  /\ bounded_channel.buffer_ c1 = bounded_channel.buffer_ c).
    { unfold bounded_channel.close in Hc.
      destruct (negb (Cap =? unbounded_capacity)); inversion Hc; subst; auto. }
    destruct Hcl as [Hcl Hbuf].
    unfold bounded_channel.try_recv, bounded_channel.recv,
      bounded_channel.try_send, bounded_channel.send.
    rewrite Hstop, Hcl. auto.
  - unfold unbounded_channel.close in Huc. inversion Huc; subst; clear Huc.
    unfold unbounded_channel.try_recv, unbounded_channel.recv,
      unbounded_channel.try_send, unbounded_channel.send.
    rewrite Hstop. simpl. auto.
Qed.

End ClosedChannel.

(** ** The value of [size()] *)

Lemma size_arithmetic (b s r : Z) :
  0 <= b -> 0 <= s -> 0 <= r -> b + s < 2 ^ 63 -> r <= 2 ^ 63 ->
  to_intmax (wrap_size_t (wrap_size_t (b + s) - r)) = b + s - r.
Proof.
  intros Hb Hs Hr Hbs Hr'.
  unfold to_intmax, wrap_size_t, size_t_modulus.
  change (2 ^ 63) with 9223372036854775808 in *.
  change (2 ^ 64) with 18446744073709551616.
  rewrite (Z.mod_small (b + s)) by lia.
  destruct (Z_lt_le_dec (b + s - r) 0) as [Hneg|Hpos].
  - replace ((b + s - r) mod 18446744073709551616)
      with (b + s - r + 18446744073709551616).
    + destruct (Z.ltb_spec (b + s - r + 18446744073709551616) 9223372036854775808); lia.
    + apply Z.mod_unique with (q := -1); lia.
  - rewrite Z.mod_small by lia.
    destruct (Z.ltb_spec (b + s - r) 9223372036854775808); lia.
Qed.

Lemma size_arithmetic_no_senders (b r : Z) :
  0 <= b -> 0 <= r -> b < 2 ^ 63 -> r <= 2 ^ 63 ->
  to_intmax (wrap_size_t (b - r)) = b - r.
Proof.
  intros Hb Hr Hb' Hr'.
  pose proof (size_arithmetic b 0 r Hb (Z.le_refl 0) Hr) as H.
  rewrite Z.add_0_r in H. specialize (H Hb' Hr').
  replace (wrap_size_t b) with b in H; [exact H|].
  unfold wrap_size_t, size_t_modulus.
  change (2 ^ 63) with 9223372036854775808 in *.
  change (2 ^ 64) with 18446744073709551616.
  rewrite Z.mod_small by lia. reflexivity.
Qed.

Lemma drop_while_length {A : Type} (p : A -> bool) (l : list A) :
  0 <= len (drop_while p l) <= len l.
Proof.
  induction l as [|x l IH]; simpl.
  - unfold len. simpl. lia.
  - destruct (p x).
    + rewrite len_cons. lia.
    + rewrite len_cons. pose proof (len_nonneg l). lia.
Qed.

(** A queue holds its live records and its aborted ones. *)
Lemma len_live_and_stale {A : Type} (p : A -> bool) (l : list A) :
  len l = len (filter (fun x => negb (p x)) l) + len (filter p l).
Proof.
  induction l as [|x l IH]; cbn [filter].
  - reflexivity.
  - destruct (p x); cbn [negb]; rewrite !len_cons; lia.
Qed.

(** Dropping the aborted front of a queue drops no live record. *)
Lemma filter_live_drop_while {A : Type} (p : A -> bool) (l : list A) :
  filter (fun x => negb (p x)) (drop_while p l) = filter (fun x => negb (p x)) l.
Proof.
  induction l as [|x l IH]; simpl.
  - reflexivity.
  - destruct (p x) eqn:E; simpl.
    + exact IH.
    + rewrite E. reflexivity.
Qed.

Lemma filter_none_stale {A : Type} (p : A -> bool) (l : list A) :
  Forall (fun x => p x = false) l -> filter p l = [].
Proof.
  induction 1 as [|x l Hx _ IH]; simpl.
  - reflexivity.
  - rewrite Hx. exact IH.
Qed.

Section SizeOfChannel.

Context {T U : Type}.

Lemma read_only_recv_quiet (task : recv_task T U) :
  read_only_recv task -> quiet_recv task.
Proof. intros H w _. apply H. Qed.

Lemma read_only_send_quiet (task : send_task T U) :
  read_only_send task -> quiet_send task.
Proof. intros H w _. apply H. Qed.

(** The abort predicates of the library change nothing when they answer
    that the record is aborted: the ones of the blocking calls and of the
    overloads with a token only read, the one of [select] changes its context
    only when it answers that the record is live. *)
Lemma blocked_recv_task_quiet (fid : nat) :
  quiet_recv (@bounded_channel.blocked_recv_task T U fid).
Proof. intros w _. reflexivity. Qed.

Lemma blocked_send_task_quiet (dflt : T) (cat : value_category) (fid : nat) :
  quiet_send (@bounded_channel.blocked_send_task T U dflt cat fid).
Proof. intros w _. reflexivity. Qed.

Lemma token_need_abort_quiet (token : stop_token)
    (on_settled : bool -> T -> world T U -> world T U) :
  quiet_recv (mk_recv_task (chan_hpp.token_need_abort token) on_settled).
Proof. intros w _. reflexivity. Qed.

Lemma select_need_abort_quiet (cid : nat) (w : world T U) :
  fst (select_hpp.select_need_abort cid w) = true ->
  snd (select_hpp.select_need_abort cid w) = w.
Proof.
  unfold select_hpp.select_need_abort.
  destruct (nth_error (ctxs w) cid) as [c|]; [|reflexivity].
  destruct (is_done c); [reflexivity | discriminate].
Qed.

Lemma select_gate_quiet (cid : nat) (on_settled : bool -> T -> world T U -> world T U) :
  quiet_recv (mk_recv_task (select_hpp.select_need_abort cid) on_settled).
Proof. intros w. apply select_need_abort_quiet. Qed.

Lemma select_gate_quiet_send (dflt : T) (cat : value_category) (cid fid : nat)
    (on_settled : bool -> world T U -> world T U) :
  quiet_send (bounded_channel.sched_send_task dflt cat fid
                (select_hpp.select_need_abort cid) on_settled).
Proof. intros w. apply select_need_abort_quiet. Qed.

Lemma prune_recv_tasks_quiet (q : list (recv_task T U)) (w : world T U) :
  Forall quiet_recv q ->
  bounded_channel.prune_recv_tasks q w
  = (drop_while (aborted_recv w) q, asked_recv (drop_while (aborted_recv w) q) w).
Proof.
  induction 1 as [|task q Hq _ IH]; simpl.
  - reflexivity.
  - specialize (Hq w). unfold aborted_recv in *.
    destruct (recv_need_abort task w) as [aborted w1] eqn:E. simpl in *.
    destruct aborted; simpl.
    + rewrite (Hq eq_refl). exact IH.
    + rewrite E. reflexivity.
Qed.

Lemma prune_send_tasks_quiet (q : list (send_task T U)) (w : world T U) :
  Forall quiet_send q ->
  bounded_channel.prune_send_tasks q w
  = (drop_while (aborted_send w) q, asked_send (drop_while (aborted_send w) q) w).
Proof.
  induction 1 as [|task q Hq _ IH]; simpl.
  - reflexivity.
  - specialize (Hq w). unfold aborted_send in *.
    destruct (send_need_abort task w) as [aborted w1] eqn:E. simpl in *.
    destruct aborted; simpl.
    + rewrite (Hq eq_refl). exact IH.
    + rewrite E. reflexivity.
Qed.

(** C4 (amended): with queues that fit in [std::intmax_t] and abort
    predicates that change nothing when they answer that their record is
    aborted (the token tests of the blocking calls and the abort predicate of
    [select]), [size()] pops the aborted records at the front of the queue of
    receivers and then, unless the capacity is unbounded, of the queue of
    senders, asks in each queue the first record that is left, and returns
    [len(buffer) + len(send queue) - len(recv queue)] of what is left.
    Aborted records at the front are not counted; an aborted record behind a
    live one is still counted.  So the value is
    [len(buffer) + live(send_waiters) - live(recv_waiters)] plus the number
    of aborted records left in the queue of senders minus the number of
    aborted records left in the queue of receivers: it is the value of the
    formula exactly when these two numbers are equal, and so when no aborted
    record is left.  The receivers are judged in the world in which [size()]
    is called, the senders in the world in which the first receiver left has
    answered.  For the class [unbounded_channel] the same holds without a
    queue of senders. *)
Theorem size_counts_what_follows_the_aborted_front
    (Cap : Z) (c : @bounded_channel.chan T U) (uc : @unbounded_channel.chan T U)
    (w : world T U) :
  Forall quiet_recv (bounded_channel.hanged_recv_tasks c) ->
  Forall quiet_send (bounded_channel.hanged_send_tasks c) ->
  len (bounded_channel.buffer_ c) + len (bounded_channel.hanged_send_tasks c) < 2 ^ 63 ->
  len (bounded_channel.hanged_recv_tasks c) <= 2 ^ 63 ->
  Forall quiet_recv (unbounded_channel.hanged_recv_tasks uc) ->
  len (unbounded_channel.buffer_ uc) < 2 ^ 63 ->
  len (unbounded_channel.hanged_recv_tasks uc) <= 2 ^ 63 ->
  let rq := drop_while (aborted_recv w) (bounded_channel.hanged_recv_tasks c) in
  let w1 := asked_recv rq w in
  let sq :=
    if Cap =? unbounded_capacity then bounded_channel.hanged_send_tasks c
    else drop_while (aborted_send w1) (bounded_channel.hanged_send_tasks c) in
  let w2 := if Cap =? unbounded_capacity then w1 else asked_send sq w1 in
  let n := len (bounded_channel.buffer_ c) + len sq - len rq in
  let formula :=
    len (bounded_channel.buffer_ c)
    + live_send w1 (bounded_channel.hanged_send_tasks c)
    - live_recv w (bounded_channel.hanged_recv_tasks c) in
  let urq := drop_while (aborted_recv w) (unbounded_channel.hanged_recv_tasks uc) in
  let un := len (unbounded_channel.buffer_ uc) - len urq in
  let uformula :=
    len (unbounded_channel.buffer_ uc)
    - live_recv w (unbounded_channel.hanged_recv_tasks uc) in
  bounded_channel.size Cap c w
    = (n,
       bounded_channel.mk_chan (bounded_channel.is_closed_ c)
         (bounded_channel.buffer_ c) rq sq,
       w2) /\
  n = formula + stale_send w1 sq - stale_recv w rq /\
  (n = formula <-> stale_send w1 sq = stale_recv w rq) /\
  (Forall (fun task => aborted_recv w task = false) rq ->
   Forall (fun task => aborted_send w1 task = false) sq ->
   n = formula) /\
  unbounded_channel.size uc w
    = (un,
       unbounded_channel.mk_chan (unbounded_channel.is_closed_ uc)
         (unbounded_channel.buffer_ uc) urq,
       asked_recv urq w) /\
  un = uformula - stale_recv w urq /\
  (un = uformula <-> stale_recv w urq = 0) /\
  (Forall (fun task => aborted_recv w task = false) urq -> un = uformula).
Proof.
  intros Hr Hs Hbs Hrl Hur Hub Hurl rq w1 sq w2 n formula urq un uformula.
  pose proof (len_nonneg (bounded_channel.buffer_ c)) as Hb0.
  pose proof (len_nonneg (bounded_channel.hanged_send_tasks c)) as Hs0.
  pose proof (drop_while_length (aborted_recv w) (bounded_channel.hanged_recv_tasks c))
    as Hrq.
  pose proof (drop_while_length (aborted_send w1) (bounded_channel.hanged_send_tasks c))
    as Hsq.
  pose proof (drop_while_length (aborted_recv w) (unbounded_channel.hanged_recv_tasks uc))
    as Hurq.
  pose proof (len_nonneg (unbounded_channel.buffer_ uc)) as Hub0.
  assert (Hn : n = formula + stale_send w1 sq - stale_recv w rq).
  { unfold n, formula, live_send, live_recv, stale_send, stale_recv.
    rewrite (len_live_and_stale (aborted_recv w) rq).
    rewrite (len_live_and_stale (aborted_send w1) sq).
    unfold rq. rewrite filter_live_drop_while.
    unfold sq. destruct (Cap =? unbounded_capacity).
    - lia.
    - rewrite filter_live_drop_while. lia. }
  assert (Hun : un = uformula - stale_recv w urq).
  { unfold un, uformula, live_recv, stale_recv.
    rewrite (len_live_and_stale (aborted_recv w) urq).
    unfold urq. rewrite filter_live_drop_while. lia. }
  refine (conj _ (conj Hn (conj _ (conj _ (conj _ (conj Hun (conj _ _))))))).
  - unfold bounded_channel.size.
    rewrite (prune_recv_tasks_quiet _ w Hr). fold rq. fold w1.
    unfold n, w2, sq. destruct (Cap =? unbounded_capacity); simpl.
    + rewrite size_arithmetic by (fold rq in Hrq; lia). reflexivity.
    + rewrite (prune_send_tasks_quiet _ w1 Hs).
      rewrite size_arithmetic by (fold rq in Hrq; lia). reflexivity.
  - lia.
  - intros Lr Ls. unfold stale_send, stale_recv in Hn.
    rewrite (filter_none_stale _ _ Lr), (filter_none_stale _ _ Ls) in Hn.
    change (len (@nil (send_task T U))) with 0 in Hn.
    change (len (@nil (recv_task T U))) with 0 in Hn. lia.
  - unfold unbounded_channel.size.
    rewrite (prune_recv_tasks_quiet _ w Hur). fold urq.
    unfold un. rewrite size_arithmetic_no_senders by (fold urq in Hurq; lia).
    reflexivity.
  - lia.
  - intros Lr. unfold stale_recv in Hun.
    rewrite (filter_none_stale _ _ Lr) in Hun.
    change (len (@nil (recv_task T U))) with 0 in Hun. lia.
Qed.

End SizeOfChannel.

(** ** The non-blocking attempts register no waiter *)

Lemma suffix_of_trans {A : Type} (q1 q2 q3 : list A) :
  suffix_of q1 q2 -> suffix_of q2 q3 -> suffix_of q1 q3.
Proof.
  intros [p1 ->] [p2 ->]. exists (p2 ++ p1). rewrite app_assoc. reflexivity.
Qed.

Lemma suffix_of_empty {A : Type} (q : list A) : suffix_of [] q.
Proof. exists q. rewrite app_nil_r. reflexivity. Qed.

#[local] Hint Resolve suffix_of_empty : chan.

Section NoNewWaiter.

Context {T U : Type}.
Variable dflt : T.
Variable ndebug : bool.

Local Abbreviation chan_object := (@select_hpp.chan_object T U).
Local Abbreviation system := (@select_hpp.system T U).

Lemma no_new_waiter_refl (o : chan_object) : no_new_waiter o o.
Proof. destruct o; simpl; auto with chan. Qed.

Lemma no_new_waiter_trans (o1 o2 o3 : chan_object) :
  no_new_waiter o1 o2 -> no_new_waiter o2 o3 -> no_new_waiter o1 o3.
Proof.
  destruct o1, o2, o3; simpl; try tauto.
  - intros (-> & R1 & S1) (-> & R2 & S2). eauto using suffix_of_trans.
  - eauto using suffix_of_trans.
Qed.

Lemma no_new_waiters_refl (l : list chan_object) : Forall2 no_new_waiter l l.
Proof. induction l; constructor; auto using no_new_waiter_refl. Qed.

Lemma no_new_waiters_trans (l1 l2 l3 : list chan_object) :
  Forall2 no_new_waiter l1 l2 -> Forall2 no_new_waiter l2 l3 ->
  Forall2 no_new_waiter l1 l3.
Proof.
  intros H. revert l3. induction H as [|o1 o2 l1 l2 Ho _ IH]; intros l3 H3.
  - inversion H3; subst. constructor.
  - inversion H3; subst. constructor; eauto using no_new_waiter_trans.
Qed.

Lemma no_new_waiters_set (l : list chan_object) (i : nat) (o o' : chan_object) :
  nth_error l i = Some o -> no_new_waiter o o' ->
  Forall2 no_new_waiter l (list_set i o' l).
Proof.
  revert i. induction l as [|x l IH]; intros i Hn Ho.
  - destruct i; discriminate.
  - destruct i as [|i]; simpl in *.
    + inversion Hn; subst. constructor; auto using no_new_waiters_refl.
    + constructor; auto using no_new_waiter_refl.
Qed.

Lemma bounded_try_recv_no_new_waiter Cap fuel value
    (c : @bounded_channel.chan T U) w ec v c' w' :
  bounded_channel.try_recv dflt ndebug Cap fuel value c w = Ret (ec, v, c', w') ->
  no_new_waiter (select_hpp.bounded Cap c) (select_hpp.bounded Cap c').
Proof.
  intros H. unfold bounded_channel.try_recv in H.
  destruct (bounded_channel.is_closed_ c).
  { inversion H; subst. apply no_new_waiter_refl. }
  apply bind_Ret_inv in H. destruct H as ([[[r v1] c1] w1] & Ht & H).
  inversion H; subst; clear H.
  unfold bounded_channel.try_recv_ in Ht. apply assert_Ret_inv in Ht.
  destruct (if negb (Cap =? 0) then bounded_channel.buffer_ c else [])
    as [|front buf].
  - destruct (negb (Cap =? unbounded_capacity)).
    + destruct (bounded_channel.hanged_send_tasks c) as [|t q] eqn:Eq.
      * inversion Ht; subst. apply no_new_waiter_refl.
      * apply assert_Ret_inv in Ht. apply bind_Ret_inv in Ht.
        destruct Ht as ([[[r1 v2] sq] w2] & Hs & Ht).
        inversion Ht; subst; clear Ht. simpl.
        apply take_from_sender_suffix in Hs. rewrite Eq. auto with chan.
    + inversion Ht; subst. apply no_new_waiter_refl.
  - apply assert_Ret_inv in Ht.
    destruct (negb (Cap =? unbounded_capacity)).
    + apply bind_Ret_inv in Ht. destruct Ht as ([[buf' sq] w2] & Hr & Ht).
      inversion Ht; subst; clear Ht. simpl.
      apply refill_buffer_Ret in Hr. subst sq. auto with chan.
    + inversion Ht; subst; clear Ht. simpl. auto with chan.
Qed.

Lemma bounded_try_send__no_new_waiter Cap cat value
    (c : @bounded_channel.chan T U) w r arg c' w' :
  bounded_channel.try_send_ ndebug Cap cat value c w = Ret (r, arg, c', w') ->
  no_new_waiter (select_hpp.bounded Cap c) (select_hpp.bounded Cap c').
Proof.
  intros Ht. unfold bounded_channel.try_send_ in Ht.
  apply assert_Ret_inv in Ht. apply bind_Ret_inv in Ht.
  destruct Ht as ([[[sent a] rq] w2] & Hg & Ht).
  apply give_to_receiver_suffix in Hg.
  destruct sent.
  - inversion Ht; subst. simpl. auto with chan.
  - destruct (Cap =? 0); [inversion Ht; subst; simpl; auto with chan|].
    destruct (negb (Cap =? unbounded_capacity)
              && (len (bounded_channel.buffer_ c) >=? Cap));
      [inversion Ht; subst; simpl; auto with chan|].
    destruct (forward cat value). inversion Ht; subst. simpl. auto with chan.
Qed.

Lemma bounded_try_send_no_new_waiter Cap cat value
    (c : @bounded_channel.chan T U) w ec arg c' w' :
  bounded_channel.try_send ndebug Cap cat value c w = Ret (ec, arg, c', w') ->
  no_new_waiter (select_hpp.bounded Cap c) (select_hpp.bounded Cap c').
Proof.
  intros H. unfold bounded_channel.try_send in H.
  destruct (bounded_channel.is_closed_ c).
  { inversion H; subst. apply no_new_waiter_refl. }
  destruct (Cap =? unbounded_capacity);
    apply bind_Ret_inv in H; destruct H as ([[[r a] c1] w1] & Ht & H);
    inversion H; subst; eapply bounded_try_send__no_new_waiter; eauto.
Qed.

Lemma unbounded_try_recv_no_new_waiter value
    (c : @unbounded_channel.chan T U) (w : world T U) ec v c' w' :
  unbounded_channel.try_recv value c w = (ec, v, c', w') ->
  no_new_waiter (select_hpp.unbounded c) (select_hpp.unbounded c').
Proof.
  intros H. unfold unbounded_channel.try_recv, unbounded_channel.try_recv_ in H.
  destruct (unbounded_channel.is_closed_ c).
  { inversion H; subst. apply no_new_waiter_refl. }
  destruct (unbounded_channel.buffer_ c); inversion H; subst; simpl; auto with chan.
Qed.

Lemma unbounded_try_send_no_new_waiter cat value
    (c : @unbounded_channel.chan T U) w ec arg c' w' :
  unbounded_channel.try_send ndebug cat value c w = Ret (ec, arg, c', w') ->
  no_new_waiter (select_hpp.unbounded c) (select_hpp.unbounded c').
Proof.
  intros H. unfold unbounded_channel.try_send in H.
  destruct (unbounded_channel.is_closed_ c).
  { inversion H; subst. apply no_new_waiter_refl. }
  apply bind_Ret_inv in H. destruct H as ([[[r a] c1] w1] & Ht & H).
  inversion H; subst; clear H.
  unfold unbounded_channel.try_send_ in Ht.
  apply assert_Ret_inv in Ht. apply bind_Ret_inv in Ht.
  destruct Ht as ([[[sent a0] rq] w2] & Hg & Ht).
  apply give_to_receiver_suffix in Hg.
  destruct sent.
  - inversion Ht; subst. simpl. auto.
  - destruct (forward cat value). inversion Ht; subst. simpl. auto.
Qed.

Lemma try_execute_no_new_waiter fuel o (s : system) r o' s' :
  select_hpp.try_execute dflt ndebug fuel o s = Ret (r, o', s') ->
  Forall2 no_new_waiter (select_hpp.chans s) (select_hpp.chans s').
Proof.
  intros H. destruct o as [chan_ on_settle_ | chan_ cat value_ on_settle_];
    simpl in H; apply bind_Ret_inv in H.
  - destruct H as ([[ec v] s1] & Hc & H).
    assert (Hs : Forall2 no_new_waiter (select_hpp.chans s) (select_hpp.chans s1)).
    { unfold select_hpp.call_try_recv in Hc.
      destruct (nth_error (select_hpp.chans s) chan_) as [[Cap c|c]|] eqn:En.
      - apply bind_Ret_inv in Hc. destruct Hc as ([[[ec1 v1] c1] w1] & Ht & Hc).
        inversion Hc; subst; clear Hc. simpl.
        eapply no_new_waiters_set; eauto using bounded_try_recv_no_new_waiter.
      - destruct (unbounded_channel.try_recv dflt c (select_hpp.wld s))
          as [[[ec1 v1] c1] w1] eqn:Et.
        inversion Hc; subst; clear Hc. simpl.
        eapply no_new_waiters_set; eauto using unbounded_try_recv_no_new_waiter.
      - inversion Hc; subst. apply no_new_waiters_refl. }
    destruct (channel_errc_eqb ec exhausted); inversion H; subst; exact Hs.
  - destruct H as ([[ec arg] s1] & Hc & H).
    assert (Hs : Forall2 no_new_waiter (select_hpp.chans s) (select_hpp.chans s1)).
    { unfold select_hpp.call_try_send in Hc.
      destruct (nth_error (select_hpp.chans s) chan_) as [[Cap c|c]|] eqn:En.
      - apply bind_Ret_inv in Hc. destruct Hc as ([[[ec1 a1] c1] w1] & Ht & Hc).
        inversion Hc; subst; clear Hc. simpl.
        eapply no_new_waiters_set; eauto using bounded_try_send_no_new_waiter.
      - apply bind_Ret_inv in Hc. destruct Hc as ([[[ec1 a1] c1] w1] & Ht & Hc).
        inversion Hc; subst; clear Hc. simpl.
        eapply no_new_waiters_set; eauto using unbounded_try_send_no_new_waiter.
      - inversion Hc; subst. apply no_new_waiters_refl. }
    destruct (channel_errc_eqb ec exhausted); inversion H; subst; exact Hs.
Qed.

Lemma all_exhausted_no_new_waiter fuel ops (s : system) ops' s' :
  all_exhausted dflt ndebug fuel ops s ops' s' ->
  Forall2 no_new_waiter (select_hpp.chans s) (select_hpp.chans s').
Proof.
  induction 1 as [s | o o' ops ops' s s1 s2 Ht _ IH].
  - apply no_new_waiters_refl.
  - eapply no_new_waiters_trans; [|exact IH].
    eapply try_execute_no_new_waiter; eauto.
Qed.

End NoNewWaiter.

(** ** The first pass of [select] *)

Section SelectGreedyPass.

Context {T U : Type}.
Variable dflt : T.
Variable ndebug : bool.

Local Abbreviation op := (@select_hpp.op T U).
Local Abbreviation system := (@select_hpp.system T U).

(** Once an operation is settled, the fold calls nothing any more. *)
Lemma greedy_pass_settled fuel i (ops : list op) (s : system) :
  select_hpp.greedy_pass dflt ndebug fuel true i ops s = Ret (true, ops, s, []).
Proof.
  revert i. induction ops as [|o ops IH]; intros i; simpl.
  - reflexivity.
  - rewrite IH. reflexivity.
Qed.

(** Over operations that are not settled, the fold attempts each of them in
    order and goes on with the rest. *)
Lemma greedy_pass_all_exhausted fuel i (pre pre' rest : list op) (s s1 : system) :
  all_exhausted dflt ndebug fuel pre s pre' s1 ->
  select_hpp.greedy_pass dflt ndebug fuel false i (pre ++ rest) s
  = bind (select_hpp.greedy_pass dflt ndebug fuel false (i + length pre) rest s1)
      (fun x =>
         match x with
         | (r, ops, s2, log) =>
             Ret (r, pre' ++ ops, s2,
                  map select_hpp.called_try_execute (seq i (length pre)) ++ log)
         end).
Proof.
  intros H. revert i. induction H as [s | o o' ops ops' s s1 s2 Ht _ IH]; intros i.
  - simpl. rewrite Nat.add_0_r.
    destruct (select_hpp.greedy_pass dflt ndebug fuel false i rest s)
      as [[[[r ops] s2] log]| |]; reflexivity.
  - simpl. rewrite Ht. simpl. rewrite IH.
    replace (S i + length ops)%nat with (i + S (length ops))%nat by lia.
    destruct (select_hpp.greedy_pass dflt ndebug fuel false (i + S (length ops)) rest s2)
      as [[[[r ops1] s3] log]| |]; reflexivity.
Qed.

(** C5: [select] first calls [try_execute] on the operations in the order
    in which they were given.  When the operations [pre] report that they are
    not settled and the next one, [o], reports that it is settled, [select]
    returns at once: [try_execute] was called on [pre] and on [o], in this
    order, and on nothing else; the operations [post] behind [o] are
    untouched; neither [schedule] nor the fallback was called; the system
    is the one that the attempt of [o] left, and no channel has a waiter
    that it did not have before. *)
Theorem select_returns_at_first_settled_operation
    (fuel : nat) (token : stop_token) (fallback : option (world T U -> world T U))
    (pre pre' post : list op) (o o' : op) (s s1 s2 : system) :
  all_exhausted dflt ndebug fuel pre s pre' s1 ->
  select_hpp.try_execute dflt ndebug fuel o s1 = Ret (true, o', s2) ->
  select_hpp.select dflt ndebug fuel token (pre ++ o :: post) fallback s
  = Ret (select_hpp.Returned, pre' ++ o' :: post, s2,
         map select_hpp.called_try_execute (seq 0 (S (length pre)))) /\
  Forall2 no_new_waiter (select_hpp.chans s) (select_hpp.chans s2).
Proof.
  intros Hpre Ho. split.
  - rewrite seq_S, map_app. unfold select_hpp.select.
    rewrite (greedy_pass_all_exhausted fuel 0 pre pre' (o :: post) s s1 Hpre).
    simpl. rewrite Ho. simpl. rewrite greedy_pass_settled. reflexivity.
  - eapply no_new_waiters_trans.
    + eapply all_exhausted_no_new_waiter; eauto.
    + eapply try_execute_no_new_waiter; eauto.
Qed.

End SelectGreedyPass.

(** ** [send_sched] on a bounded channel *)

Section SendSched.

Context {T U : Type}.
Variable dflt : T.
Variable ndebug : bool.

(** With [0 < Cap < unbounded_capacity] neither [if constexpr] branch of
    [send_sched_] is compiled in: the call never tries to send, never calls
    [on_settled], and always registers a waiter. *)
Lemma send_sched_bounded_always_registers
    (Cap : Z) (cat : value_category) (value : T)
    (need_abort : world T U -> bool * world T U)
    (on_settled : bool -> world T U -> world T U)
    (c : @bounded_channel.chan T U) (w : world T U) :
  0 < Cap < unbounded_capacity ->
  bounded_channel.is_closed_ c = false ->
  bounded_channel.send_sched dflt ndebug Cap cat value need_abort on_settled c w
  = Ret (bounded_channel.register_send_sched dflt cat (Some value) need_abort on_settled c w).
Proof.
  intros HCap Hopen. unfold bounded_channel.send_sched. rewrite Hopen.
  destruct (Z.eqb_spec Cap unbounded_capacity); [lia|].
  destruct (Z.eqb_spec Cap 0); [lia|]. reflexivity.
Qed.

(** A waiter whose abort predicate stays false is never popped by the
    refill loop of [try_recv_]: without assertions the loop does not end. *)
Lemma refill_buffer_never_returns
    (Cap : Z) (task : send_task T U) (q : list (send_task T U)) :
  (forall w, fst (send_need_abort task w) = false) ->
  forall fuel buf w,
    bounded_channel.refill_buffer dflt true Cap fuel buf (task :: q) w = OutOfFuel.
Proof.
  intros Hlive. induction fuel as [|fuel IH]; intros buf w; simpl.
  - reflexivity.
  - specialize (Hlive w).
    destruct (send_need_abort task w) as [aborted w1]. simpl in Hlive. subst aborted.
    destruct (send_execute task true dflt w1) as [v w2]. apply IH.
Qed.

End SendSched.

(** ** The capacity bound when assertions are compiled in *)

Lemma assert_checked_Ret_inv {A : Type} (b : bool) (k : outcome A) (a : A) :
  bounded_channel.assert false b k = Ret a -> b = true /\ k = Ret a.
Proof.
  unfold bounded_channel.assert. simpl. destruct b; [auto | discriminate].
Qed.

Section CapacityBound.

Context {T U : Type}.
Variable dflt : T.
Variable Cap : Z.
Hypothesis Cap_bounded : Cap <> unbounded_capacity.
Hypothesis Cap_nonneg : 0 <= Cap.

Import bounded_channel.

Local Abbreviation chan := (@chan T U).

Local Abbreviation buffer_bounded := (@buffer_bounded T U Cap).

Lemma refill_buffer_bounded fuel buf q w buf' sq (w' : world T U) :
  len buf <= Cap ->
  refill_buffer dflt false Cap fuel buf q w = Ret (buf', sq, w') ->
  len buf' <= Cap.
Proof.
  revert buf q w. induction fuel as [|fuel IH]; intros buf q w Hb H.
  - destruct q; simpl in H; [inversion H; subst; exact Hb | discriminate].
  - destruct q as [|task q]; simpl in H; [inversion H; subst; exact Hb|].
    apply assert_checked_Ret_inv in H. destruct H as [Hlt H].
    apply Z.ltb_lt in Hlt.
    destruct (send_need_abort task w) as [aborted w1].
    destruct aborted.
    + eapply IH; eauto.
    + destruct (send_execute task true dflt w1) as [v w2].
      eapply IH; [|exact H]. rewrite len_app. unfold len at 2. simpl. lia.
Qed.

Lemma try_recv__bounded fuel value (c : chan) w r v c' w' :
  buffer_bounded c ->
  try_recv_ dflt false Cap fuel value c w = Ret (r, v, c', w') ->
  buffer_bounded c'.
Proof.
  unfold buffer_bounded. intros Hb H. unfold try_recv_ in H.
  apply assert_Ret_inv in H.
  destruct (Z.eqb_spec Cap unbounded_capacity) as [E|_]; [contradiction|].
  simpl in H.
  destruct (if negb (Cap =? 0) then buffer_ c else []) as [|front buf] eqn:Eb.
  - destruct (hanged_send_tasks c) as [|t q].
    + inversion H; subst. exact Hb.
    + apply assert_Ret_inv in H. apply bind_Ret_inv in H.
      destruct H as ([[[r1 v1] sq] w1] & _ & H). inversion H; subst. exact Hb.
  - apply assert_Ret_inv in H. apply bind_Ret_inv in H.
    destruct H as ([[buf' sq] w1] & Hr & H). inversion H; subst; clear H. simpl.
    eapply refill_buffer_bounded; [|exact Hr].
    destruct (negb (Cap =? 0)); [|discriminate].
    rewrite Eb, len_cons in Hb. lia.
Qed.

Lemma try_send__bounded cat value (c : chan) w r arg c' w' :
  buffer_bounded c ->
  try_send_ false Cap cat value c w = Ret (r, arg, c', w') ->
  buffer_bounded c'.
Proof.
  unfold buffer_bounded. intros Hb H. unfold try_send_ in H.
  apply assert_Ret_inv in H. apply bind_Ret_inv in H.
  destruct H as ([[[sent a] rq] w1] & _ & H).
  destruct sent; [inversion H; subst; exact Hb|].
  destruct (Cap =? 0); [inversion H; subst; exact Hb|].
  destruct (Z.eqb_spec Cap unbounded_capacity) as [E|_]; [contradiction|].
  simpl in H.
  destruct (Z.geb_spec (len (buffer_ c)) Cap) as [Hge|Hlt].
  - inversion H; subst. exact Hb.
  - destruct (forward cat value) as [v a']. inversion H; subst; clear H. simpl.
    rewrite len_app. unfold len at 2. simpl. lia.
Qed.

(** With assertions, every state the member functions return satisfies
    [len(buffer) <= Cap]: a call that would overfill the buffer fails an
    assertion instead of returning. *)
Lemma reachable_checked_buffer_bounded (c : chan) :
  reachable dflt false Cap c -> buffer_bounded c.
Proof.
  induction 1 as
    [ | c w n c' w' _ IH H | c w c' w' _ IH H | c w fuel value ec v c' w' _ IH H
    | c w fuel token value r v c' w' _ IH H | c w fuel na os r c' w' _ IH H
    | c w cat value ec arg c' w' _ IH H | c w cat token value r arg c' w' _ IH H
    | c w cat value na os r arg c' w' _ IH H ].
  - unfold buffer_bounded. simpl. exact Cap_nonneg.
  - unfold size in H.
    destruct (prune_recv_tasks (hanged_recv_tasks c) w) as [rq w1].
    destruct (if negb (Cap =? unbounded_capacity)
              then prune_send_tasks (hanged_send_tasks c) w1
              else (hanged_send_tasks c, w1)) as [sq w2].
    inversion H; subst. exact IH.
  - unfold close in H.
    destruct (negb (Cap =? unbounded_capacity)); inversion H; subst; exact IH.
  - unfold try_recv in H. destruct (is_closed_ c); [inversion H; subst; exact IH|].
    apply bind_Ret_inv in H. destruct H as ([[[r1 v1] c1] w1] & Ht & H).
    inversion H; subst. eapply try_recv__bounded; eauto.
  - unfold recv in H.
    destruct (stop_requested w token); [inversion H; subst; exact IH|].
    destruct (is_closed_ c); [inversion H; subst; exact IH|].
    apply bind_Ret_inv in H. destruct H as ([[[r1 v1] c1] w1] & Ht & H).
    pose proof (try_recv__bounded _ _ _ _ _ _ _ _ IH Ht) as Hb.
    destruct r1; unfold new_frame in H; inversion H; subst; exact Hb.
  - unfold recv_sched in H. destruct (is_closed_ c); [inversion H; subst; exact IH|].
    apply bind_Ret_inv in H. destruct H as ([[[r1 v1] c1] w1] & Ht & H).
    pose proof (try_recv__bounded _ _ _ _ _ _ _ _ IH Ht) as Hb.
    destruct r1; inversion H; subst; exact Hb.
  - unfold try_send in H. destruct (is_closed_ c); [inversion H; subst; exact IH|].
    destruct (Cap =? unbounded_capacity);
      apply bind_Ret_inv in H; destruct H as ([[[r1 a1] c1] w1] & Ht & H);
      inversion H; subst; eapply try_send__bounded; eauto.
  - unfold send in H.
    destruct (stop_requested w token); [inversion H; subst; exact IH|].
    destruct (is_closed_ c); [inversion H; subst; exact IH|].
    destruct (Cap =? unbounded_capacity);
      apply bind_Ret_inv in H; destruct H as ([[[r1 a1] c1] w1] & Ht & H);
      pose proof (try_send__bounded _ _ _ _ _ _ _ _ IH Ht) as Hb.
    + inversion H; subst; exact Hb.
    + destruct r1; unfold new_frame in H; inversion H; subst; exact Hb.
  - unfold send_sched in H. destruct (is_closed_ c); [inversion H; subst; exact IH|].
    destruct (Cap =? unbounded_capacity).
    + apply bind_Ret_inv in H; destruct H as ([[[r1 a1] c1] w1] & Ht & H).
      inversion H; subst. eapply try_send__bounded; eauto.
    + destruct (Cap =? 0).
      * apply bind_Ret_inv in H; destruct H as ([[[r1 a1] c1] w1] & Ht & H).
        pose proof (try_send__bounded _ _ _ _ _ _ _ _ IH Ht) as Hb.
        destruct r1; unfold register_send_sched, new_frame in H;
          inversion H; subst; exact Hb.
      * unfold register_send_sched, new_frame in H. inversion H; subst. exact IH.
Qed.

End CapacityBound.

(** ** The library on concrete runs *)

Import scenario.

(** The first test of the suite: a value sent to a channel of capacity 1
    is received, and a second [try_recv] is exhausted. *)
Example send_then_recv_on_capacity_1 :
  ('(_, _, c1, w1) <-
     bounded_channel.send 0 false 1 rvalue None 42 bounded_channel.make_chan w0 ;;
   '(ec1, v1, c2, w2) <- bounded_channel.try_recv 0 false 1 5 0 c1 w1 ;;
   '(ec2, _, c3, _) <- bounded_channel.try_recv 0 false 1 5 0 c2 w2 ;;
   Ret (ec1, v1, ec2, observe c3))
  = Ret (ok, 42, exhausted, (false, [], 0%nat, 0%nat)).
Proof. reflexivity. Qed.

(** "size is negative if receive hanged" and "size greater than capacity if
    send hanged". *)
Example size_with_hanging_parties :
  ('(c, w) <- two_receivers_hang false ;; Ret (fst (fst (bounded_channel.size 0 c w))))
  = Ret (-2) /\
  ('(c, w) <- two_senders_hang false ;; Ret (fst (fst (bounded_channel.size 0 c w))))
  = Ret 2.
Proof. split; reflexivity. Qed.

(** A blocked [recv] whose token is tripped returns [canceled]. *)
Example canceled_receiver_returns :
  await 1 (snd second_receiver_canceled) = Some (canceled, Some 0) /\
  await 0 (snd second_receiver_canceled) = None.
Proof. split; reflexivity. Qed.

(** The test "by immediate operation" of [select]: the first send settles,
    [chan1.size()] is 0 and [chan2.size()] is 1. *)
Example select_by_immediate_operation :
  ('(r, _, s, calls) <-
     select_hpp.select 0 false 5 None recv_or_send_twice None two_unbounded ;;
   let '(n1, s1) := select_hpp.call_size 0 s in
   let '(n2, s2) := select_hpp.call_size 1 s1 in
   Ret (r, calls, n1, n2, user (select_hpp.wld s2)))
  = Ret (select_hpp.Returned,
         [select_hpp.called_try_execute 0; select_hpp.called_try_execute 1],
         0, 1, [(true, None)]).
Proof. reflexivity. Qed.

(** The test "by close" of [select]: no operation is ready, all three are
    scheduled and the call waits; [chan2.close()] settles exactly one of the
    two sends with [ok = false] and unlocks [done]; afterwards both sizes
    are 0. *)
Example select_by_close :
  ('(r, _, s, calls) <-
     select_hpp.select 0 false 5 None recv_or_send_twice None two_rendezvous ;;
   let s1 := select_hpp.call_close 0 1 s in
   let '(n1, s2) := select_hpp.call_size 0 s1 in
   let '(n2, s3) := select_hpp.call_size 1 s2 in
   Ret (r, calls, n1, n2, user (select_hpp.wld s3), ctxs (select_hpp.wld s3)))
  = Ret (select_hpp.Waiting 0,
         [select_hpp.called_try_execute 0; select_hpp.called_try_execute 1;
          select_hpp.called_try_execute 2; select_hpp.called_schedule 0;
          select_hpp.called_schedule 1; select_hpp.called_schedule 2],
         0, 0, [(false, None)], [mk_sched_context true false]).
Proof. reflexivity. Qed.

(** C1 (the code at the failing input): on a fresh channel of capacity 2,
    [send_sched(7, need_abort, on_settled)] returns without having called
    [on_settled] (the log is empty) and without having buffered the value:
    it has registered a send waiter.  A following [try_recv] then fails the
    assertion [Cap == 0] of [try_recv_]; with assertions compiled out it
    takes the value from the waiter. *)
Theorem send_sched_on_empty_bounded_channel_registers_a_waiter :
  forall ndebug : bool,
    ('(r, arg, c, w) <- send_sched_on_empty ndebug ;;
     Ret (r, arg, observe c, user w))
    = Ret (Some 0%nat, Some 7, (false, [], 0%nat, 1%nat), []) /\
    ('(_, _, c, w) <- send_sched_on_empty false ;;
     '(ec, v, _, _) <- bounded_channel.try_recv 0 false 2 5 0 c w ;;
     Ret (ec, v))
    = AssertFailed /\
    ('(_, _, c, w) <- send_sched_on_empty true ;;
     '(ec, v, c', w') <- bounded_channel.try_recv 0 true 2 5 0 c w ;;
     Ret (ec, v, observe c', user w'))
    = Ret (ok, 7, (false, [], 0%nat, 0%nat), [(true, None)]).
Proof. intros [|]; repeat split; reflexivity. Qed.

(** C2 (the code at the failing input): a channel of capacity 1 holds one
    value and two senders are suspended.  With assertions compiled out,
    [try_recv] returns the buffered value and leaves two values in the buffer;
    with assertions, the call fails [buffer_.size() < Cap], already with one
    suspended sender.  With a waiter of [send_sched] whose abort predicate
    stays false the loop does not end. *)
Theorem try_recv_overfills_the_buffer :
  ('(c, w) <- full_with_two_senders true ;; Ret (observe c))
  = Ret (false, [1], 0%nat, 2%nat) /\
  ('(c, w) <- full_with_two_senders true ;;
   '(ec, v, c', w') <- bounded_channel.try_recv 0 true 1 10 0 c w ;;
   Ret (ec, v, observe c',
        len (bounded_channel.buffer_ c') <=? bounded_channel.capacity 1,
        await 0 w', await 1 w'))
  = Ret (ok, 1, (false, [2; 3], 0%nat, 0%nat), false,
         Some (ok, None), Some (ok, None)) /\
  ('(c, w) <- full_with_two_senders false ;;
   '(ec, v, _, _) <- bounded_channel.try_recv 0 false 1 10 0 c w ;;
   Ret (ec, v))
  = AssertFailed /\
  ('(c, w) <- full_with_one_sender false ;;
   '(ec, v, _, _) <- bounded_channel.try_recv 0 false 1 10 0 c w ;;
   Ret (ec, v))
  = AssertFailed /\
  (forall fuel : nat,
     ('(c, w) <- full_with_scheduled_sender ;;
      '(ec, v, _, _) <- bounded_channel.try_recv 0 true 1 fuel 0 c w ;;
      Ret (ec, v))
     = OutOfFuel).
Proof.
  repeat split; try reflexivity.
  intros fuel. simpl. unfold bounded_channel.try_recv, bounded_channel.try_recv_.
  simpl. rewrite refill_buffer_never_returns; [reflexivity|].
  intros w. reflexivity.
Qed.

(** C3 (counterexample): a channel of capacity 2 is closed while it holds
    the values 1 and 2.  [try_recv] and [recv] return [closed], the
    out-parameter keeps its content 0 and both values stay in the buffer: no
    receive returns [ok] with the value 1. *)
Lemma closed_channel_keeps_its_buffered_values :
  ('(c, w) <- closed_with_two_values false ;; Ret (observe c))
  = Ret (true, [1; 2], 0%nat, 0%nat) /\
  ('(c, w) <- closed_with_two_values false ;;
   '(ec, v, c', _) <- bounded_channel.try_recv 0 false 2 10 0 c w ;;
   Ret (ec, v, observe c'))
  = Ret (closed, 0, (true, [1; 2], 0%nat, 0%nat)) /\
  ('(c, w) <- closed_with_two_values false ;;
   '(r, v, c', _) <- bounded_channel.recv 0 false 2 10 None 0 c w ;;
   Ret (r, v, observe c'))
  = Ret (bounded_channel.Done closed, 0, (true, [1; 2], 0%nat, 0%nat)) /\
  ~ (exists c' w',
       ('(c, w) <- closed_with_two_values false ;;
        bounded_channel.try_recv 0 false 2 10 0 c w)
       = Ret (ok, 1, c', w')).
Proof.
  repeat split; try reflexivity.
  intros (c' & w' & H). discriminate H.
Qed.

(** C4 (counterexample): two receivers wait on a channel of capacity 0 and
    the second one is canceled.  Its record is aborted but stands behind a
    live one: [size()] returns -2, while
    [len(buffer) + live(send_waiters) - live(recv_waiters)] is -1. *)
Lemma size_counts_an_aborted_record_behind_a_live_one :
  map (aborted_recv (snd second_receiver_canceled))
    (bounded_channel.hanged_recv_tasks (fst second_receiver_canceled))
  = [false; true] /\
  fst (fst (bounded_channel.size 0 (fst second_receiver_canceled)
              (snd second_receiver_canceled)))
  = -2 /\
  len (bounded_channel.buffer_ (fst second_receiver_canceled))
  + live_send (snd second_receiver_canceled)
      (bounded_channel.hanged_send_tasks (fst second_receiver_canceled))
  - live_recv (snd second_receiver_canceled)
      (bounded_channel.hanged_recv_tasks (fst second_receiver_canceled))
  = -1 /\
  fst (fst (bounded_channel.size 0 (fst second_receiver_canceled)
              (snd second_receiver_canceled)))
  <> len (bounded_channel.buffer_ (fst second_receiver_canceled))
     + live_send (snd second_receiver_canceled)
         (bounded_channel.hanged_send_tasks (fst second_receiver_canceled))
     - live_recv (snd second_receiver_canceled)
         (bounded_channel.hanged_recv_tasks (fst second_receiver_canceled)).
Proof. repeat split; try reflexivity. vm_compute. discriminate. Qed.

(** ** The theorems at concrete inputs *)

(** C7 at a world whose stop source is stop-requested. *)
Lemma canceled_before_start_witness :
  stop_requested w_stopped (Some 0%nat) = true /\
  bounded_channel.recv 0 false 1 5 (Some 0%nat) 0
    (bounded_channel.mk_chan false [1] [] []) w_stopped
  = Ret (bounded_channel.Done canceled, 0,
         bounded_channel.mk_chan false [1] [] [], w_stopped) /\
  bounded_channel.send 0 false 1 rvalue (Some 0%nat) 9
    (bounded_channel.mk_chan false [1] [] []) w_stopped
  = Ret (bounded_channel.Done canceled, Some 9,
         bounded_channel.mk_chan false [1] [] [], w_stopped).
Proof.
  split; [reflexivity|].
  destruct (canceled_before_start_transfers_nothing 0 false 1 5 rvalue (Some 0%nat) 9
              (bounded_channel.mk_chan false [1] [] [])
              (unbounded_channel.mk_chan false [] []) w_stopped)
    as (_ & Hs & _); [reflexivity|].
  split; [|exact Hs].
  apply (canceled_before_start_transfers_nothing 0 false 1 5 rvalue (Some 0%nat) 0
           (bounded_channel.mk_chan false [1] [] [])
           (unbounded_channel.mk_chan false [] []) w_stopped).
  reflexivity.
Defined.

(** C9 at a closed channel and a stop-requested token. *)
Lemma canceled_takes_precedence_witness :
  bounded_channel.recv 0 false 0 5 (Some 0%nat) 0
    (bounded_channel.mk_chan true [] [] []) w_stopped
  = Ret (bounded_channel.Done canceled, 0,
         bounded_channel.mk_chan true [] [] [], w_stopped) /\
  bounded_channel.send 0 false 0 rvalue (Some 0%nat) 9
    (bounded_channel.mk_chan true [] [] []) w_stopped
  = Ret (bounded_channel.Done canceled, Some 9,
         bounded_channel.mk_chan true [] [] [], w_stopped).
Proof.
  split.
  - apply (canceled_takes_precedence_over_closed 0 false 0 5 rvalue (Some 0%nat) 0
             (bounded_channel.mk_chan true [] [] []) w_stopped); reflexivity.
  - apply (canceled_takes_precedence_over_closed 0 false 0 5 rvalue (Some 0%nat) 9
             (bounded_channel.mk_chan true [] [] []) w_stopped); reflexivity.
Defined.

(** C10 at a channel of capacity 1 whose buffer is full: [try_send] is
    exhausted. *)
Lemma refused_try_send_witness :
  bounded_channel.try_send false 1 rvalue 9
    (bounded_channel.mk_chan false [1] [] []) w0
  = Ret (exhausted, Some 9, bounded_channel.mk_chan false [1] [] [], w0) /\
  (exhausted = closed \/ exhausted = exhausted) /\
  bounded_channel.buffer_ (bounded_channel.mk_chan (T := Z) (U := log) false [1] [] [])
  = [1] /\
  Some 9 = Some 9.
Proof.
  split; [reflexivity|].
  apply (refused_try_send_keeps_buffer_and_value false 1 rvalue 9
           (bounded_channel.mk_chan false [1] [] [])
           (bounded_channel.mk_chan false [1] [] []) w0 w0 exhausted (Some 9)).
  - reflexivity.
  - discriminate.
Defined.

(** C6 at an unbounded channel that already holds a value. *)
Lemma unbounded_try_send_witness :
  exists arg c' w',
    bounded_channel.try_send false unbounded_capacity rvalue 9
      (bounded_channel.mk_chan (U := log) false [1] [] []) w0
    = Ret (ok, arg, c', w').
Proof.
  apply (unbounded_try_send_ok_unless_closed 0 false rvalue 9
           (bounded_channel.mk_chan false [1] [] [])
           (unbounded_channel.mk_chan false [1] []) w0).
  - apply (bounded_channel.reach_try_send 0 false unbounded_capacity
             bounded_channel.make_chan w0 rvalue 1 ok None
             (bounded_channel.mk_chan false [1] [] []) w0).
    + apply bounded_channel.reach_make_chan.
    + reflexivity.
  - apply (unbounded_channel.reach_try_send 0 false
             unbounded_channel.make_chan w0 rvalue 1 ok None
             (unbounded_channel.mk_chan false [1] []) w0).
    + apply unbounded_channel.reach_make_chan.
    + reflexivity.
Defined.

(** C8 at a channel of capacity 0 on which two receivers wait. *)
Lemma close_twice_witness :
  bounded_channel.close 0 0
    (fst (bounded_channel.close 0 0
            (snd (fst second_receiver_hangs)) (snd second_receiver_hangs)))
    (snd (bounded_channel.close 0 0
            (snd (fst second_receiver_hangs)) (snd second_receiver_hangs)))
  = bounded_channel.close 0 0
      (snd (fst second_receiver_hangs)) (snd second_receiver_hangs) /\
  observe (fst (bounded_channel.close 0 0
                  (snd (fst second_receiver_hangs)) (snd second_receiver_hangs)))
  = (true, [], 0%nat, 0%nat) /\
  await 0 (snd (bounded_channel.close 0 0
                  (snd (fst second_receiver_hangs)) (snd second_receiver_hangs)))
  = Some (closed, Some 0).
Proof.
  split; [|split; reflexivity].
  apply (close_twice_is_close_once 0 false 0
           (snd (fst second_receiver_hangs))
           (fst (bounded_channel.close 0 0
                   (snd (fst second_receiver_hangs)) (snd second_receiver_hangs)))
           (snd second_receiver_hangs)
           (snd (bounded_channel.close 0 0
                   (snd (fst second_receiver_hangs)) (snd second_receiver_hangs)))).
  - apply (bounded_channel.reach_recv 0 false 0
             (snd (fst first_receiver_hangs)) (snd first_receiver_hangs)
             1%nat (Some 0%nat) 0
             (fst (fst (fst second_receiver_hangs)))
             (snd (fst (fst second_receiver_hangs)))
             (snd (fst second_receiver_hangs)) (snd second_receiver_hangs)).
    + apply (bounded_channel.reach_recv 0 false 0
               bounded_channel.make_chan w_one_source 1%nat None 0
               (fst (fst (fst first_receiver_hangs)))
               (snd (fst (fst first_receiver_hangs)))
               (snd (fst first_receiver_hangs)) (snd first_receiver_hangs)).
      * apply bounded_channel.reach_make_chan.
      * reflexivity.
    + reflexivity.
  - reflexivity.
Defined.

(** C3 (amended) at a channel that held the values 1 and 2 when it was
    closed. *)
Lemma closed_channel_refuses_witness :
  bounded_channel.try_recv 0 false 2 5 0
    (bounded_channel.mk_chan (U := log) true [1; 2] [] []) w0
  = Ret (closed, 0, bounded_channel.mk_chan true [1; 2] [] [], w0).
Proof.
  refine (proj1 (proj2 (proj1
    (closed_channel_refuses_receives_and_sends 0 false 2 5 rvalue None 0
       (bounded_channel.mk_chan false [1; 2] [] [])
       (bounded_channel.mk_chan true [1; 2] [] [])
       (unbounded_channel.mk_chan false [1; 2] [])
       (unbounded_channel.mk_chan true [1; 2] [])
       w0 w0 w0 w0 _ _ _)))); reflexivity.
Defined.

(** C4 (amended) at a channel of capacity 0 with three records in its queue
    of receivers: an aborted one, one that a waiting [select] has registered,
    and an aborted one again.  [size()] pops the first record, asks the
    second one, which is live, and returns 0 + 0 - 2, while the formula gives
    0 + 0 - 1: one aborted record is left behind the live one.  The second
    record has answered: its [select] is done. *)
Lemma size_witness :
  bounded_channel.size 0
    (bounded_channel.mk_chan false []
       [runs.aborted_receiver; runs.gated_receiver; runs.aborted_receiver] [])
    runs.w_selecting
  = (-2,
     bounded_channel.mk_chan false [] [runs.gated_receiver; runs.aborted_receiver] [],
     mk_world [] [] [mk_sched_context true false] []) /\
  -2 = (0 + live_send (asked_recv [runs.gated_receiver; runs.aborted_receiver]
                         runs.w_selecting) []
        - live_recv runs.w_selecting
            [runs.aborted_receiver; runs.gated_receiver; runs.aborted_receiver])
       + 0 - 1.
Proof.
  destruct (size_counts_what_follows_the_aborted_front 0
              (bounded_channel.mk_chan false []
                 [runs.aborted_receiver; runs.gated_receiver; runs.aborted_receiver] [])
              (unbounded_channel.mk_chan false [] [])
              runs.w_selecting) as (Hsize & Hvalue & _).
  - constructor; [intros w _; reflexivity|].
    constructor; [apply (select_gate_quiet 0%nat scenario.log_received)|].
    constructor; [intros w _; reflexivity|]. constructor.
  - constructor.
  - vm_compute. reflexivity.
  - vm_compute. discriminate.
  - constructor.
  - vm_compute. reflexivity.
  - vm_compute. discriminate.
  - split; [exact Hsize | exact Hvalue].
Defined.

(** C5 at [select(recv(c1), recv(c2, cb), send(c1, 5, cb'))] with [c1]
    empty of capacity 0 and [c2] holding 7: the first operation is exhausted,
    the second one settles, the third one is not tried. *)
Lemma select_witness :
  exists s2,
    select_hpp.select 0 false 5 None [recv_c1; recv_c2; send_c1] None two_channels
    = Ret (select_hpp.Returned, [recv_c1; recv_c2; send_c1], s2,
           [select_hpp.called_try_execute 0; select_hpp.called_try_execute 1]) /\
    user (select_hpp.wld s2) = [(true, Some 7)] /\
    Forall2 no_new_waiter (select_hpp.chans two_channels) (select_hpp.chans s2).
Proof.
  eexists.
  destruct (select_returns_at_first_settled_operation 0 false 5 None None
              [recv_c1] [recv_c1] [send_c1] recv_c2 recv_c2
              two_channels two_channels
              (select_hpp.mk_system
                 [select_hpp.bounded 0 bounded_channel.make_chan;
                  select_hpp.unbounded (unbounded_channel.mk_chan false [] [])]
                 (mk_world [] [] [] [(true, Some 7)])))
    as [Hsel Hw].
  - apply all_exhausted_cons with (s1 := two_channels).
    + reflexivity.
    + apply all_exhausted_nil.
  - reflexivity.
  - split; [exact Hsel|]. split; [reflexivity|exact Hw].
Defined.

(** * More properties *)

(** ** Lists and frames *)

Lemma nth_error_list_set_same {A : Type} (l : list A) (i : nat) (x y : A) :
  nth_error l i = Some y -> nth_error (list_set i x l) i = Some x.
Proof.
  revert i. induction l as [|z l IH]; intros [|i] H; simpl in *;
    try discriminate; auto.
Qed.

Lemma nth_error_list_set_other {A : Type} (l : list A) (i j : nat) (x : A) :
  i <> j -> nth_error (list_set i x l) j = nth_error l j.
Proof.
  revert i j. induction l as [|z l IH]; intros [|i] [|j] H; simpl;
    try reflexivity; try congruence.
  apply IH. congruence.
Qed.

Lemma frame_at_update_same {T U : Type} (fid : nat) (f : frame T -> frame T)
    (w : world T U) (fr : frame T) :
  frame_at fid w = Some fr -> frame_at fid (update_frame fid f w) = Some (f fr).
Proof.
  unfold frame_at, update_frame. intros H. rewrite H. simpl.
  eapply nth_error_list_set_same; eauto.
Qed.

Lemma frame_at_update_other {T U : Type} (fid gid : nat) (f : frame T -> frame T)
    (w : world T U) :
  fid <> gid -> frame_at gid (update_frame fid f w) = frame_at gid w.
Proof.
  unfold frame_at, update_frame. intros H.
  destruct (nth_error (frames w) fid); [|reflexivity]. simpl.
  apply nth_error_list_set_other. exact H.
Qed.

Lemma frame_at_new_frame {T U : Type} (fr : frame T) (w : world T U) :
  frame_at (fst (new_frame fr w)) (snd (new_frame fr w)) = Some fr.
Proof.
  unfold frame_at, new_frame. simpl.
  rewrite nth_error_app2 by lia. rewrite Nat.sub_diag. reflexivity.
Qed.

Lemma frame_at_add_stop_callback {T U : Type} (token : stop_token)
    (cb : stop_callback) (fid : nat) (w : world T U) :
  frame_at fid (add_stop_callback token cb w) = frame_at fid w.
Proof.
  unfold frame_at, add_stop_callback. destruct token as [i|]; [|reflexivity].
  destruct (nth_error (stops w) i); reflexivity.
Qed.

(** ** Buffered values leave in the order in which they came *)

Section Fifo.

Context {T U : Type}.
Variable dflt : T.
Variable ndebug : bool.
Variable Cap : Z.

Import bounded_channel.

Lemma try_send_appends cat v b sq (w : world T U) :
  Cap <> 0 ->
  Cap = unbounded_capacity \/ len b < Cap ->
  try_send ndebug Cap cat v (mk_chan false b [] sq) w
  = Ret (ok, snd (forward cat v), mk_chan false (b ++ [v]) [] sq, w).
Proof.
  intros H0 Hroom. unfold try_send, try_send_. simpl.
  rewrite assert_pass by apply orb_true_r. simpl.
  destruct (Z.eqb_spec Cap 0) as [E|_]; [contradiction|].
  destruct (Z.eqb_spec Cap unbounded_capacity) as [Eu|Eu]; simpl.
  - destruct cat; reflexivity.
  - destruct Hroom as [?|Hroom]; [contradiction|].
    destruct (Z.geb_spec (len b) Cap); [lia|]. destruct cat; reflexivity.
Qed.

Lemma try_recv_pops fuel value x b rq (w : world T U) :
  0 < Cap ->
  try_recv dflt ndebug Cap fuel value (mk_chan false (x :: b) rq []) w
  = Ret (ok, x, mk_chan false b rq [], w).
Proof.
  intros HCap. unfold try_recv, try_recv_. simpl.
  rewrite assert_pass by apply orb_true_r.
  destruct (Z.eqb_spec Cap 0) as [E|_]; [lia|]. simpl.
  rewrite assert_pass
    by (apply orb_true_iff; right; apply Z.gtb_lt; exact HCap).
  destruct (Cap =? unbounded_capacity); simpl; [reflexivity|].
  destruct fuel; reflexivity.
Qed.

Lemma try_recv_nothing fuel value rq (w : world T U) :
  try_recv dflt ndebug Cap fuel value (mk_chan false [] rq []) w
  = Ret (exhausted, value, mk_chan false [] rq [], w).
Proof.
  unfold try_recv, try_recv_. simpl.
  rewrite assert_pass by apply orb_true_r.
  destruct (negb (Cap =? 0)); destruct (negb (Cap =? unbounded_capacity));
    reflexivity.
Qed.

Lemma try_send_all_appends cat vs b (w : world T U) :
  Cap <> 0 ->
  Cap = unbounded_capacity \/ len b + len vs <= Cap ->
  try_send_all ndebug Cap cat vs (mk_chan false b [] []) w
  = Ret (map (fun _ => ok) vs, mk_chan false (b ++ vs) [] [], w).
Proof.
  intros H0. revert b. induction vs as [|v vs IH]; intros b Hroom; simpl.
  - rewrite app_nil_r. reflexivity.
  - rewrite try_send_appends; auto.
    + simpl. rewrite IH.
      * simpl. rewrite <- app_assoc. reflexivity.
      * destruct Hroom as [?|Hroom]; auto. right.
        rewrite len_app, len_cons in *. unfold len at 2. simpl. lia.
    + destruct Hroom as [?|Hroom]; auto. right.
      rewrite len_cons in Hroom. pose proof (len_nonneg vs). lia.
Qed.

Lemma try_recv_times_pops fuel b (w : world T U) :
  0 < Cap ->
  try_recv_times dflt ndebug Cap fuel (length b) (mk_chan false b [] []) w
  = Ret (map (fun v => (ok, v)) b, mk_chan false [] [] [], w).
Proof.
  intros HCap. induction b as [|x b IH]; simpl.
  - reflexivity.
  - rewrite try_recv_pops by exact HCap. simpl. rewrite IH. reflexivity.
Qed.

(** X1: on an open channel of capacity at least 1 on which nobody waits,
    [try_send] of the values [vs] that fit returns [ok] for each and appends
    them to the buffer; as many [try_recv] as there are values then return
    the buffered values, the oldest first, each once, and leave the buffer
    empty; one more [try_recv] is [exhausted] and writes nothing. *)
Theorem buffered_values_are_received_in_order
    (fuel : nat) (cat : value_category) (b vs : list T) (value : T) (w : world T U) :
  0 < Cap ->
  Cap = unbounded_capacity \/ len b + len vs <= Cap ->
  try_send_all ndebug Cap cat vs (mk_chan false b [] []) w
  = Ret (map (fun _ => ok) vs, mk_chan false (b ++ vs) [] [], w) /\
  try_recv_times dflt ndebug Cap fuel (length (b ++ vs))
    (mk_chan false (b ++ vs) [] []) w
  = Ret (map (fun v => (ok, v)) (b ++ vs), mk_chan false [] [] [], w) /\
  try_recv dflt ndebug Cap fuel value (mk_chan false [] [] []) w
  = Ret (exhausted, value, mk_chan false [] [] [], w).
Proof.
  intros HCap Hroom. split; [|split].
  - apply try_send_all_appends; [lia | exact Hroom].
  - apply try_recv_times_pops. exact HCap.
  - apply try_recv_nothing.
Qed.

End Fifo.

(** ** Handing a value over to a waiting party *)

Section Handoff.

Context {T U : Type}.
Variable dflt : T.
Variable ndebug : bool.

Import bounded_channel.

Lemma give_to_receiver_skips_aborted cat v (pre q : list (recv_task T U)) (w : world T U) :
  Forall (fun a => recv_need_abort a w = (true, w)) pre ->
  give_to_receiver ndebug cat v [] (pre ++ q) w
  = give_to_receiver ndebug cat v [] q w.
Proof.
  induction 1 as [|a pre Ha _ IH]; simpl.
  - reflexivity.
  - rewrite assert_pass by apply orb_true_r. rewrite Ha. exact IH.
Qed.

Lemma take_from_sender_skips_aborted value buf (pre q : list (send_task T U))
    (w : world T U) :
  Forall (fun a => send_need_abort a w = (true, w)) pre ->
  take_from_sender ndebug 0 value buf (pre ++ q) w
  = take_from_sender ndebug 0 value buf q w.
Proof.
  assert (Hge : (len buf >=? 0) = true).
  { pose proof (len_nonneg buf). destruct (Z.geb_spec (len buf) 0); [reflexivity|lia]. }
  induction 1 as [|a pre Ha _ IH]; simpl.
  - reflexivity.
  - rewrite assert_pass by (rewrite Hge; apply orb_true_r). rewrite Ha. exact IH.
Qed.

(** X2: [try_send] on an open channel with an empty buffer hands the value to
    the first receiver that is not aborted: the aborted records before it are
    popped and their callbacks are not called, the callback of the live one is
    called once with [(true, value)] and its record is popped, the records
    behind it stay, nothing is buffered, and the call returns [ok], whatever
    the capacity. *)
Theorem try_send_hands_over_to_first_live_receiver
    (Cap : Z) (cat : value_category) (v : T)
    (pre rest : list (recv_task T U)) (task : recv_task T U)
    (sq : list (send_task T U)) (w w1 : world T U) :
  Forall (fun a => recv_need_abort a w = (true, w)) pre ->
  recv_need_abort task w = (false, w1) ->
  try_send ndebug Cap cat v (mk_chan false [] (pre ++ task :: rest) sq) w
  = Ret (ok, snd (forward cat v), mk_chan false [] rest sq,
         recv_execute task true v w1).
Proof.
  intros Hpre Hlive. unfold try_send, try_send_. simpl.
  rewrite assert_pass by apply orb_true_r.
  rewrite (give_to_receiver_skips_aborted cat v pre (task :: rest) w Hpre).
  simpl. rewrite assert_pass by apply orb_true_r. rewrite Hlive.
  destruct (Cap =? unbounded_capacity); destruct cat; reflexivity.
Qed.

(** X3: [try_recv] on an open channel of capacity 0 takes the value of the
    first sender that is not aborted: the aborted records before it are
    popped without their callbacks being called, the callback of the live one
    is called once with [ok = true] and writes the out-parameter, its record
    is popped, and the call returns [ok]. *)
Theorem try_recv_takes_from_first_live_sender
    (fuel : nat) (value v : T)
    (pre rest : list (send_task T U)) (task : send_task T U)
    (b : list T) (rq : list (recv_task T U)) (w w1 w2 : world T U) :
  Forall (fun a => send_need_abort a w = (true, w)) pre ->
  send_need_abort task w = (false, w1) ->
  send_execute task true value w1 = (v, w2) ->
  try_recv dflt ndebug 0 fuel value (mk_chan false b rq (pre ++ task :: rest)) w
  = Ret (ok, v, mk_chan false b rq rest, w2).
Proof.
  intros Hpre Hlive Hexec. unfold try_recv, try_recv_. simpl.
  rewrite assert_pass by apply orb_true_r.
  assert (Hge : (len b >=? 0) = true).
  { pose proof (len_nonneg b). destruct (Z.geb_spec (len b) 0); [reflexivity|lia]. }
  destruct (pre ++ task :: rest) as [|t0 q0] eqn:Eq.
  { destruct pre; discriminate. }
  rewrite assert_pass by apply orb_true_r.
  rewrite <- Eq. rewrite (take_from_sender_skips_aborted value b pre _ w Hpre).
  simpl. rewrite assert_pass by (rewrite Hge; apply orb_true_r).
  rewrite Hlive, Hexec. reflexivity.
Qed.

(** X4: on an open channel of capacity 0 where every record of the queues is
    aborted (in particular, where nobody waits), [try_send] and [try_recv]
    are [exhausted]: no callback is called, the value stays in the argument,
    the out-parameter is not written, nothing is buffered, and the aborted
    records of the queue that was searched are gone. *)
Theorem rendezvous_without_live_party_is_exhausted
    (fuel : nat) (cat : value_category) (v value : T)
    (rq : list (recv_task T U)) (sq : list (send_task T U)) (w : world T U) :
  Forall (fun a => recv_need_abort a w = (true, w)) rq ->
  Forall (fun a => send_need_abort a w = (true, w)) sq ->
  try_send ndebug 0 cat v (mk_chan false [] rq sq) w
  = Ret (exhausted, Some v, mk_chan false [] [] sq, w) /\
  try_recv dflt ndebug 0 fuel value (mk_chan false [] rq sq) w
  = Ret (exhausted, value, mk_chan false [] rq [], w).
Proof.
  intros Hr Hs. split.
  - unfold try_send, try_send_. simpl.
    rewrite assert_pass by apply orb_true_r.
    rewrite <- (app_nil_r rq).
    rewrite (give_to_receiver_skips_aborted cat v rq [] w Hr). reflexivity.
  - unfold try_recv, try_recv_. simpl.
    rewrite assert_pass by apply orb_true_r.
    destruct sq as [|t0 q0] eqn:Eq; [reflexivity|].
    rewrite assert_pass by apply orb_true_r.
    rewrite <- Eq in *. rewrite <- (app_nil_r sq).
    rewrite (take_from_sender_skips_aborted value [] sq [] w Hs). reflexivity.
Qed.

End Handoff.

(** ** A suspended call and the call that completes it *)

Section Rendezvous.

Context {T U : Type}.
Variable dflt : T.
Variable ndebug : bool.

Import bounded_channel.

Lemma frame_stop_requested_armed (fid : nat) (w : world T U) (fr : frame T) :
  frame_at fid w = Some fr -> fr_stop fr = false ->
  frame_stop_requested fid w = false.
Proof.
  unfold frame_at, frame_stop_requested. intros -> H. exact H.
Qed.

Lemma await_frame (fid : nat) (w : world T U) (ec : channel_errc) (slot : option T)
    (stop : bool) :
  frame_at fid w = Some (mk_frame slot (Some ec) false stop) ->
  await fid w = Some (ec, slot).
Proof. unfold frame_at, await. intros ->. reflexivity. Qed.

Lemma await_armed (fid : nat) (w : world T U) (fr : frame T) :
  frame_at fid w = Some fr -> fr_done fr = true -> await fid w = None.
Proof. unfold frame_at, await. intros -> ->. reflexivity. Qed.

(** X5: a blocking [recv] on an open channel where nothing is buffered and
    nobody waits is suspended, whatever the capacity; the next [try_send]
    returns [ok], buffers nothing and completes the suspended call: it
    returns [ok] with the value sent in its out-parameter, and the channel is
    empty again. *)
Theorem suspended_recv_is_completed_by_try_send
    (Cap : Z) (fuel : nat) (token : stop_token) (value v : T)
    (cat : value_category) (w : world T U) :
  stop_requested w token = false ->
  exists c1 w1 w2,
    recv dflt ndebug Cap fuel token value make_chan w
    = Ret (Suspended (length (frames w)), value, c1, w1) /\
    observe c1 = (false, [], 1%nat, 0%nat) /\
    await (length (frames w)) w1 = None /\
    try_send ndebug Cap cat v c1 w1
    = Ret (ok, snd (forward cat v), make_chan, w2) /\
    await (length (frames w)) w2 = Some (ok, Some v).
Proof.
  intros Hstop.
  set (fid := length (frames w)).
  set (fr := mk_frame (Some value) (@None channel_errc) true false).
  set (w1 := add_stop_callback token (on_cancel_blocked fid) (snd (new_frame fr w))).
  assert (Hfr : frame_at fid w1 = Some fr).
  { unfold w1. rewrite frame_at_add_stop_callback. apply (frame_at_new_frame fr w). }
  exists (mk_chan false [] [blocked_recv_task fid] []), w1,
    (recv_execute (blocked_recv_task fid) true v w1).
  split; [|split; [|split; [|split]]].
  - unfold recv, try_recv_. rewrite Hstop. simpl.
    rewrite assert_pass by apply orb_true_r.
    destruct (negb (Cap =? 0)); destruct (negb (Cap =? unbounded_capacity));
      reflexivity.
  - reflexivity.
  - eapply await_armed; eauto.
  - unfold try_send, try_send_. simpl.
    rewrite !assert_pass by apply orb_true_r.
    rewrite (frame_stop_requested_armed fid w1 fr Hfr eq_refl).
    destruct (Cap =? unbounded_capacity); destruct cat; reflexivity.
  - simpl. eapply await_frame.
    rewrite (frame_at_update_same fid _ w1 fr Hfr). reflexivity.
Qed.

(** X6: a blocking [send] on an open channel of capacity 0 where nobody waits is
    suspended with its value still in the argument; the next [try_recv]
    returns [ok] with that value and completes the suspended call: it returns
    [ok], its value moved from when it was passed as an rvalue, and the
    channel is empty again. *)
Theorem suspended_send_is_completed_by_try_recv
    (fuel : nat) (token : stop_token) (value v : T)
    (cat : value_category) (w : world T U) :
  stop_requested w token = false ->
  exists c1 w1 w2,
    send dflt ndebug 0 cat token v make_chan w
    = Ret (Suspended (length (frames w)), Some v, c1, w1) /\
    observe c1 = (false, [], 0%nat, 1%nat) /\
    await (length (frames w)) w1 = None /\
    try_recv dflt ndebug 0 fuel value c1 w1 = Ret (ok, v, make_chan, w2) /\
    await (length (frames w)) w2 = Some (ok, snd (forward cat v)).
Proof.
  intros Hstop.
  set (fid := length (frames w)).
  set (fr := mk_frame (Some v) (@None channel_errc) true false).
  set (w1 := add_stop_callback token (on_cancel_blocked fid) (snd (new_frame fr w))).
  assert (Hfr : frame_at fid w1 = Some fr).
  { unfold w1. rewrite frame_at_add_stop_callback. apply (frame_at_new_frame fr w). }
  exists (mk_chan false [] [] [blocked_send_task dflt cat fid]), w1,
    (snd (send_execute (blocked_send_task dflt cat fid) true value w1)).
  split; [|split; [|split; [|split]]].
  - unfold send, try_send_. rewrite Hstop. simpl.
    rewrite assert_pass by apply orb_true_r. reflexivity.
  - reflexivity.
  - eapply await_armed; eauto.
  - unfold try_recv, try_recv_. simpl.
    rewrite !assert_pass by apply orb_true_r.
    rewrite (frame_stop_requested_armed fid w1 fr Hfr eq_refl).
    unfold frame_at in Hfr. rewrite Hfr. destruct cat; reflexivity.
  - simpl. unfold frame_at in Hfr. rewrite Hfr.
    destruct cat; simpl; eapply await_frame;
      rewrite (frame_at_update_same fid _ w1 fr Hfr); reflexivity.
Qed.

End Rendezvous.

(** ** Canceling a suspended call *)

Section Cancellation.

Context {T U : Type}.
Variable dflt : T.
Variable ndebug : bool.

Import bounded_channel.

Lemma run_stop_callback_stops (cb : stop_callback) (w : world T U) :
  stops (run_stop_callback cb w) = stops w.
Proof.
  destruct cb as [gid|cid]; simpl.
  - unfold cancel_blocked, update_frame.
    destruct (frame_stop_requested gid w); [reflexivity|].
    destruct (nth_error (frames w) gid); reflexivity.
  - unfold cancel_select. destruct (nth_error (ctxs w) cid) as [c|]; [|reflexivity].
    destruct (is_done c); reflexivity.
Qed.

Lemma run_stop_callbacks_stops (cbs : list stop_callback) (w : world T U) :
  stops (fold_left (fun w' cb => run_stop_callback cb w') cbs w) = stops w.
Proof.
  revert w. induction cbs as [|cb cbs IH]; intros w; simpl.
  - reflexivity.
  - rewrite IH. apply run_stop_callback_stops.
Qed.

(** A callback leaves the frame of another call alone, and cancels an armed
    frame of its own call once. *)
Lemma run_stop_callback_frame (fid : nat) (fr : frame T) (cb : stop_callback)
    (w : world T U) :
  fr_stop fr = false ->
  frame_at fid w = Some fr \/ frame_at fid w = Some (canceled_frame fr) ->
  frame_at fid (run_stop_callback cb w) = Some fr
  \/ frame_at fid (run_stop_callback cb w) = Some (canceled_frame fr).
Proof.
  intros Harmed H. destruct cb as [gid|cid]; simpl.
  - unfold cancel_blocked. destruct (Nat.eq_dec gid fid) as [->|Hne].
    + destruct H as [H|H].
      * rewrite (frame_stop_requested_armed fid w fr H Harmed). right.
        rewrite (frame_at_update_same fid _ w fr H). reflexivity.
      * unfold frame_stop_requested. unfold frame_at in H. rewrite H. simpl.
        right. exact H.
    + destruct (frame_stop_requested gid w); [exact H|].
      rewrite frame_at_update_other by exact Hne. exact H.
  - unfold cancel_select. destruct (nth_error (ctxs w) cid) as [c|]; [|exact H].
    destruct (is_done c); exact H.
Qed.

Lemma run_stop_callbacks_frame (fid : nat) (fr : frame T) (cbs : list stop_callback)
    (w : world T U) :
  fr_stop fr = false ->
  frame_at fid w = Some fr \/ frame_at fid w = Some (canceled_frame fr) ->
  frame_at fid (fold_left (fun w' cb => run_stop_callback cb w') cbs w) = Some fr
  \/ frame_at fid (fold_left (fun w' cb => run_stop_callback cb w') cbs w)
     = Some (canceled_frame fr).
Proof.
  intros Harmed. revert w. induction cbs as [|cb cbs IH]; intros w H; simpl.
  - exact H.
  - apply IH. apply run_stop_callback_frame; assumption.
Qed.

(** Tripping the source of a token on which [on_cancel] of the frame [fid]
    was registered last leaves that frame canceled. *)
Lemma request_stop_cancels_frame (i fid : nat) (fr : frame T) (s : stop_state)
    (w : world T U) :
  fr_stop fr = false ->
  nth_error (stops w) i = Some s -> requested s = false ->
  frame_at fid w = Some fr ->
  let w2 := request_stop i (add_stop_callback (Some i) (on_cancel_blocked fid) w) in
  frame_at fid w2 = Some (canceled_frame fr) /\ stop_requested w2 (Some i) = true.
Proof.
  intros Harmed Hs Hreq Hfr. simpl.
  unfold add_stop_callback. rewrite Hs.
  unfold request_stop. simpl.
  rewrite (nth_error_list_set_same (stops w) i _ s Hs). simpl. rewrite Hreq.
  rewrite fold_left_app. simpl.
  split.
  - match goal with
    | |- frame_at fid (cancel_blocked fid ?x) = _ =>
        assert (H : frame_at fid x = Some fr \/ frame_at fid x = Some (canceled_frame fr))
    end.
    { apply run_stop_callbacks_frame; [exact Harmed|]. left. exact Hfr. }
    unfold cancel_blocked. destruct H as [H|H].
    + rewrite (frame_stop_requested_armed fid _ fr H Harmed).
      rewrite (frame_at_update_same fid _ _ fr H). reflexivity.
    + unfold frame_stop_requested. unfold frame_at in H. rewrite H. simpl. exact H.
  - unfold stop_requested.
    pose proof (run_stop_callback_stops (on_cancel_blocked fid)) as Hcb.
    simpl in Hcb. rewrite Hcb.
    rewrite run_stop_callbacks_stops. simpl.
    rewrite (nth_error_list_set_same _ i _ (mk_stop_state false
               (callbacks s ++ [on_cancel_blocked fid]))).
    + reflexivity.
    + eapply nth_error_list_set_same; eauto.
Qed.

(** X7: a blocking [recv] is suspended on an empty open channel with a token
    that is not stop-requested; when the source of the token is tripped, the
    call returns [canceled] with its out-parameter as it was.  Its record is
    still in the queue but aborted: a later [try_send] pops it without giving
    it anything, and [size()] does not count it.  The same holds for a
    blocking [send] on a channel of capacity 0: it returns [canceled] with its
    value still in the argument, and a later [try_recv] is [exhausted]. *)
Theorem canceled_suspended_call_returns_canceled
    (Cap : Z) (fuel : nat) (i : nat) (s : stop_state) (value v : T)
    (cat : value_category) (w : world T U) :
  nth_error (stops w) i = Some s ->
  requested s = false ->
  (exists c1 w1,
     recv dflt ndebug Cap fuel (Some i) value make_chan w
     = Ret (Suspended (length (frames w)), value, c1, w1) /\
     await (length (frames w)) (request_stop i w1) = Some (canceled, Some value) /\
     stop_requested (request_stop i w1) (Some i) = true /\
     fst (fst (size Cap c1 (request_stop i w1))) = 0 /\
     exists ec arg c3,
       try_send ndebug Cap cat v c1 (request_stop i w1)
       = Ret (ec, arg, c3, request_stop i w1) /\
       hanged_recv_tasks c3 = []) /\
  (exists c1 w1,
     send dflt ndebug 0 cat (Some i) v make_chan w
     = Ret (Suspended (length (frames w)), Some v, c1, w1) /\
     await (length (frames w)) (request_stop i w1) = Some (canceled, Some v) /\
     fst (fst (size 0 c1 (request_stop i w1))) = 0 /\
     try_recv dflt ndebug 0 fuel value c1 (request_stop i w1)
     = Ret (exhausted, value, make_chan, request_stop i w1)).
Proof.
  intros Hs Hreq.
  assert (Hstop : stop_requested w (Some i) = false).
  { unfold stop_requested. rewrite Hs. exact Hreq. }
  set (fid := length (frames w)).
  split.
  - set (fr := mk_frame (Some value) (@None channel_errc) true false).
    set (w0 := snd (new_frame fr w)).
    exists (mk_chan false [] [blocked_recv_task fid] []),
      (add_stop_callback (Some i) (on_cancel_blocked fid) w0).
    destruct (request_stop_cancels_frame i fid fr s w0 eq_refl Hs Hreq
                (frame_at_new_frame fr w)) as [Hfr Hreq2].
    set (w2 := request_stop i (add_stop_callback (Some i) (on_cancel_blocked fid) w0))
      in *.
    assert (Haborted : frame_stop_requested fid w2 = true).
    { unfold frame_stop_requested. unfold frame_at in Hfr. rewrite Hfr. reflexivity. }
    split; [|split; [|split; [|split]]].
    + unfold recv, try_recv_. rewrite Hstop. simpl.
      rewrite assert_pass by apply orb_true_r.
      destruct (negb (Cap =? 0)); destruct (negb (Cap =? unbounded_capacity));
        reflexivity.
    + eapply await_frame. exact Hfr.
    + exact Hreq2.
    + unfold size. simpl. rewrite Haborted. simpl.
      destruct (negb (Cap =? unbounded_capacity)); reflexivity.
    + unfold try_send, try_send_. simpl.
      rewrite !assert_pass by apply orb_true_r. rewrite Haborted. simpl.
      destruct (Cap =? unbounded_capacity); simpl;
        destruct (Cap =? 0); simpl; try destruct (len [] >=? Cap);
        destruct cat; simpl; eauto.
  - set (fr := mk_frame (Some v) (@None channel_errc) true false).
    set (w0 := snd (new_frame fr w)).
    exists (mk_chan false [] [] [blocked_send_task dflt cat fid]),
      (add_stop_callback (Some i) (on_cancel_blocked fid) w0).
    destruct (request_stop_cancels_frame i fid fr s w0 eq_refl Hs Hreq
                (frame_at_new_frame fr w)) as [Hfr Hreq2].
    set (w2 := request_stop i (add_stop_callback (Some i) (on_cancel_blocked fid) w0))
      in *.
    assert (Haborted : frame_stop_requested fid w2 = true).
    { unfold frame_stop_requested. unfold frame_at in Hfr. rewrite Hfr. reflexivity. }
    split; [|split; [|split]].
    + unfold send, try_send_. rewrite Hstop. simpl.
      rewrite assert_pass by apply orb_true_r. reflexivity.
    + eapply await_frame. exact Hfr.
    + unfold size. simpl. rewrite Haborted. reflexivity.
    + unfold try_recv, try_recv_. simpl.
      rewrite !assert_pass by apply orb_true_r. rewrite Haborted. reflexivity.
Qed.

End Cancellation.

(** ** [close] and the suspended calls *)

Section CloseWakesAll.

Context {T U : Type}.
Variable dflt : T.

Import bounded_channel.

Lemma close_recv_tasks_blocked (v : T) (fids : list nat) (w : world T U) :
  NoDup fids ->
  (forall f, In f fids -> exists fr, frame_at f w = Some fr /\ fr_stop fr = false) ->
  (forall f fr, In f fids -> frame_at f w = Some fr ->
     frame_at f (close_recv_tasks v (map blocked_recv_task fids) w)
     = Some (closed_frame fr)) /\
  (forall g, ~ In g fids ->
     frame_at g (close_recv_tasks v (map blocked_recv_task fids) w) = frame_at g w).
Proof.
  intros Hnd. revert w. induction Hnd as [|f fids Hnotin Hnd IH]; intros w Harmed.
  - split; [intros f fr []|reflexivity].
  - destruct (Harmed f (or_introl eq_refl)) as (fr0 & Hf & Hst).
    simpl. rewrite (frame_stop_requested_armed f w fr0 Hf Hst). simpl.
    set (wa := update_frame f
                 (fun fr => mk_frame (fr_value fr) (Some closed) false true) w).
    assert (Hother : forall g, g <> f -> frame_at g wa = frame_at g w).
    { intros g Hg. unfold wa. apply frame_at_update_other. congruence. }
    destruct (IH wa) as [IH1 IH2].
    { intros g Hg. destruct (Harmed g (or_intror Hg)) as (fr & Hfr & Hs).
      exists fr. split; [|exact Hs]. rewrite Hother; [exact Hfr|].
      intros ->. contradiction. }
    split.
    + intros g fr [<-|Hg] Hfr.
      * rewrite IH2 by exact Hnotin. unfold wa.
        rewrite (frame_at_update_same f _ w fr Hfr). reflexivity.
      * apply IH1; [exact Hg|]. rewrite Hother; [exact Hfr|].
        intros ->. contradiction.
    + intros g Hg. rewrite IH2 by (intros Hin; apply Hg; right; exact Hin).
      apply Hother. intros ->. apply Hg. left. reflexivity.
Qed.

Lemma close_send_tasks_blocked (cat : value_category) (v : T) (fids : list nat)
    (w : world T U) :
  NoDup fids ->
  (forall f, In f fids -> exists fr, frame_at f w = Some fr /\ fr_stop fr = false) ->
  (forall f fr, In f fids -> frame_at f w = Some fr ->
     frame_at f (close_send_tasks v (map (blocked_send_task dflt cat) fids) w)
     = Some (closed_frame fr)) /\
  (forall g, ~ In g fids ->
     frame_at g (close_send_tasks v (map (blocked_send_task dflt cat) fids) w)
     = frame_at g w).
Proof.
  intros Hnd. revert w. induction Hnd as [|f fids Hnotin Hnd IH]; intros w Harmed.
  - split; [intros f fr []|reflexivity].
  - destruct (Harmed f (or_introl eq_refl)) as (fr0 & Hf & Hst).
    simpl. rewrite (frame_stop_requested_armed f w fr0 Hf Hst). simpl.
    pose proof Hf as Hf'. unfold frame_at in Hf'. rewrite Hf'.
    set (wa := update_frame f
                 (fun fr => mk_frame (fr_value fr) (Some closed) false true) w).
    assert (Hother : forall g, g <> f -> frame_at g wa = frame_at g w).
    { intros g Hg. unfold wa. apply frame_at_update_other. congruence. }
    destruct (IH wa) as [IH1 IH2].
    { intros g Hg. destruct (Harmed g (or_intror Hg)) as (fr & Hfr & Hs).
      exists fr. split; [|exact Hs]. rewrite Hother; [exact Hfr|].
      intros ->. contradiction. }
    split.
    + intros g fr [<-|Hg] Hfr.
      * rewrite IH2 by exact Hnotin. unfold wa.
        rewrite (frame_at_update_same f _ w fr Hfr). reflexivity.
      * apply IH1; [exact Hg|]. rewrite Hother; [exact Hfr|].
        intros ->. contradiction.
    + intros g Hg. rewrite IH2 by (intros Hin; apply Hg; right; exact Hin).
      apply Hother. intros ->. apply Hg. left. reflexivity.
Qed.

(** X8: [close] wakes every suspended call: on a channel that is not unbounded
    and whose queues hold the records of suspended blocking [recv] and [send]
    calls, each with its own armed frame, [close] sets the closed flag, keeps
    the buffer, empties both queues and completes every one of these calls
    with [closed]: the out-parameter of a receiver and the value of a sender
    are as they were, and no other frame is touched. *)
Theorem close_completes_suspended_calls_with_closed
    (Cap : Z) (cat : value_category) (is_closed : bool) (b : list T)
    (rf sf : list nat) (w : world T U) :
  Cap <> unbounded_capacity ->
  NoDup (rf ++ sf) ->
  (forall f, In f (rf ++ sf) -> exists fr, frame_at f w = Some fr /\ fr_stop fr = false) ->
  exists w',
    close dflt Cap
      (mk_chan is_closed b (map blocked_recv_task rf)
         (map (blocked_send_task dflt cat) sf)) w
    = (mk_chan true b [] [], w') /\
    (forall f fr, In f (rf ++ sf) -> frame_at f w = Some fr ->
       frame_at f w' = Some (closed_frame fr) /\ await f w' = Some (closed, fr_value fr)) /\
    (forall g, ~ In g (rf ++ sf) -> frame_at g w' = frame_at g w).
Proof.
  intros HCap Hnd Harmed.
  assert (Hndr : NoDup rf) by (eapply NoDup_app_remove_r; eauto).
  assert (Hnds : NoDup sf) by (eapply NoDup_app_remove_l; eauto).
  assert (Hdisj : forall f, In f rf -> ~ In f sf).
  { intros f Hr Hs. revert Hnd Hr Hs. clear. induction rf as [|x rf IH]; simpl.
    - intros _ [].
    - intros Hnd [<-|Hr] Hs.
      + inversion Hnd; subst. apply H1. apply in_or_app. right. exact Hs.
      + inversion Hnd; subst. eauto. }
  destruct (close_recv_tasks_blocked dflt rf w Hndr) as [R1 R2].
  { intros f Hf. apply Harmed. apply in_or_app. left. exact Hf. }
  set (w1 := close_recv_tasks dflt (map blocked_recv_task rf) w) in *.
  destruct (close_send_tasks_blocked cat dflt sf w1 Hnds) as [S1 S2].
  { intros f Hf. destruct (Harmed f) as (fr & Hfr & Hs).
    - apply in_or_app. right. exact Hf.
    - exists fr. split; [|exact Hs]. rewrite R2; [exact Hfr|].
      intros Hr. exact (Hdisj f Hr Hf). }
  set (w2 := close_send_tasks dflt (map (blocked_send_task dflt cat) sf) w1) in *.
  exists w2. split; [|split].
  - unfold close. simpl. destruct (Z.eqb_spec Cap unbounded_capacity); [contradiction|].
    reflexivity.
  - intros f fr Hin Hfr.
    assert (Hframe : frame_at f w2 = Some (closed_frame fr)).
    { apply in_app_or in Hin. destruct Hin as [Hr|Hs].
      - rewrite S2 by (exact (Hdisj f Hr)). apply R1; assumption.
      - apply S1; [exact Hs|]. rewrite R2; [exact Hfr|].
        intros Hr. exact (Hdisj f Hr Hs). }
    split; [exact Hframe|]. eapply await_frame. exact Hframe.
  - intros g Hg. rewrite S2, R2; [reflexivity| |];
      intros Hin; apply Hg; apply in_or_app; auto.
Qed.

End CloseWakesAll.

(** ** [select]: the fallback, the scheduling and the commit gate *)

Section SelectBranches.

Context {T U : Type}.
Variable dflt : T.
Variable ndebug : bool.

Local Abbreviation op := (@select_hpp.op T U).
Local Abbreviation system := (@select_hpp.system T U).

Lemma all_exhausted_length fuel (ops ops' : list op) (s s' : system) :
  all_exhausted dflt ndebug fuel ops s ops' s' -> length ops' = length ops.
Proof. induction 1; simpl; congruence. Qed.

Lemma greedy_pass_nothing_ready fuel (ops ops' : list op) (s s1 : system) :
  all_exhausted dflt ndebug fuel ops s ops' s1 ->
  select_hpp.greedy_pass dflt ndebug fuel false 0 ops s
  = Ret (false, ops', s1, map select_hpp.called_try_execute (seq 0 (length ops))).
Proof.
  intros H.
  pose proof (greedy_pass_all_exhausted dflt ndebug fuel 0 ops ops' [] s s1 H) as G.
  rewrite !app_nil_r in G. rewrite G. simpl. rewrite !app_nil_r. reflexivity.
Qed.

(** X9: when no operation is ready and a fallback is given, [select] calls
    [try_execute] once on every operation, in order, then calls the fallback
    once and returns: nothing is scheduled and no channel has a new
    waiter. *)
Theorem select_calls_fallback_when_nothing_is_ready
    (fuel : nat) (token : stop_token) (f : world T U -> world T U)
    (ops ops' : list op) (s s1 : system) :
  all_exhausted dflt ndebug fuel ops s ops' s1 ->
  select_hpp.select dflt ndebug fuel token ops (Some f) s
  = Ret (select_hpp.Returned, ops',
         select_hpp.mk_system (select_hpp.chans s1) (f (select_hpp.wld s1)),
         map select_hpp.called_try_execute (seq 0 (length ops))
           ++ [select_hpp.called_fallback]) /\
  Forall2 no_new_waiter (select_hpp.chans s) (select_hpp.chans s1).
Proof.
  intros H. split.
  - unfold select_hpp.select. rewrite (greedy_pass_nothing_ready fuel ops ops' s s1 H).
    reflexivity.
  - eapply all_exhausted_no_new_waiter; eauto.
Qed.

Lemma list_set_same {A : Type} (l : list A) (i : nat) (x : A) :
  nth_error l i = Some x -> list_set i x l = l.
Proof.
  revert i. induction l as [|y l IH]; intros [|i] H; simpl in *;
    try discriminate; try reflexivity.
  - inversion H; subst. reflexivity.
  - f_equal. apply IH. exact H.
Qed.

Lemma idle_at_hang_recv (chans : list (@select_hpp.chan_object T U)) (i j : nat)
    (task : recv_task T U) (o : @select_hpp.chan_object T U) :
  nth_error chans i = Some o -> idle_for_recv o ->
  idle_at chans j -> idle_at (list_set i (hang_recv task o) chans) j.
Proof.
  intros Hi Ho (oj & Hj & Hoj). destruct (Nat.eq_dec i j) as [<-|Hne].
  - exists (hang_recv task o). split.
    + eapply nth_error_list_set_same; eauto.
    + destruct o; simpl in *; auto.
  - exists oj. split; [|exact Hoj].
    rewrite nth_error_list_set_other by exact Hne. exact Hj.
Qed.

(** A receive on an idle channel is exhausted and changes nothing. *)
Lemma try_execute_recv_idle fuel (i : nat)
    (cb : bool -> T -> world T U -> world T U) (s : system)
    (o : @select_hpp.chan_object T U) :
  nth_error (select_hpp.chans s) i = Some o -> idle_for_recv o ->
  select_hpp.try_execute dflt ndebug fuel (select_hpp.recv i cb) s
  = Ret (false, select_hpp.recv i cb, s).
Proof.
  intros Hi Hidle. destruct s as [chans w].
  unfold select_hpp.try_execute, select_hpp.call_try_recv, select_hpp.set_chan.
  simpl in *. rewrite Hi.
  destruct o as [Cap c|c]; simpl in Hidle.
  - destruct c as [cl buf rq sq]. simpl in Hidle.
    destruct Hidle as (-> & -> & ->).
    unfold bounded_channel.try_recv, bounded_channel.try_recv_. simpl.
    rewrite assert_pass by apply orb_true_r.
    destruct (negb (Cap =? 0)), (negb (Cap =? unbounded_capacity)); simpl;
      rewrite (list_set_same _ _ _ Hi); reflexivity.
  - destruct c as [cl buf rq]. simpl in Hidle. destruct Hidle as (-> & ->).
    simpl. rewrite (list_set_same _ _ _ Hi). reflexivity.
Qed.

(** Scheduled on an idle channel, a receive is registered at the back of
    the queue; nothing is called. *)
Lemma schedule_recv_idle fuel (i : nat)
    (cb : bool -> T -> world T U -> world T U)
    (need_abort : world T U -> bool * world T U) (s : system)
    (o : @select_hpp.chan_object T U) :
  nth_error (select_hpp.chans s) i = Some o -> idle_for_recv o ->
  select_hpp.schedule dflt ndebug fuel (select_hpp.recv i cb) need_abort s
  = Ret (select_hpp.recv i cb,
         select_hpp.mk_system
           (list_set i (hang_recv (mk_recv_task need_abort cb) o) (select_hpp.chans s))
           (select_hpp.wld s)).
Proof.
  intros Hi Hidle. destruct s as [chans w].
  unfold select_hpp.schedule, select_hpp.call_recv_sched, select_hpp.set_chan.
  simpl in *. rewrite Hi.
  destruct o as [Cap c|c]; simpl in Hidle.
  - destruct c as [cl buf rq sq]. simpl in Hidle.
    destruct Hidle as (-> & -> & ->).
    unfold bounded_channel.recv_sched, bounded_channel.try_recv_. simpl.
    rewrite assert_pass by apply orb_true_r.
    destruct (negb (Cap =? 0)), (negb (Cap =? unbounded_capacity)); reflexivity.
  - destruct c as [cl buf rq]. simpl in Hidle. destruct Hidle as (-> & ->).
    reflexivity.
Qed.

Lemma recv_ops_all_exhausted fuel
    (rs : list (nat * (bool -> T -> world T U -> world T U))) (s : system) :
  Forall (fun r => idle_at (select_hpp.chans s) (fst r)) rs ->
  all_exhausted dflt ndebug fuel (recv_ops rs) s (recv_ops rs) s.
Proof.
  intros Hrs. induction Hrs as [|r rs (o & Ho & Hio) _ IH]; simpl.
  - constructor.
  - econstructor; [|exact IH].
    eapply try_execute_recv_idle; eauto.
Qed.

Lemma schedule_all_recv_ops fuel (cid : nat)
    (rs : list (nat * (bool -> T -> world T U -> world T U))) :
  forall (i : nat) (s : system),
    Forall (fun r => idle_at (select_hpp.chans s) (fst r)) rs ->
    select_hpp.context_is_done cid (select_hpp.wld s) = false ->
    select_hpp.schedule_all dflt ndebug fuel cid i (recv_ops rs) s
    = Ret (true, recv_ops rs,
           select_hpp.mk_system
             (with_receivers (select_hpp.select_need_abort cid) rs (select_hpp.chans s))
             (select_hpp.wld s),
           map select_hpp.called_schedule (seq i (length rs))).
Proof.
  induction rs as [|r rs IH]; intros i s Hrs Hopen.
  - destruct s. reflexivity.
  - inversion Hrs as [|r0 rs0 (o & Ho & Hio) Hrs']; subst.
    unfold recv_ops. cbn [map select_hpp.schedule_all]. fold (recv_ops rs).
    rewrite (schedule_recv_idle fuel (fst r) (snd r) _ s o Ho Hio).
    cbn [bind select_hpp.wld]. rewrite Hopen.
    rewrite IH; cbn [select_hpp.wld select_hpp.chans].
    + cbn [bind with_receivers length seq map]. rewrite Ho. reflexivity.
    + eapply Forall_impl; [|exact Hrs']. intros r' Hr'.
      apply idle_at_hang_recv; assumption.
    + exact Hopen.
Qed.

Lemma stop_requested_with_context (token : stop_token) (w : world T U)
    (cs : list sched_context) :
  stop_requested (set_ctxs cs w) token = stop_requested w token.
Proof. destruct token; reflexivity. Qed.

Lemma ctxs_add_stop_callback (token : stop_token) (cb : stop_callback) (w : world T U) :
  ctxs (add_stop_callback token cb w) = ctxs w.
Proof.
  unfold add_stop_callback. destruct token as [i|]; [|reflexivity].
  destruct (nth_error (stops w) i); reflexivity.
Qed.

Lemma fresh_context_is_open (token : stop_token) (w : world T U) :
  nth_error (ctxs (with_fresh_context token w)) (length (ctxs w))
  = Some (mk_sched_context false true).
Proof.
  unfold with_fresh_context. rewrite ctxs_add_stop_callback. simpl.
  rewrite nth_error_app2 by lia. rewrite Nat.sub_diag. reflexivity.
Qed.

(** X10: [select] over receives only, on channels that are open, hold no
    value and have no suspended sender, without fallback and with a token
    that is not stop-requested.  Every receive is tried once, in order, and
    is exhausted; then a fresh context is created and every receive is
    scheduled once, in order: each leaves one record at the back of the queue
    of receivers of its channel, with the abort predicate of the context and
    its own callback.  No callback is called and nothing else changes.  The
    call does not return: it waits on [done]. *)
Theorem select_registers_its_receives_and_waits
    (fuel : nat) (token : stop_token)
    (rs : list (nat * (bool -> T -> world T U -> world T U))) (s : system) :
  Forall (fun r => idle_at (select_hpp.chans s) (fst r)) rs ->
  stop_requested (select_hpp.wld s) token = false ->
  select_hpp.select dflt ndebug fuel token (recv_ops rs) None s
  = Ret (select_hpp.Waiting (length (ctxs (select_hpp.wld s))),
         recv_ops rs,
         select_hpp.mk_system
           (with_receivers
              (select_hpp.select_need_abort (length (ctxs (select_hpp.wld s))))
              rs (select_hpp.chans s))
           (with_fresh_context token (select_hpp.wld s)),
         map select_hpp.called_try_execute (seq 0 (length rs))
           ++ map select_hpp.called_schedule (seq 0 (length rs))).
Proof.
  intros Hrs Hstop. unfold select_hpp.select.
  rewrite (greedy_pass_nothing_ready fuel _ _ s s
             (recv_ops_all_exhausted fuel rs s Hrs)).
  simpl. rewrite stop_requested_with_context, Hstop.
  fold (with_fresh_context token (select_hpp.wld s)).
  rewrite schedule_all_recv_ops; simpl; auto.
  - rewrite fresh_context_is_open. simpl.
    unfold recv_ops. rewrite length_map. reflexivity.
  - unfold select_hpp.context_is_done. rewrite fresh_context_is_open. reflexivity.
Qed.

(** The closure [need_abort] of [select] as a commit gate. *)
Lemma select_need_abort_open (cid : nat) (w : world T U) (c : sched_context) :
  nth_error (ctxs w) cid = Some c -> is_done c = false ->
  select_hpp.select_need_abort cid w
  = (false, set_ctxs (list_set cid (mk_sched_context true false) (ctxs w)) w).
Proof. unfold select_hpp.select_need_abort. intros -> ->. reflexivity. Qed.

Lemma select_need_abort_shut (cid : nat) (w : world T U) (c : sched_context) :
  nth_error (ctxs w) cid = Some c -> is_done c = true ->
  select_hpp.select_need_abort cid w = (true, w).
Proof. unfold select_hpp.select_need_abort. intros -> ->. reflexivity. Qed.

Lemma context_is_done_of (cid : nat) (w : world T U) (c : sched_context) :
  nth_error (ctxs w) cid = Some c ->
  select_hpp.context_is_done cid w = is_done c.
Proof. unfold select_hpp.context_is_done. intros ->. reflexivity. Qed.


Lemma ctxs_update_frame (fid : nat) (f : frame T -> frame T) (w : world T U) :
  ctxs (update_frame fid f w) = ctxs w.
Proof. unfold update_frame. destruct (nth_error (frames w) fid); reflexivity. Qed.

(** Scheduled on an open channel of capacity 0 without receivers, a send
    is registered at the back of the queue of senders; nothing is called. *)
Lemma schedule_send_without_receiver fuel (i : nat) (cat : value_category) (v : T)
    (cb : bool -> world T U -> world T U)
    (need_abort : world T U -> bool * world T U) (s : system)
    (buf : list T) (sq : list (send_task T U)) :
  nth_error (select_hpp.chans s) i
  = Some (select_hpp.bounded 0 (bounded_channel.mk_chan false buf [] sq)) ->
  select_hpp.schedule dflt ndebug fuel (select_hpp.send i cat (Some v) cb) need_abort s
  = Ret (select_hpp.send i cat (Some v) cb,
         select_hpp.mk_system
           (list_set i
              (select_hpp.bounded 0
                 (bounded_channel.mk_chan false buf []
                    (sq ++ [bounded_channel.sched_send_task dflt cat
                              (length (frames (select_hpp.wld s))) need_abort cb])))
              (select_hpp.chans s))
           (snd (new_frame (mk_frame (Some v) None false false) (select_hpp.wld s)))).
Proof.
  intros Hi. destruct s as [chans w]. simpl in *.
  unfold select_hpp.schedule, select_hpp.call_send_sched, select_hpp.set_chan.
  simpl. rewrite Hi.
  unfold bounded_channel.send_sched, bounded_channel.try_send_. simpl.
  rewrite assert_pass by apply orb_true_r. reflexivity.
Qed.

(** A receive scheduled on a channel of capacity 0 asks the abort predicate
    of the sender at the front of the queue. *)
Lemma schedule_recv_asks_the_sender fuel (i cid fid : nat) (cat : value_category)
    (on_sent : bool -> world T U -> world T U)
    (on_received : bool -> T -> world T U -> world T U) (s : system)
    (sq : list (send_task T U)) (c : sched_context) :
  nth_error (select_hpp.chans s) i
  = Some (select_hpp.bounded 0
            (bounded_channel.mk_chan false [] []
               (bounded_channel.sched_send_task dflt cat fid
                  (select_hpp.select_need_abort cid) on_sent :: sq))) ->
  nth_error (ctxs (select_hpp.wld s)) cid = Some c -> is_done c = false ->
  (forall success w, ctxs (on_sent success w) = ctxs w) ->
  (forall success x w, ctxs (on_received success x w) = ctxs w) ->
  exists o' s',
    select_hpp.schedule dflt ndebug fuel (select_hpp.recv i on_received)
      (select_hpp.select_need_abort cid) s = Ret (o', s') /\
    select_hpp.context_is_done cid (select_hpp.wld s') = true.
Proof.
  intros Hi Hc Hopen Hsent Hrecv. destruct s as [chans w]. simpl in *.
  unfold select_hpp.schedule, select_hpp.call_recv_sched, select_hpp.set_chan.
  simpl. rewrite Hi.
  unfold bounded_channel.recv_sched, bounded_channel.try_recv_. simpl.
  rewrite !assert_pass by apply orb_true_r. simpl.
  rewrite ?assert_pass by apply orb_true_r.
  rewrite (select_need_abort_open cid w c Hc Hopen).
  set (w1 := set_ctxs (list_set cid (mk_sched_context true false) (ctxs w)) w).
  assert (Hw1 : nth_error (ctxs w1) cid = Some (mk_sched_context true false))
    by (unfold w1; simpl; eapply nth_error_list_set_same; eauto).
  destruct (nth_error (frames w1) fid) as [fr|] eqn:Efr.
  - destruct (forward cat (bounded_channel.read_value dflt fr)) as [x arg] eqn:Ef.
    simpl. try rewrite Efr. try rewrite Ef. simpl.
    eexists _, _. split; [reflexivity|]. simpl.
    erewrite context_is_done_of
      by (rewrite Hrecv, Hsent, ctxs_update_frame; exact Hw1).
    reflexivity.
  - simpl. try rewrite Efr. simpl.
    eexists _, _. split; [reflexivity|]. simpl.
    erewrite context_is_done_of by (rewrite Hrecv, Hsent; exact Hw1).
    reflexivity.
Qed.

(** A send scheduled on a channel of capacity 0 asks the abort predicate of
    the receiver at the front of the queue. *)
Lemma schedule_send_asks_the_receiver fuel (i cid : nat) (cat : value_category) (v : T)
    (on_sent : bool -> world T U -> world T U)
    (on_received : bool -> T -> world T U -> world T U) (s : system)
    (rq : list (recv_task T U)) (sq : list (send_task T U)) (c : sched_context) :
  nth_error (select_hpp.chans s) i
  = Some (select_hpp.bounded 0
            (bounded_channel.mk_chan false []
               (mk_recv_task (select_hpp.select_need_abort cid) on_received :: rq) sq)) ->
  nth_error (ctxs (select_hpp.wld s)) cid = Some c -> is_done c = false ->
  (forall success w, ctxs (on_sent success w) = ctxs w) ->
  (forall success x w, ctxs (on_received success x w) = ctxs w) ->
  exists o' s',
    select_hpp.schedule dflt ndebug fuel (select_hpp.send i cat (Some v) on_sent)
      (select_hpp.select_need_abort cid) s = Ret (o', s') /\
    select_hpp.context_is_done cid (select_hpp.wld s') = true.
Proof.
  intros Hi Hc Hopen Hsent Hrecv. destruct s as [chans w]. simpl in *.
  unfold select_hpp.schedule, select_hpp.call_send_sched, select_hpp.set_chan.
  simpl. rewrite Hi.
  unfold bounded_channel.send_sched, bounded_channel.try_send_. simpl.
  rewrite !assert_pass by apply orb_true_r. simpl.
  rewrite ?assert_pass by apply orb_true_r.
  rewrite (select_need_abort_open cid w c Hc Hopen).
  set (w1 := set_ctxs (list_set cid (mk_sched_context true false) (ctxs w)) w).
  assert (Hw1 : nth_error (ctxs w1) cid = Some (mk_sched_context true false))
    by (unfold w1; simpl; eapply nth_error_list_set_same; eauto).
  destruct (forward cat v) as [x arg] eqn:Ef. simpl.
  eexists _, _. split; [reflexivity|]. simpl.
  erewrite context_is_done_of by (rewrite Hsent, Hrecv; exact Hw1).
  reflexivity.
Qed.

(** X19: [select] over a send and a receive on one and the same open channel
    of capacity 0 on which nobody waits, in either order, without fallback
    and with a token that is not stop-requested, does not return.  Both
    operations are tried and are exhausted.  The first one is scheduled and
    leaves its record in its queue.  The second one, scheduled, finds this
    record at the front of the other queue and asks its abort predicate,
    which locks the mutex of the context: the calling thread holds it since
    before it began to schedule.  No callback has been called. *)
Theorem select_of_send_and_recv_on_one_channel_is_stuck
    (fuel : nat) (token : stop_token) (i : nat) (cat : value_category) (v : T)
    (on_sent : bool -> world T U -> world T U)
    (on_received : bool -> T -> world T U -> world T U) (s : system) :
  nth_error (select_hpp.chans s) i
  = Some (select_hpp.bounded 0 bounded_channel.make_chan) ->
  stop_requested (select_hpp.wld s) token = false ->
  (forall success w, ctxs (on_sent success w) = ctxs w) ->
  (forall success x w, ctxs (on_received success x w) = ctxs w) ->
  let w3 := with_fresh_context token (select_hpp.wld s) in
  let gate := select_hpp.select_need_abort (length (ctxs (select_hpp.wld s))) in
  select_hpp.select dflt ndebug fuel token
    [select_hpp.send i cat (Some v) on_sent; select_hpp.recv i on_received] None s
  = Ret (select_hpp.Stuck,
         [select_hpp.send i cat (Some v) on_sent; select_hpp.recv i on_received],
         select_hpp.mk_system
           (list_set i
              (select_hpp.bounded 0
                 (bounded_channel.mk_chan false [] []
                    [bounded_channel.sched_send_task dflt cat (length (frames w3))
                       gate on_sent]))
              (select_hpp.chans s))
           (snd (new_frame (mk_frame (Some v) None false false) w3)),
         [select_hpp.called_try_execute 0; select_hpp.called_try_execute 1;
          select_hpp.called_schedule 0; select_hpp.called_schedule 1]) /\
  select_hpp.select dflt ndebug fuel token
    [select_hpp.recv i on_received; select_hpp.send i cat (Some v) on_sent] None s
  = Ret (select_hpp.Stuck,
         [select_hpp.recv i on_received; select_hpp.send i cat (Some v) on_sent],
         select_hpp.mk_system
           (list_set i
              (select_hpp.bounded 0
                 (bounded_channel.mk_chan false [] [mk_recv_task gate on_received] []))
              (select_hpp.chans s))
           w3,
         [select_hpp.called_try_execute 0; select_hpp.called_try_execute 1;
          select_hpp.called_schedule 0; select_hpp.called_schedule 1]).
Proof.
  intros Hi Hstop Hsent Hrecv w3 gate.
  assert (Hidle : idle_for_recv (@select_hpp.bounded T U 0 bounded_channel.make_chan))
    by (simpl; auto).
  assert (Htry_send :
    select_hpp.try_execute dflt ndebug fuel (select_hpp.send i cat (Some v) on_sent) s
    = Ret (false, select_hpp.send i cat (Some v) on_sent, s)).
  { destruct s as [chans w]. simpl in Hi.
    unfold select_hpp.try_execute, select_hpp.call_try_send, select_hpp.set_chan.
    simpl. rewrite Hi. unfold bounded_channel.try_send, bounded_channel.try_send_.
    simpl. rewrite assert_pass by apply orb_true_r. simpl.
    pose proof (list_set_same _ _ _ Hi) as Hset.
    unfold bounded_channel.make_chan in Hset. rewrite Hset. reflexivity. }
  pose proof (try_execute_recv_idle fuel i on_received s _ Hi Hidle) as Htry_recv.
  split.
  - unfold select_hpp.select. cbn [select_hpp.greedy_pass].
    rewrite Htry_send. cbn [bind]. rewrite Htry_recv. cbn [bind app].
    rewrite stop_requested_with_context, Hstop.
    fold (with_fresh_context token (select_hpp.wld s)). fold w3.
    cbn [select_hpp.schedule_all].
    rewrite (schedule_send_without_receiver fuel i cat v on_sent _
               (select_hpp.mk_system (select_hpp.chans s) w3) [] [] Hi).
    cbn [bind select_hpp.wld select_hpp.chans app].
    rewrite (context_is_done_of _ _ (mk_sched_context false true))
      by (simpl; apply fresh_context_is_open).
    cbn [is_done].
    destruct (schedule_recv_asks_the_sender fuel i (length (ctxs (select_hpp.wld s)))
                (length (frames w3)) cat on_sent on_received
                (select_hpp.mk_system
                   (list_set i
                      (select_hpp.bounded 0
                         (bounded_channel.mk_chan false [] []
                            [bounded_channel.sched_send_task dflt cat (length (frames w3))
                               (select_hpp.select_need_abort
                                  (length (ctxs (select_hpp.wld s)))) on_sent]))
                      (select_hpp.chans s))
                   (snd (new_frame (mk_frame (Some v) None false false) w3)))
                [] (mk_sched_context false true))
      as (o' & s' & Hs & Hd); auto.
    + simpl. eapply nth_error_list_set_same; eauto.
    + simpl. apply fresh_context_is_open.
    + rewrite Hs. cbn [bind]. rewrite Hd. reflexivity.
  - unfold select_hpp.select. cbn [select_hpp.greedy_pass].
    rewrite Htry_recv. cbn [bind]. rewrite Htry_send. cbn [bind app].
    rewrite stop_requested_with_context, Hstop.
    fold (with_fresh_context token (select_hpp.wld s)). fold w3.
    cbn [select_hpp.schedule_all].
    rewrite (schedule_recv_idle fuel i on_received _
               (select_hpp.mk_system (select_hpp.chans s) w3) _ Hi Hidle).
    cbn [bind select_hpp.wld select_hpp.chans].
    rewrite (context_is_done_of _ _ (mk_sched_context false true))
      by apply fresh_context_is_open.
    cbn [is_done].
    destruct (schedule_send_asks_the_receiver fuel i (length (ctxs (select_hpp.wld s)))
                cat v on_sent on_received
                (select_hpp.mk_system
                   (list_set i
                      (hang_recv
                         (mk_recv_task
                            (select_hpp.select_need_abort
                               (length (ctxs (select_hpp.wld s)))) on_received)
                         (select_hpp.bounded 0 bounded_channel.make_chan))
                      (select_hpp.chans s))
                   w3)
                [] [] (mk_sched_context false true))
      as (o' & s' & Hs & Hd); auto.
    + simpl. eapply nth_error_list_set_same; eauto.
    + simpl. apply fresh_context_is_open.
    + rewrite Hs. cbn [bind]. rewrite Hd. reflexivity.
Qed.

End SelectBranches.

Section SelectCommitsOnce.

Context {T U : Type}.
Variable dflt : T.
Variable ndebug : bool.

Import bounded_channel.

Lemma gated_records_are_aborted (cid : nat) (q : list (recv_task T U))
    (w : world T U) (c : sched_context) :
  Forall (fun task => recv_need_abort task = select_hpp.select_need_abort cid) q ->
  nth_error (ctxs w) cid = Some c -> is_done c = true ->
  Forall (fun task => recv_need_abort task w = (true, w)) q.
Proof.
  intros Hq Hc Hd. induction Hq as [|task q Ht _ IH]; constructor; auto.
  rewrite Ht. eapply select_need_abort_shut; eauto.
Qed.

Lemma close_recv_tasks_aborted (v : T) (q : list (recv_task T U)) (w : world T U) :
  Forall (fun task => recv_need_abort task w = (true, w)) q ->
  close_recv_tasks v q w = w.
Proof.
  induction 1 as [|task q Ht _ IH]; simpl.
  - reflexivity.
  - rewrite Ht. exact IH.
Qed.

(** X11: the receives that one [select] has registered on a channel share its
    commit gate.  While the gate is open, the first of them to be reached
    passes it: [close] calls the callback of the first record with
    [ok = false] and the callback of no other; [try_send] on a channel of
    capacity 0 hands its value to the first record, and afterwards the
    records left are aborted: the next [try_send] pops them, calls no
    callback and is [exhausted].  In both cases [is_done] is set and [done]
    is unlocked. *)
Theorem select_settles_one_of_its_registrations
    (cid : nat) (c : sched_context) (task : recv_task T U)
    (q : list (recv_task T U)) (sq : list (send_task T U))
    (cat : value_category) (v v' : T) (w : world T U) :
  nth_error (ctxs w) cid = Some c ->
  is_done c = false ->
  Forall (fun t => recv_need_abort t = select_hpp.select_need_abort cid) (task :: q) ->
  (forall success x w', ctxs (recv_execute task success x w') = ctxs w') ->
  let w1 := set_ctxs (list_set cid (mk_sched_context true false) (ctxs w)) w in
  close_recv_tasks v (task :: q) w = recv_execute task false v w1 /\
  try_send ndebug 0 cat v (mk_chan false [] (task :: q) sq) w
  = Ret (ok, snd (forward cat v), mk_chan false [] q sq, recv_execute task true v w1) /\
  try_send ndebug 0 cat v' (mk_chan false [] q sq) (recv_execute task true v w1)
  = Ret (exhausted, Some v', mk_chan false [] [] sq, recv_execute task true v w1) /\
  nth_error (ctxs (recv_execute task true v w1)) cid = Some (mk_sched_context true false).
Proof.
  intros Hc Hopen Hgate Hkeep w1.
  inversion Hgate as [|t0 q0 Htask Hq]; subst.
  assert (Hw1 : nth_error (ctxs w1) cid = Some (mk_sched_context true false)).
  { unfold w1. simpl. eapply nth_error_list_set_same; eauto. }
  assert (Hshut : forall success x,
             Forall (fun t => recv_need_abort t (recv_execute task success x w1)
                              = (true, recv_execute task success x w1)) q).
  { intros success x.
    apply (gated_records_are_aborted cid q _ (mk_sched_context true false) Hq);
      [rewrite Hkeep; exact Hw1 | reflexivity]. }
  split; [|split; [|split]].
  - simpl. rewrite Htask. rewrite (select_need_abort_open cid w c Hc Hopen). simpl.
    fold w1. apply close_recv_tasks_aborted. apply Hshut.
  - unfold try_send, try_send_. simpl.
    rewrite !assert_pass by apply orb_true_r.
    rewrite Htask. rewrite (select_need_abort_open cid w c Hc Hopen). fold w1.
    destruct cat; reflexivity.
  - unfold try_send, try_send_. simpl.
    rewrite assert_pass by apply orb_true_r.
    rewrite <- (app_nil_r q).
    rewrite (give_to_receiver_skips_aborted ndebug cat v' q [] _ (Hshut true v)).
    reflexivity.
  - rewrite Hkeep. exact Hw1.
Qed.

End SelectCommitsOnce.

(** ** The two unbounded channels *)

Lemma wrap_size_t_minus (b r : Z) :
  wrap_size_t (wrap_size_t (b + 0) - r) = wrap_size_t (b - r).
Proof.
  unfold wrap_size_t. rewrite Z.add_0_r. apply Zminus_mod_idemp_l.
Qed.

Section TwoUnboundedChannels.

Context {T U : Type}.
Variable dflt : T.
Variable ndebug : bool.

Lemma unbounded_try_send__as_bounded cat v (uc : @unbounded_channel.chan T U)
    (w : world T U) :
  bounded_channel.try_send_ ndebug unbounded_capacity cat v (as_bounded uc) w
  = bind (unbounded_channel.try_send_ ndebug cat v uc w)
      (fun x => match x with (r, arg, uc', w') => Ret (r, arg, as_bounded uc', w') end).
Proof.
  unfold bounded_channel.try_send_, unbounded_channel.try_send_, as_bounded. simpl.
  unfold bounded_channel.assert. destruct (ndebug || negb (unbounded_channel.is_closed_ uc));
    [|reflexivity].
  destruct (bounded_channel.give_to_receiver ndebug cat v (unbounded_channel.buffer_ uc)
              (unbounded_channel.hanged_recv_tasks uc) w)
    as [[[[sent arg] rq] w1]| |]; simpl; try reflexivity.
  destruct sent; simpl; [reflexivity|].
  change (unbounded_capacity =? 0) with false.
  change (unbounded_capacity =? unbounded_capacity) with true. simpl.
  destruct (forward cat v). reflexivity.
Qed.

(** [try_send_] of [unbounded_channel] returns [true] whenever it
    returns. *)
Lemma unbounded_try_send__true cat v (uc uc' : @unbounded_channel.chan T U)
    (w w' : world T U) r arg :
  unbounded_channel.try_send_ ndebug cat v uc w = Ret (r, arg, uc', w') -> r = true.
Proof.
  unfold unbounded_channel.try_send_. intros H.
  apply assert_Ret_inv in H. apply bind_Ret_inv in H.
  destruct H as ([[[sent a] rq] w1] & _ & H).
  destruct sent; [inversion H; reflexivity|].
  destruct (forward cat v). inversion H. reflexivity.
Qed.

(** X12: [unbounded_channel<T>] and [bounded_channel<T, unbounded_capacity>] are
    the same channel: from corresponding states, every member function
    returns the same results, calls the same callbacks and leaves
    corresponding states, and the bounded one never has a suspended
    sender. *)
Theorem unbounded_channel_is_bounded_channel_at_unbounded_capacity
    (fuel : nat) (cat : value_category) (token : stop_token) (value : T)
    (need_abort : world T U -> bool * world T U)
    (on_recv : bool -> T -> world T U -> world T U)
    (on_sent : bool -> world T U -> world T U)
    (uc : @unbounded_channel.chan T U) (w : world T U) :
  bounded_channel.size unbounded_capacity (as_bounded uc) w
  = (let '(n, uc', w') := unbounded_channel.size uc w in (n, as_bounded uc', w')) /\
  bounded_channel.close dflt unbounded_capacity (as_bounded uc) w
  = (let '(uc', w') := unbounded_channel.close dflt uc w in (as_bounded uc', w')) /\
  bounded_channel.try_recv dflt ndebug unbounded_capacity fuel value (as_bounded uc) w
  = (let '(ec, v, uc', w') := unbounded_channel.try_recv value uc w in
     Ret (ec, v, as_bounded uc', w')) /\
  bounded_channel.recv dflt ndebug unbounded_capacity fuel token value (as_bounded uc) w
  = (let '(r, v, uc', w') := unbounded_channel.recv token value uc w in
     Ret (r, v, as_bounded uc', w')) /\
  bounded_channel.recv_sched dflt ndebug unbounded_capacity fuel need_abort on_recv
    (as_bounded uc) w
  = (let '(r, uc', w') := unbounded_channel.recv_sched dflt need_abort on_recv uc w in
     Ret (r, as_bounded uc', w')) /\
  bounded_channel.try_send ndebug unbounded_capacity cat value (as_bounded uc) w
  = bind (unbounded_channel.try_send ndebug cat value uc w)
      (fun x => match x with
                | (ec, arg, uc', w') => Ret (ec, arg, as_bounded uc', w')
                end) /\
  bounded_channel.send dflt ndebug unbounded_capacity cat token value (as_bounded uc) w
  = bind (unbounded_channel.send ndebug cat token value uc w)
      (fun x => match x with
                | (ec, arg, uc', w') =>
                    Ret (bounded_channel.Done ec, arg, as_bounded uc', w')
                end) /\
  bounded_channel.send_sched dflt ndebug unbounded_capacity cat value need_abort on_sent
    (as_bounded uc) w
  = bind (unbounded_channel.send_sched ndebug cat value need_abort on_sent uc w)
      (fun x => match x with
                | (arg, uc', w') => Ret (None, arg, as_bounded uc', w')
                end).
Proof.
  assert (Hrecv_ : forall v0,
    bounded_channel.try_recv_ dflt ndebug unbounded_capacity fuel v0 (as_bounded uc) w
    = bounded_channel.assert ndebug (negb (unbounded_channel.is_closed_ uc))
        (let '(r, v, uc') := unbounded_channel.try_recv_ v0 uc in
         Ret (r, v, as_bounded uc', w))).
  { intros v0. destruct uc as [cl buf rq].
    unfold bounded_channel.try_recv_, unbounded_channel.try_recv_, as_bounded.
    simpl. change (unbounded_capacity =? 0) with false.
    change (unbounded_capacity =? unbounded_capacity) with true.
    change (unbounded_capacity >? 0) with true. simpl.
    destruct buf as [|x b]; simpl.
    - reflexivity.
    - unfold bounded_channel.assert. rewrite orb_true_r. reflexivity. }
  refine (conj _ (conj _ (conj _ (conj _ (conj _ (conj _ (conj _ _))))))).
  - unfold bounded_channel.size, unbounded_channel.size, as_bounded. simpl.
    destruct (bounded_channel.prune_recv_tasks (unbounded_channel.hanged_recv_tasks uc) w)
      as [rq w1].
    change (unbounded_capacity =? unbounded_capacity) with true. simpl.
    change (len (@nil (send_task T U))) with 0. rewrite wrap_size_t_minus. reflexivity.
  - unfold bounded_channel.close, unbounded_channel.close, as_bounded. simpl.
    change (unbounded_capacity =? unbounded_capacity) with true. reflexivity.
  - unfold bounded_channel.try_recv, unbounded_channel.try_recv.
    change (bounded_channel.is_closed_ (as_bounded uc))
      with (unbounded_channel.is_closed_ uc).
    destruct (unbounded_channel.is_closed_ uc) eqn:Ecl; [reflexivity|].
    rewrite Hrecv_; try rewrite Ecl. rewrite assert_pass by apply orb_true_r.
    destruct (unbounded_channel.try_recv_ value uc) as [[r v] uc']. reflexivity.
  - unfold bounded_channel.recv, unbounded_channel.recv.
    destruct (stop_requested w token); [reflexivity|].
    change (bounded_channel.is_closed_ (as_bounded uc))
      with (unbounded_channel.is_closed_ uc).
    destruct (unbounded_channel.is_closed_ uc) eqn:Ecl; [reflexivity|].
    rewrite Hrecv_; try rewrite Ecl. rewrite assert_pass by apply orb_true_r.
    destruct (unbounded_channel.try_recv_ value uc) as [[r v] uc']. simpl.
    destruct r; reflexivity.
  - unfold bounded_channel.recv_sched, unbounded_channel.recv_sched.
    change (bounded_channel.is_closed_ (as_bounded uc))
      with (unbounded_channel.is_closed_ uc).
    destruct (unbounded_channel.is_closed_ uc) eqn:Ecl; [reflexivity|].
    rewrite Hrecv_; try rewrite Ecl. rewrite assert_pass by apply orb_true_r.
    destruct (unbounded_channel.try_recv_ dflt uc) as [[r v] uc']. simpl.
    destruct r; reflexivity.
  - unfold bounded_channel.try_send, unbounded_channel.try_send.
    change (bounded_channel.is_closed_ (as_bounded uc))
      with (unbounded_channel.is_closed_ uc).
    destruct (unbounded_channel.is_closed_ uc); [destruct uc; reflexivity|].
    change (unbounded_capacity =? unbounded_capacity) with true. cbv iota.
    rewrite unbounded_try_send__as_bounded.
    destruct (unbounded_channel.try_send_ ndebug cat value uc w)
      as [[[[r arg] uc'] w']| |]; reflexivity.
  - unfold bounded_channel.send, unbounded_channel.send.
    destruct (stop_requested w token); [destruct uc; reflexivity|].
    change (bounded_channel.is_closed_ (as_bounded uc))
      with (unbounded_channel.is_closed_ uc).
    destruct (unbounded_channel.is_closed_ uc); [destruct uc; reflexivity|].
    change (unbounded_capacity =? unbounded_capacity) with true. cbv iota.
    rewrite unbounded_try_send__as_bounded.
    destruct (unbounded_channel.try_send_ ndebug cat value uc w)
      as [[[[r arg] uc'] w']| |]; reflexivity.
  - unfold bounded_channel.send_sched, unbounded_channel.send_sched.
    change (bounded_channel.is_closed_ (as_bounded uc))
      with (unbounded_channel.is_closed_ uc).
    destruct (unbounded_channel.is_closed_ uc); [destruct uc; reflexivity|].
    change (unbounded_capacity =? unbounded_capacity) with true. cbv iota.
    rewrite unbounded_try_send__as_bounded.
    destruct (unbounded_channel.try_send_ ndebug cat value uc w)
      as [[[[r arg] uc'] w']| |] eqn:Es; try reflexivity.
    apply unbounded_try_send__true in Es. subst r. reflexivity.
Qed.

End TwoUnboundedChannels.

(** ** What every reachable state satisfies *)

Section ReachableStates.

Context {T U : Type}.
Variable dflt : T.
Variable ndebug : bool.

(** X13: in every state a channel object can reach, receivers wait only while
    the buffer is empty, a channel of capacity 0 has nothing in its buffer,
    and an unbounded channel has no suspended sender; the first holds for
    [unbounded_channel] too. *)
Theorem reachable_states_keep_the_queue_invariants
    (Cap : Z) (c : @bounded_channel.chan T U) (uc : @unbounded_channel.chan T U) :
  bounded_channel.reachable dflt ndebug Cap c ->
  unbounded_channel.reachable dflt ndebug uc ->
  (bounded_channel.buffer_ c = [] \/ bounded_channel.hanged_recv_tasks c = []) /\
  (Cap = 0 -> bounded_channel.buffer_ c = []) /\
  (Cap = unbounded_capacity -> bounded_channel.hanged_send_tasks c = []) /\
  (unbounded_channel.buffer_ uc = [] \/ unbounded_channel.hanged_recv_tasks uc = []).
Proof.
  intros Hc Huc. apply reachable_inv in Hc. destruct Hc as (H1 & H2 & H3).
  apply unbounded_reachable_inv in Huc. auto.
Qed.

(** X14: compiled with assertions, a channel of capacity [Cap] never returns
    from a member function with more than [Cap] values in its buffer: a call
    that would overfill the buffer ends in a failed assertion. *)
Theorem checked_build_keeps_the_buffer_within_capacity
    (Cap : Z) (c : @bounded_channel.chan T U) :
  Cap <> unbounded_capacity ->
  0 <= Cap ->
  bounded_channel.reachable dflt false Cap c ->
  len (bounded_channel.buffer_ c) <= Cap.
Proof.
  intros Hb H0 Hc. exact (reachable_checked_buffer_bounded dflt Cap Hb H0 c Hc).
Qed.

(** X15: a closed channel stays as it is: a call of any member function on a
    closed channel leaves it closed, leaves its buffer as it was and registers
    no waiter. *)
Theorem closed_channel_is_terminal
    (Cap : Z) (c c' : @bounded_channel.chan T U) :
  member_call dflt ndebug Cap c c' ->
  bounded_channel.is_closed_ c = true ->
  bounded_channel.is_closed_ c' = true /\
  bounded_channel.buffer_ c' = bounded_channel.buffer_ c /\
  suffix_of (bounded_channel.hanged_recv_tasks c') (bounded_channel.hanged_recv_tasks c) /\
  suffix_of (bounded_channel.hanged_send_tasks c') (bounded_channel.hanged_send_tasks c).
Proof.
  intros Hcall Hcl.
  assert (Hsame : bounded_channel.is_closed_ c = true /\
                  bounded_channel.buffer_ c = bounded_channel.buffer_ c /\
                  suffix_of (bounded_channel.hanged_recv_tasks c)
                    (bounded_channel.hanged_recv_tasks c) /\
                  suffix_of (bounded_channel.hanged_send_tasks c)
                    (bounded_channel.hanged_send_tasks c))
    by auto with chan.
  destruct Hcall as
    [ c w n c' w' H | c w c' w' H | c w fuel value ec v c' w' H
    | c w fuel token value r v c' w' H | c w fuel na os r c' w' H
    | c w cat value ec arg c' w' H | c w cat token value r arg c' w' H
    | c w cat value na os r arg c' w' H ].
  - unfold bounded_channel.size in H.
    pose proof (prune_recv_tasks_suffix (bounded_channel.hanged_recv_tasks c) w) as Hr.
    destruct (bounded_channel.prune_recv_tasks (bounded_channel.hanged_recv_tasks c) w)
      as [rq w1].
    pose proof (prune_send_tasks_suffix (bounded_channel.hanged_send_tasks c) w1) as Hs.
    destruct (negb (Cap =? unbounded_capacity)).
    + destruct (bounded_channel.prune_send_tasks (bounded_channel.hanged_send_tasks c) w1)
        as [sq w2].
      inversion H; subst. simpl in *. auto.
    + inversion H; subst. simpl in *. auto with chan.
  - unfold bounded_channel.close in H.
    destruct (negb (Cap =? unbounded_capacity)); inversion H; subst; simpl;
      auto with chan.
  - unfold bounded_channel.try_recv in H. rewrite Hcl in H. inversion H; subst. exact Hsame.
  - unfold bounded_channel.recv in H. rewrite Hcl in H.
    destruct (stop_requested w token); inversion H; subst; exact Hsame.
  - unfold bounded_channel.recv_sched in H. rewrite Hcl in H.
    inversion H; subst. exact Hsame.
  - unfold bounded_channel.try_send in H. rewrite Hcl in H. inversion H; subst. exact Hsame.
  - unfold bounded_channel.send in H. rewrite Hcl in H.
    destruct (stop_requested w token); inversion H; subst; exact Hsame.
  - unfold bounded_channel.send_sched in H. rewrite Hcl in H.
    inversion H; subst. exact Hsame.
Qed.

End ReachableStates.

(** ** A scheduled send that is never aborted, and [try_recv] *)

Section NeverAbortedSender.

Context {T U : Type}.
Variable dflt : T.

Import bounded_channel.

Lemma refill_buffer_does_not_return (ndebug : bool) (Cap : Z)
    (task : send_task T U) (q : list (send_task T U)) :
  (forall w, fst (send_need_abort task w) = false) ->
  forall fuel buf w r,
    refill_buffer dflt ndebug Cap fuel buf (task :: q) w <> Ret r.
Proof.
  intros Hlive. induction fuel as [|fuel IH]; intros buf w r; simpl.
  - discriminate.
  - unfold assert. destruct (ndebug || (len buf <? Cap)); [|discriminate].
    specialize (Hlive w).
    destruct (send_need_abort task w) as [aborted w1]. simpl in Hlive. subst aborted.
    destruct (send_execute task true dflt w1) as [v w2]. apply IH.
Qed.

(** With assertions, the loop fails the assertion [buffer_.size() < Cap]
    once the callback of the record at the front has filled the buffer. *)
Lemma refill_buffer_checked_fails (Cap : Z)
    (task : send_task T U) (q : list (send_task T U)) :
  (forall w, fst (send_need_abort task w) = false) ->
  forall fuel buf w,
    (Z.to_nat (Cap - len buf) < fuel)%nat ->
    refill_buffer dflt false Cap fuel buf (task :: q) w = AssertFailed.
Proof.
  intros Hlive. induction fuel as [|fuel IH]; intros buf w Hf; [lia|].
  simpl. unfold assert. simpl orb.
  destruct (Z.ltb_spec (len buf) Cap) as [Hlt|Hge]; [|reflexivity].
  specialize (Hlive w).
  destruct (send_need_abort task w) as [aborted w1]. simpl in Hlive. subst aborted.
  destruct (send_execute task true dflt w1) as [v w2]. apply IH.
  rewrite len_app. unfold len at 2. simpl length. lia.
Qed.

(** X16: on a bounded channel that holds a value, [send_sched(value, on_settled)]
    (the overload without abort predicate) registers a waiter that is never
    aborted, and from then on [try_recv] does not return: its loop over the
    suspended senders calls the callback of that waiter again and again.
    Without assertions it runs for ever, whatever the fuel.  With assertions
    it ends in a failed assertion: the loop puts one more value into the
    buffer at every turn and fails [assert(buffer_.size() < Cap)] when the
    buffer is full, so every run of more than [Cap - len(buffer)] turns ends
    with [AssertFailed], where [buffer] is what is left of the buffer after
    the value was taken. *)
Theorem try_recv_does_not_return_after_plain_send_sched
    (ndebug : bool) (Cap : Z) (cat : value_category) (v x value : T) (b : list T)
    (rq : list (recv_task T U)) (on_settled : bool -> world T U -> world T U)
    (w : world T U) :
  0 < Cap < unbounded_capacity ->
  exists c1 w1,
    chan_hpp.send_sched_plain (send_sched dflt ndebug Cap) cat v on_settled
      (mk_chan false (x :: b) rq []) w
    = Ret (Some (length (frames w)), Some v, c1, w1) /\
    user w1 = user w /\
    (forall fuel r, try_recv dflt ndebug Cap fuel value c1 w1 <> Ret r) /\
    (forall fuel, try_recv dflt true Cap fuel value c1 w1 = OutOfFuel) /\
    (forall fuel,
       (Z.to_nat (Cap - len b) < fuel)%nat ->
       try_recv dflt false Cap fuel value c1 w1 = AssertFailed).
Proof.
  intros HCap.
  exists (mk_chan false (x :: b) rq
            [sched_send_task dflt cat (length (frames w)) chan_hpp.never_need_abort
               on_settled]),
    (snd (new_frame (mk_frame (Some v) None false false) w)).
  assert (Ht : forall fuel nd,
    try_recv dflt nd Cap fuel value
      (mk_chan false (x :: b) rq
         [sched_send_task dflt cat (length (frames w)) chan_hpp.never_need_abort
            on_settled])
      (snd (new_frame (mk_frame (Some v) None false false) w))
    = bind (refill_buffer dflt nd Cap fuel b
              [sched_send_task dflt cat (length (frames w)) chan_hpp.never_need_abort
                 on_settled]
              (snd (new_frame (mk_frame (Some v) None false false) w)))
        (fun y => match y with
                  | (buf', sq, w') => Ret (ok, x, mk_chan false buf' rq sq, w')
                  end)).
  { intros fuel nd. unfold try_recv, try_recv_. simpl.
    rewrite assert_pass by apply orb_true_r.
    destruct (Z.eqb_spec Cap 0); [lia|]. simpl.
    rewrite assert_pass
      by (apply orb_true_iff; right; apply Z.gtb_lt; lia).
    destruct (Z.eqb_spec Cap unbounded_capacity); [lia|]. simpl.
    destruct (refill_buffer dflt nd Cap fuel b _ _) as [[[buf' sq] w']| |];
      reflexivity. }
  split; [|split; [|split; [|split]]].
  - unfold chan_hpp.send_sched_plain, send_sched. simpl.
    destruct (Z.eqb_spec Cap unbounded_capacity); [lia|].
    destruct (Z.eqb_spec Cap 0); [lia|]. reflexivity.
  - reflexivity.
  - intros fuel r. rewrite Ht.
    pose proof (refill_buffer_does_not_return ndebug Cap
                  (sched_send_task dflt cat (length (frames w))
                     chan_hpp.never_need_abort on_settled) []
                  (fun _ => eq_refl) fuel b
                  (snd (new_frame (mk_frame (Some v) None false false) w))) as Hn.
    destruct (refill_buffer dflt ndebug Cap fuel b _ _) as [y| |];
      [exfalso; exact (Hn y eq_refl) | discriminate | discriminate].
  - intros fuel. rewrite Ht.
    rewrite refill_buffer_never_returns; [reflexivity|]. intros w'. reflexivity.
  - intros fuel Hfuel. rewrite Ht.
    rewrite refill_buffer_checked_fails; [reflexivity | | exact Hfuel].
    intros w'. reflexivity.
Qed.

End NeverAbortedSender.

(** ** The overloads that take a token *)

Section TokenOverloads.

Context {T U : Type}.
Variable dflt : T.
Variable ndebug : bool.

Import bounded_channel.

Lemma request_stop_requested (i : nat) (s : stop_state) (w : world T U) :
  nth_error (stops w) i = Some s ->
  stop_requested (request_stop i w) (Some i) = true.
Proof.
  intros Hs. unfold request_stop. rewrite Hs.
  destruct (requested s) eqn:Hreq.
  - unfold stop_requested. rewrite Hs. exact Hreq.
  - unfold stop_requested. rewrite run_stop_callbacks_stops. simpl.
    rewrite (nth_error_list_set_same (stops w) i _ s Hs). reflexivity.
Qed.

(** X17: [recv_sched(token, on_settled)] on an empty open channel registers a
    waiter that lives as long as the token is not stop-requested: a
    [try_send] then calls [on_settled(true, value)] and returns [ok].  Once
    the source of the token is tripped, the waiter is aborted: [try_send]
    pops it and does not call [on_settled], and a further
    [recv_sched(token, on_settled)] returns at once, without calling
    [on_settled] and without registering anything. *)
Theorem recv_sched_with_token_follows_the_token
    (Cap : Z) (fuel : nat) (i : nat) (s : stop_state)
    (on_settled : bool -> T -> world T U -> world T U)
    (cat : value_category) (v : T) (c : @chan T U) (w : world T U) :
  nth_error (stops w) i = Some s ->
  requested s = false ->
  exists c1,
    chan_hpp.recv_sched_token (recv_sched dflt ndebug Cap fuel) (Some i) on_settled
      make_chan w
    = Ret (true, c1, w) /\
    observe c1 = (false, [], 1%nat, 0%nat) /\
    try_send ndebug Cap cat v c1 w
    = Ret (ok, snd (forward cat v), make_chan, on_settled true v w) /\
    (exists ec arg c3,
       try_send ndebug Cap cat v c1 (request_stop i w)
       = Ret (ec, arg, c3, request_stop i w) /\
       hanged_recv_tasks c3 = []) /\
    chan_hpp.recv_sched_token (recv_sched dflt ndebug Cap fuel) (Some i) on_settled
      c (request_stop i w)
    = Ret (false, c, request_stop i w).
Proof.
  intros Hs Hreq.
  assert (Hlive : stop_requested w (Some i) = false).
  { unfold stop_requested. rewrite Hs. exact Hreq. }
  pose proof (request_stop_requested i s w Hs) as Hdead.
  exists (mk_chan false [] [mk_recv_task (chan_hpp.token_need_abort (Some i)) on_settled] []).
  split; [|split; [|split; [|split]]].
  - unfold chan_hpp.recv_sched_token. rewrite Hlive.
    unfold recv_sched, try_recv_. simpl.
    rewrite assert_pass by apply orb_true_r.
    destruct (negb (Cap =? 0)); destruct (negb (Cap =? unbounded_capacity));
      reflexivity.
  - reflexivity.
  - unfold try_send, try_send_, chan_hpp.token_need_abort.
    cbn -[stop_requested request_stop].
    rewrite !assert_pass by apply orb_true_r. rewrite Hlive.
    repeat match goal with
           | |- context [Cap =? ?z] => destruct (Cap =? z)
           end; destruct cat; reflexivity.
  - unfold try_send, try_send_, chan_hpp.token_need_abort.
    cbn -[stop_requested request_stop].
    rewrite !assert_pass by apply orb_true_r. rewrite Hdead.
    cbn -[stop_requested request_stop].
    repeat match goal with
           | |- context [Cap =? ?z] =>
               destruct (Cap =? z); cbn -[stop_requested request_stop]
           | |- context [?z >=? Cap] =>
               destruct (z >=? Cap); cbn -[stop_requested request_stop]
           end;
      destruct cat; cbn -[stop_requested request_stop]; eauto.
  - unfold chan_hpp.recv_sched_token. rewrite Hdead. reflexivity.
Qed.

End TokenOverloads.

(** ** error.hpp *)

Module error_hpp_facts.

Import String.

(** X18: the message of the category tells the four codes apart, and is
    "unknown" exactly for the integers that are the value of no code. *)
Theorem message_is_unknown_exactly_off_the_codes :
  (forall e1 e2 : channel_errc,
     error_hpp.message (error_hpp.value e1) = error_hpp.message (error_hpp.value e2) ->
     e1 = e2) /\
  (forall c : Z,
     error_hpp.message c = "unknown"%string <-> (forall e, error_hpp.value e <> c)).
Proof.
  split.
  - intros [] []; simpl; intros H; try reflexivity; discriminate H.
  - intros c. split.
    + intros H e Hc. subst c. destruct e; discriminate H.
    + intros H.
      destruct c as [|p|p]; try reflexivity.
      * exfalso. exact (H ok eq_refl).
      * destruct p as [p|p|]; try reflexivity.
        -- destruct p; try reflexivity. exfalso. exact (H canceled eq_refl).
        -- destruct p; try reflexivity. exfalso. exact (H closed eq_refl).
        -- exfalso. exact (H exhausted eq_refl).
Qed.

End error_hpp_facts.

(** ** The further theorems at concrete inputs *)

Import runs.

(** X1 at a channel of capacity 2 and the values 1 and 2. *)
Lemma buffered_values_witness :
  try_send_all false 2 rvalue [1; 2] (bounded_channel.mk_chan false [] [] []) w0
  = Ret ([ok; ok], bounded_channel.mk_chan false [1; 2] [] [], w0) /\
  try_recv_times 0 false 2 0 2 (bounded_channel.mk_chan false [1; 2] [] []) w0
  = Ret ([(ok, 1); (ok, 2)], bounded_channel.mk_chan false [] [] [], w0).
Proof.
  destruct (buffered_values_are_received_in_order 0 false 2 0%nat rvalue [] [1; 2] 0 w0)
    as (H1 & H2 & _).
  - lia.
  - right. vm_compute. discriminate.
  - split; [exact H1 | exact H2].
Defined.

(** X2 at a queue with an aborted receiver before two live ones. *)
Lemma try_send_hands_over_witness :
  bounded_channel.try_send false 0 rvalue 7
    (bounded_channel.mk_chan false [] [aborted_receiver; live_receiver; live_receiver] [])
    w0
  = Ret (ok, None, bounded_channel.mk_chan false [] [live_receiver] [],
         log_received true 7 w0).
Proof.
  apply (try_send_hands_over_to_first_live_receiver false 0 rvalue 7
           [aborted_receiver] [live_receiver] live_receiver [] w0 w0).
  - repeat constructor.
  - reflexivity.
Defined.

(** X3 at a queue with an aborted sender before two live ones. *)
Lemma try_recv_takes_witness :
  bounded_channel.try_recv 0 false 0 5 0
    (bounded_channel.mk_chan false [] [] [aborted_sender; live_sender 8; live_sender 9])
    w0
  = Ret (ok, 8, bounded_channel.mk_chan false [] [] [live_sender 9], log_sent true w0).
Proof.
  apply (try_recv_takes_from_first_live_sender 0 false 5%nat 0 8
           [aborted_sender] [live_sender 9] (live_sender 8) [] [] w0 w0
           (log_sent true w0)).
  - repeat constructor.
  - reflexivity.
  - reflexivity.
Defined.

(** X4 at queues that hold one aborted record each. *)
Lemma rendezvous_exhausted_witness :
  bounded_channel.try_send false 0 rvalue 7
    (bounded_channel.mk_chan false [] [aborted_receiver] [aborted_sender]) w0
  = Ret (exhausted, Some 7, bounded_channel.mk_chan false [] [] [aborted_sender], w0) /\
  bounded_channel.try_recv 0 false 0 5 0
    (bounded_channel.mk_chan false [] [aborted_receiver] [aborted_sender]) w0
  = Ret (exhausted, 0, bounded_channel.mk_chan false [] [aborted_receiver] [], w0).
Proof.
  apply (rendezvous_without_live_party_is_exhausted 0 false 5%nat rvalue 7 0
           [aborted_receiver] [aborted_sender] w0).
  - repeat constructor.
  - repeat constructor.
Defined.

(** X5 at a fresh channel of capacity 1. *)
Lemma suspended_recv_witness :
  exists c1 w1 w2,
    bounded_channel.recv 0 false 1 5 None 0 bounded_channel.make_chan w0
    = Ret (bounded_channel.Suspended 0, 0, c1, w1) /\
    observe c1 = (false, [], 1%nat, 0%nat) /\
    await 0 w1 = None /\
    bounded_channel.try_send false 1 rvalue 7 c1 w1
    = Ret (ok, None, bounded_channel.make_chan, w2) /\
    await 0 w2 = Some (ok, Some 7).
Proof.
  apply (suspended_recv_is_completed_by_try_send 0 false 1 5%nat None 0 7 rvalue w0).
  reflexivity.
Defined.

(** X6 at a fresh channel of capacity 0. *)
Lemma suspended_send_witness :
  exists c1 w1 w2,
    bounded_channel.send 0 false 0 rvalue None 7 bounded_channel.make_chan w0
    = Ret (bounded_channel.Suspended 0, Some 7, c1, w1) /\
    observe c1 = (false, [], 0%nat, 1%nat) /\
    await 0 w1 = None /\
    bounded_channel.try_recv 0 false 0 5 0 c1 w1
    = Ret (ok, 7, bounded_channel.make_chan, w2) /\
    await 0 w2 = Some (ok, None).
Proof.
  apply (suspended_send_is_completed_by_try_recv 0 false 5%nat None 0 7 rvalue w0).
  reflexivity.
Defined.

(** X7 at a world with one stop source. *)
Lemma canceled_suspended_call_witness :
  exists c1 w1,
    bounded_channel.recv 0 false 0 5 (Some 0%nat) 3 bounded_channel.make_chan w_one_source
    = Ret (bounded_channel.Suspended 0, 3, c1, w1) /\
    await 0 (request_stop 0 w1) = Some (canceled, Some 3) /\
    stop_requested (request_stop 0 w1) (Some 0%nat) = true /\
    fst (fst (bounded_channel.size 0 c1 (request_stop 0 w1))) = 0 /\
    exists ec arg c3,
      bounded_channel.try_send false 0 rvalue 7 c1 (request_stop 0 w1)
      = Ret (ec, arg, c3, request_stop 0 w1) /\
      bounded_channel.hanged_recv_tasks c3 = [].
Proof.
  apply (canceled_suspended_call_returns_canceled 0 false 0 5%nat 0%nat
           (mk_stop_state false []) 3 7 rvalue w_one_source).
  - reflexivity.
  - reflexivity.
Defined.

(** X8 at a channel of capacity 0 with one suspended receiver and one
    suspended sender. *)
Lemma close_completes_witness :
  exists w',
    bounded_channel.close 0 0
      (bounded_channel.mk_chan false []
         (map bounded_channel.blocked_recv_task [0%nat])
         (map (bounded_channel.blocked_send_task 0 rvalue) [1%nat]))
      w_two_armed
    = (bounded_channel.mk_chan true [] [] [], w') /\
    (forall f fr, In f ([0%nat] ++ [1%nat]) -> frame_at f w_two_armed = Some fr ->
       frame_at f w' = Some (closed_frame fr) /\ await f w' = Some (closed, fr_value fr)) /\
    (forall g, ~ In g ([0%nat] ++ [1%nat]) -> frame_at g w' = frame_at g w_two_armed).
Proof.
  apply (close_completes_suspended_calls_with_closed 0 0 rvalue false []
           [0%nat] [1%nat] w_two_armed).
  - vm_compute. discriminate.
  - repeat constructor; simpl; intuition discriminate.
  - intros f [<-|[<-|[]]]; eexists; split; reflexivity.
Defined.

(** X9 at [select(recv(c1), send(c1, 5, cb), fallback)] with [c1] empty of
    capacity 0. *)
Lemma select_fallback_witness :
  select_hpp.select 0 false 5 None [recv_c1; send_c1] (Some (log_sent false)) two_channels
  = Ret (select_hpp.Returned, [recv_c1; send_c1],
         select_hpp.mk_system (select_hpp.chans two_channels) (log_sent false w0),
         [select_hpp.called_try_execute 0; select_hpp.called_try_execute 1;
          select_hpp.called_fallback]).
Proof.
  refine (proj1 (select_calls_fallback_when_nothing_is_ready 0 false 5%nat None
                   (log_sent false) [recv_c1; send_c1] [recv_c1; send_c1]
                   two_channels two_channels _)).
  apply all_exhausted_cons with (s1 := two_channels); [reflexivity|].
  apply all_exhausted_cons with (s1 := two_channels); [reflexivity|].
  apply all_exhausted_nil.
Defined.

(** X10 at the test "by send" of [select], before the value is sent:
    [select(recv(c1), recv(c2, cb), recv(c2, cb))] on two empty unbounded
    channels. *)
Lemma select_registers_witness :
  select_hpp.select 0 false 5 None (recv_ops recv_thrice) None two_unbounded
  = Ret (select_hpp.Waiting 0, recv_ops recv_thrice,
         select_hpp.mk_system
           [select_hpp.unbounded
              (unbounded_channel.mk_chan false []
                 [mk_recv_task (select_hpp.select_need_abort 0) ignore_received]);
            select_hpp.unbounded
              (unbounded_channel.mk_chan false [] [gated_receiver; gated_receiver])]
           w_selecting,
         [select_hpp.called_try_execute 0; select_hpp.called_try_execute 1;
          select_hpp.called_try_execute 2; select_hpp.called_schedule 0;
          select_hpp.called_schedule 1; select_hpp.called_schedule 2]).
Proof.
  apply (select_registers_its_receives_and_waits 0 false 5%nat None recv_thrice
           two_unbounded).
  - repeat constructor; eexists; (split; [reflexivity | split; reflexivity]).
  - reflexivity.
Defined.

(** X19 at [select(send(c1, 5, cb), recv(c1))] and at
    [select(recv(c1), send(c1, 5, cb))] with [c1] empty of capacity 0. *)
Lemma select_stuck_witness :
  exists s1 s2,
    select_hpp.select 0 false 5 None [send_c1; recv_c1] None two_channels
    = Ret (select_hpp.Stuck, [send_c1; recv_c1], s1,
           [select_hpp.called_try_execute 0; select_hpp.called_try_execute 1;
            select_hpp.called_schedule 0; select_hpp.called_schedule 1]) /\
    select_hpp.select 0 false 5 None [recv_c1; send_c1] None two_channels
    = Ret (select_hpp.Stuck, [recv_c1; send_c1], s2,
           [select_hpp.called_try_execute 0; select_hpp.called_try_execute 1;
            select_hpp.called_schedule 0; select_hpp.called_schedule 1]) /\
    user (select_hpp.wld s1) = [] /\ user (select_hpp.wld s2) = [].
Proof.
  destruct (select_of_send_and_recv_on_one_channel_is_stuck 0 false 5%nat None 0%nat
              rvalue 5 log_sent ignore_received two_channels) as [H1 H2].
  - reflexivity.
  - reflexivity.
  - intros success w. reflexivity.
  - intros success x w. reflexivity.
  - eexists _, _. split; [exact H1|]. split; [exact H2|]. split; reflexivity.
Defined.

(** X11 at two receives of one [select] on a channel of capacity 0. *)
Lemma select_settles_one_witness :
  user (bounded_channel.close_recv_tasks 0 [gated_receiver; gated_receiver] w_selecting)
  = [(false, Some 0)] /\
  ctxs (bounded_channel.close_recv_tasks 0 [gated_receiver; gated_receiver] w_selecting)
  = [mk_sched_context true false].
Proof.
  destruct (select_settles_one_of_its_registrations false 0%nat
              (mk_sched_context false true) gated_receiver [gated_receiver] []
              rvalue 0 0 w_selecting) as (Hclose & _).
  - reflexivity.
  - reflexivity.
  - repeat constructor.
  - intros success x w'. reflexivity.
  - rewrite Hclose. split; reflexivity.
Defined.

(** X13 at a channel of capacity 1 that holds one value. *)
Lemma reachable_invariants_witness :
  (bounded_channel.buffer_ (bounded_channel.mk_chan (U := log) false [1] [] []) = []
   \/ bounded_channel.hanged_recv_tasks
        (bounded_channel.mk_chan (U := log) false [1] [] []) = []) /\
  (1 = 0 -> bounded_channel.buffer_ (bounded_channel.mk_chan (U := log) false [1] [] []) = []) /\
  (1 = unbounded_capacity ->
   bounded_channel.hanged_send_tasks (bounded_channel.mk_chan (U := log) false [1] [] []) = []) /\
  (unbounded_channel.buffer_ (unbounded_channel.make_chan (T := Z) (U := log)) = []
   \/ unbounded_channel.hanged_recv_tasks
        (unbounded_channel.make_chan (T := Z) (U := log)) = []).
Proof.
  apply (reachable_states_keep_the_queue_invariants 0 false 1
           (bounded_channel.mk_chan false [1] [] []) unbounded_channel.make_chan).
  - apply (bounded_channel.reach_try_send 0 false 1
             bounded_channel.make_chan w0 rvalue 1 ok None
             (bounded_channel.mk_chan false [1] [] []) w0).
    + apply bounded_channel.reach_make_chan.
    + reflexivity.
  - apply unbounded_channel.reach_make_chan.
Defined.

(** X14 at a channel of capacity 1 that holds one value. *)
Lemma checked_build_witness :
  bounded_channel.try_send false 1 rvalue 1 bounded_channel.make_chan w0
  = Ret (ok, None, bounded_channel.mk_chan false [1] [] [], w0) /\
  len (bounded_channel.buffer_ (bounded_channel.mk_chan (U := log) false [1] [] [])) <= 1.
Proof.
  split; [reflexivity|].
  apply (checked_build_keeps_the_buffer_within_capacity 0 1
           (bounded_channel.mk_chan false [1] [] [])).
  - vm_compute. discriminate.
  - lia.
  - apply (bounded_channel.reach_try_send 0 false 1
             bounded_channel.make_chan w0 rvalue 1 ok None
             (bounded_channel.mk_chan false [1] [] []) w0).
    + apply bounded_channel.reach_make_chan.
    + reflexivity.
Defined.

(** X15 at [recv_sched] on a closed channel that holds a value. *)
Lemma closed_channel_is_terminal_witness :
  bounded_channel.recv_sched 0 false 1 5 never_abort log_received
    (bounded_channel.mk_chan true [1] [] []) w0
  = Ret (false, bounded_channel.mk_chan true [1] [] [], log_received false 0 w0) /\
  bounded_channel.is_closed_ (bounded_channel.mk_chan (U := log) true [1] [] []) = true /\
  bounded_channel.buffer_ (bounded_channel.mk_chan (U := log) true [1] [] []) = [1] /\
  suffix_of (A := recv_task Z log) [] [] /\
  suffix_of (A := send_task Z log) [] [].
Proof.
  split; [reflexivity|].
  apply (closed_channel_is_terminal 0 false 1
           (bounded_channel.mk_chan true [1] [] [])
           (bounded_channel.mk_chan true [1] [] [])).
  - apply (call_recv_sched 0 false 1 (bounded_channel.mk_chan true [1] [] []) w0 5%nat
             never_abort log_received false
             (bounded_channel.mk_chan true [1] [] []) (log_received false 0 w0)).
    reflexivity.
  - reflexivity.
Defined.

(** X16 at a channel of capacity 2 that holds one value. *)
Lemma try_recv_does_not_return_witness :
  exists c1 w1,
    chan_hpp.send_sched_plain (bounded_channel.send_sched 0 false 2) rvalue 7 log_sent
      (bounded_channel.mk_chan false [1] [] []) w0
    = Ret (Some (length (frames w0)), Some 7, c1, w1) /\
    user w1 = user w0 /\
    (forall fuel r, bounded_channel.try_recv 0 false 2 fuel 0 c1 w1 <> Ret r) /\
    (forall fuel, bounded_channel.try_recv 0 true 2 fuel 0 c1 w1 = OutOfFuel) /\
    (forall fuel,
       (Z.to_nat (2 - len (@nil Z)) < fuel)%nat ->
       bounded_channel.try_recv 0 false 2 fuel 0 c1 w1 = AssertFailed).
Proof.
  apply (try_recv_does_not_return_after_plain_send_sched 0 false 2 rvalue 7 1 0 [] []
           log_sent w0).
  vm_compute. split; reflexivity.
Defined.

(** X17 at a world with one stop source. *)
Lemma recv_sched_with_token_witness :
  exists c1,
    chan_hpp.recv_sched_token (bounded_channel.recv_sched 0 false 0 5) (Some 0%nat)
      log_received bounded_channel.make_chan w_one_source
    = Ret (true, c1, w_one_source) /\
    observe c1 = (false, [], 1%nat, 0%nat) /\
    bounded_channel.try_send false 0 rvalue 7 c1 w_one_source
    = Ret (ok, None, bounded_channel.make_chan, log_received true 7 w_one_source) /\
    (exists ec arg c3,
       bounded_channel.try_send false 0 rvalue 7 c1 (request_stop 0 w_one_source)
       = Ret (ec, arg, c3, request_stop 0 w_one_source) /\
       bounded_channel.hanged_recv_tasks c3 = []) /\
    chan_hpp.recv_sched_token (bounded_channel.recv_sched 0 false 0 5) (Some 0%nat)
      log_received bounded_channel.make_chan (request_stop 0 w_one_source)
    = Ret (false, bounded_channel.make_chan, request_stop 0 w_one_source).
Proof.
  apply (recv_sched_with_token_follows_the_token 0 false 0 5%nat 0%nat
           (mk_stop_state false []) log_received rvalue 7 bounded_channel.make_chan
           w_one_source).
  - reflexivity.
  - reflexivity.
Defined.
